(** * IFC-Coordinator: the spatial tree, its repair pass, the IFC2x3
    exporter, the IFC importer and the tag pattern engine.

    A shallow embedding of [src/App.tsx] (the tree model and the tag
    engine), [src/ifc/exportIfc2x3.ts] and [src/ifc/importIfc.ts].

    Conventions of the embedding.
    - A JavaScript object used as a map ([Record<string, TreeNode>]) is an
      association list in enumeration order: [Object.entries],
      [Object.values] and [find] walk that list from its head.  Writing an
      existing key keeps its position, writing a new key appends it.  (For
      keys that are not canonical array indices this is JavaScript's own
      order.)  A lookup [o[k]] also finds the names that every plain object
      inherits from [Object.prototype] ([prototypeNames]); where the source
      only tests the kind of what it found, an inherited value (a function,
      without a [kind]) and a missing key give the same answer, and the
      lookup is [Obj.get].  Where the source tests truthiness or reads
      [children] or [name], the inherited names are modelled ([truthyAt],
      [inheritedAt], [lookup]).
    - Strings are [string], of any length (the language sets no limit);
      optional fields are [option].
    - The numbers of the tag engine are IEEE 754 doubles ([number]); ids
      and line numbers, which the code only counts up from small values,
      are integers.
    - [setNodes (prev => ...)] updaters are functions from the previous
      snapshot to the next one. *)

From Stdlib Require Import String Ascii List Bool Arith ZArith Lia.
From Stdlib Require Import Decimal DecimalString SpecFloat.
Import ListNotations.
Open Scope string_scope.
Open Scope list_scope.

(** ** JavaScript objects as ordered association lists *)

Module Obj.

Section Defs.
Context {V : Type}.

Definition t := list (string * V).

(** [o[k]] *)
Fixpoint get (o : t) (k : string) : option V :=
  match o with
  | [] => None
  | (k', v) :: o' => if k' =? k then Some v else get o' k
  end.

(** [!!o[k]] for a map whose values are objects *)
Definition has (o : t) (k : string) : bool :=
  match get o k with Some _ => true | None => false end.

(** [o[k] = v] *)
Fixpoint set (o : t) (k : string) (v : V) : t :=
  match o with
  | [] => [(k, v)]
  | (k', v') :: o' => if k' =? k then (k', v) :: o' else (k', v') :: set o' k v
  end.

Definition keys (o : t) : list string := map fst o.
Definition values (o : t) : list V := map snd o.
End Defs.

Arguments t : clear implicits.

End Obj.

(** ** The data model *)

Inductive NodeKind :=
  Root | Project | Site | Building | Storey | ClassGroup | Object.

Definition NodeKind_eqb (a b : NodeKind) : bool :=
  match a, b with
  | Root, Root | Project, Project | Site, Site | Building, Building
  | Storey, Storey | ClassGroup, ClassGroup | Object, Object => true
  | _, _ => false
  end.

Record Pset := mkPset {
  pset_name : string;
  props : Obj.t string
}.

Inductive DocCategory :=
  Manual | Datasheet | Certificate | Report | Model | Other.

Record AssetDocument := mkDoc {
  doc_id : string;
  doc_name : string;
  category : DocCategory;
  mime : string;
  version : string;
  createdAt : Z;
  blobKey : string;
  url : option string
}.

(** [ifc] of importIfc.ts ([globalId], [type]) and of exportIfc2x3.ts
    ([guid]) in one record. *)
Record IfcRef := mkIfcRef {
  modelID : Z;
  expressID : Z;
  globalId : option string;
  guid : option string;
  ifc_type : option string
}.

Record TreeNode := mkNode {
  id : string;
  kind : NodeKind;
  name : string;
  parentId : option string;
  children : list string;
  ifcClass : option string;
  tag : option string;
  psets : option (list Pset);
  docs : option (list AssetDocument);
  ifc : option IfcRef
}.

Definition Nodes := Obj.t TreeNode.

(** [{ ...n, children }] *)
Definition with_children (n : TreeNode) (c : list string) : TreeNode :=
  mkNode (id n) (kind n) (name n) (parentId n) c (ifcClass n) (tag n)
         (psets n) (docs n) (ifc n).

(** [{ ...n, parentId }] *)
Definition with_parentId (n : TreeNode) (p : option string) : TreeNode :=
  mkNode (id n) (kind n) (name n) p (children n) (ifcClass n) (tag n)
         (psets n) (docs n) (ifc n).

(** A node literal that gives only the fields every literal of the source
    gives. *)
Definition plainNode (i : string) (k : NodeKind) (nm : string)
    (p : option string) (c : list string) : TreeNode :=
  mkNode i k nm p c None None None None None.

(** Truthiness of a string: only the empty string is falsy. *)
Definition truthy (s : string) : bool := negb (s =? "").

(** [K.includes(k)], [S.has(k)] *)
Definition memb (K : list string) (k : string) : bool :=
  existsb (String.eqb k) K.

(** The property names of [Object.prototype]: [o[k]] finds a function (for
    ["__proto__"] the prototype object) under each of them in every plain
    object [o] that has no own key [k]. *)
Definition prototypeNames : list string :=
  [ "constructor"; "__defineGetter__"; "__defineSetter__"; "hasOwnProperty";
    "__lookupGetter__"; "__lookupSetter__"; "isPrototypeOf";
    "propertyIsEnumerable"; "toString"; "valueOf"; "__proto__";
    "toLocaleString" ].

(** [!!o[k]] for a map whose own values are objects: an own key, or an
    inherited name. *)
Definition truthyAt {V} (o : Obj.t V) (k : string) : bool :=
  Obj.has o k || memb prototypeNames k.

(** [o[k]] is an inherited value: [k] is no own key but a name of
    [Object.prototype]. *)
Definition inheritedAt {V} (o : Obj.t V) (k : string) : bool :=
  negb (Obj.has o k) && memb prototypeNames k.

(** ** The repair pass: [sanitizeNodes] (App.tsx) *)

Definition rootNode : TreeNode := plainNode "root" Root "Workspace" None [].

(** One turn of the loop [for (const [id, n] of Object.entries(out))]. *)
Definition sanitizeStep (out : Nodes) (e : string * TreeNode) : Nodes :=
  let '(i, n) := e in
  let c := filter (fun cid => truthyAt out cid && negb (cid =? i)) (children n) in
  let out1 := Obj.set out i (with_children n c) in
  match Obj.get out1 i with
  | Some m =>
      match parentId m with
      | Some p =>
          if truthy p && negb (truthyAt out1 p)
          then Obj.set out1 i (with_parentId m None)
          else out1
      | None => out1
      end
  | None => out1
  end.

Definition isProject (n : TreeNode) : bool := NodeKind_eqb (kind n) Project.

(** [out[cid]?.kind === "Project"] *)
Definition isProjectAt (out : Nodes) (cid : string) : bool :=
  match Obj.get out cid with Some c => isProject c | None => false end.

Definition sanitizeNodes (input : Nodes) : Nodes :=
  (* 1) dangling refs + self refs + parentId check *)
  let out := fold_left sanitizeStep input input in
  (* 2) ensure root exists *)
  let out := if Obj.has out "root" then out else Obj.set out "root" rootNode in
  (* 3) ensure root has at least one Project as child *)
  match Obj.get out "root" with
  | Some root =>
      let validRootChildren := filter (isProjectAt out) (children root) in
      if Nat.eqb (length validRootChildren) 0
      then
        let projects := map id (filter isProject (Obj.values out)) in
        Obj.set out "root" (with_children root projects)
      else Obj.set out "root" (with_children root validRootChildren)
  | None => out
  end.

(** A snapshot is an id-keyed map: keys are distinct and every node sits
    under its own id. *)
Fixpoint distinct (l : list string) : bool :=
  match l with
  | [] => true
  | x :: l' => negb (existsb (String.eqb x) l') && distinct l'
  end.

Definition idKeyed (s : Nodes) : bool :=
  forallb (fun e => fst e =? id (snd e)) s.

Definition snapshot_ok (s : Nodes) : bool :=
  distinct (Obj.keys s) && idKeyed s.

(** The entry stored under ["root"], if there is one, is not a Project. *)
Definition rootNotProject (s : Nodes) : bool :=
  negb (isProjectAt s "root").

(** [!!out[k]] as a function of the key set of [out]. *)
Definition seen (K : list string) (k : string) : bool :=
  memb K k || memb prototypeNames k.

(** What one turn of the loop does to its entry, as a function of the key
    set alone (the loop never changes the key set). *)
Definition repairEntry (K : list string) (e : string * TreeNode)
    : string * TreeNode :=
  let '(i, n) := e in
  let c := filter (fun cid => seen K cid && negb (cid =? i)) (children n) in
  let p := match parentId n with
           | Some p => if truthy p && negb (seen K p) then None else Some p
           | None => None
           end in
  (i, with_parentId (with_children n c) p).

(** A node is clean for a key set when the repair loop has nothing to do
    on it. *)
Definition clean (K : list string) (k : string) (n : TreeNode) : Prop :=
  (forall c, In c (children n) -> seen K c = true /\ c <> k) /\
  (forall p, parentId n = Some p -> truthy p = true -> seen K p = true).

(** The shape of a repaired snapshot: step 3 writes the children of the
    root of [out], where [out] is clean and id-keyed. *)
Inductive Repaired (s : Nodes) : Nodes -> Prop :=
| mkRepaired (out : Nodes) (root : TreeNode) (newc : list string) :
    Obj.get out "root" = Some root ->
    NoDup (Obj.keys out) ->
    (forall k n, In (k, n) out -> k = id n) ->
    incl (Obj.keys s) (Obj.keys out) ->
    (forall k n, In (k, n) out -> clean (Obj.keys out) k n) ->
    (rootNotProject s = true -> isProject root = false) ->
    (filter (isProjectAt out) (children root) = [] /\
     newc = map id (filter isProject (Obj.values out))
     \/ filter (isProjectAt out) (children root) <> [] /\
        newc = filter (isProjectAt out) (children root)) ->
    Repaired s (Obj.set out "root" (with_children root newc)).

(** ** Errors

    A function that can throw returns a [result]. *)

Inductive result (A : Type) :=
| Ok (a : A)
| Throw (msg : string).
Arguments Ok {A} a.
Arguments Throw {A} msg.

Definition bind {A B} (r : result A) (f : A -> result B) : result B :=
  match r with Ok a => f a | Throw m => Throw m end.

(** The error that reading a property of [undefined], or spreading
    [undefined], throws; the message depends on the engine. *)
Definition TypeError : string := "TypeError".

(** ** Move operations (App.tsx)

    Each is the updater passed to [setNodes]: [prev] in, next snapshot
    out, or the error the updater throws.  [next = { ...prev }] is a copy,
    so [return prev] and "nothing written to [next]" are the same
    snapshot. *)

Definition notId (childId : string) (c : string) : bool := negb (c =? childId).

Definition detachFromParent (childId : string) (parentId : option string)
    (draft : Nodes) : result Nodes :=
  match parentId with
  | Some pid =>
      if truthy pid then
        match Obj.get draft pid with
        | Some p =>
            Ok (Obj.set draft pid
                  (with_children p (filter (notId childId) (children p))))
        | None =>
            (* [p] is an inherited function: [p.children] is undefined and
               [p.children.filter] throws *)
            if memb prototypeNames pid then Throw TypeError else Ok draft
        end
      else Ok draft
  | None => Ok draft
  end.

Definition attachToParent (childId parentId : string) (draft : Nodes)
    : result Nodes :=
  match Obj.get draft parentId with
  | Some p =>
      Ok (Obj.set draft parentId (with_children p (children p ++ [childId])))
  | None =>
      (* [[...p.children, childId]] spreads undefined *)
      if memb prototypeNames parentId then Throw TypeError else Ok draft
  end.

(** [oldId === targetId] for an optional [oldId] *)
Definition sameId (old : option string) (target : string) : bool :=
  match old with Some o => o =? target | None => false end.

Definition moveBuildingToSite (buildingId targetSiteId : string) (prev : Nodes)
    : result Nodes :=
  let next := prev in
  match Obj.get next buildingId with
  | Some b =>
      if negb (NodeKind_eqb (kind b) Building) then Ok prev else
      match Obj.get next targetSiteId with
      | Some targetSite =>
          if negb (NodeKind_eqb (kind targetSite) Site) then Ok prev else
          let oldSiteId := parentId b in
          if sameId oldSiteId targetSiteId then Ok prev else
          bind (detachFromParent buildingId oldSiteId next) (fun next =>
          bind (attachToParent buildingId targetSiteId next) (fun next =>
          Ok (Obj.set next buildingId (with_parentId b (Some targetSiteId)))))
      | None => Ok prev
      end
  | None => Ok prev
  end.

Definition moveStoreyToBuilding (storeyId targetBuildingId : string)
    (prev : Nodes) : result Nodes :=
  let next := prev in
  match Obj.get next storeyId with
  | Some s =>
      if negb (NodeKind_eqb (kind s) Storey) then Ok prev else
      match Obj.get next targetBuildingId with
      | Some targetBuilding =>
          if negb (NodeKind_eqb (kind targetBuilding) Building) then Ok prev else
          let oldBuildingId := parentId s in
          if sameId oldBuildingId targetBuildingId then Ok prev else
          bind (detachFromParent storeyId oldBuildingId next) (fun next =>
          bind (attachToParent storeyId targetBuildingId next) (fun next =>
          Ok (Obj.set next storeyId (with_parentId s (Some targetBuildingId)))))
      | None => Ok prev
      end
  | None => Ok prev
  end.

(** [getBuildingsOfSite]; [nodes] is the snapshot of the current render. *)
Definition getBuildingsOfSite (nodes : Nodes) (siteId : string)
    : result (list string) :=
  match Obj.get nodes siteId with
  | Some s =>
      Ok (filter (fun cid => match Obj.get nodes cid with
                             | Some c => NodeKind_eqb (kind c) Building
                             | None => false
                             end)
                 (children s))
  | None =>
      (* [s.children.filter] on an inherited function *)
      if memb prototypeNames siteId then Throw TypeError else Ok []
  end.

(** The updater that [ensureBuilding] queues when the site has no
    building; [bid] is the id that [uid("building")] returned. *)
Definition addBuildingTo (bid siteId : string) (prev : Nodes) : result Nodes :=
  let next := prev in
  let next := Obj.set next bid
                (plainNode bid Building "Building 0" (Some siteId) []) in
  match Obj.get next siteId with
  | Some s => Ok (Obj.set next siteId (with_children s (children s ++ [bid])))
  | None => Throw TypeError   (* [next[siteId].children] *)
  end.

(** [ensureBuilding]: the id it returns and the updater it queues, if
    any. *)
Definition ensureBuilding (bid : string) (nodes : Nodes) (siteId : string)
    : result (string * option (Nodes -> result Nodes)) :=
  bind (getBuildingsOfSite nodes siteId) (fun buildings =>
  match buildings with
  | b :: _ => Ok (b, None)
  | [] => Ok (bid, Some (addBuildingTo bid siteId))
  end).

(** [moveStoreyToSite], called in a render whose snapshot is [nodes]: the
    updaters it queues run in order, the first on [prev]. *)
Definition moveStoreyToSite (bid : string) (nodes : Nodes)
    (storeyId targetSiteId : string) (prev : Nodes) : result Nodes :=
  bind (ensureBuilding bid nodes targetSiteId) (fun r =>
  let '(targetBuildingId, queued) := r in
  bind (match queued with Some u => u prev | None => Ok prev end) (fun next =>
  moveStoreyToBuilding storeyId targetBuildingId next)).

(** [{ ...obj, parentId, ifcClass }] *)
Definition with_parent_class (n : TreeNode) (p : option string)
    (c : option string) : TreeNode :=
  mkNode (id n) (kind n) (name n) p (children n) c (tag n)
         (psets n) (docs n) (ifc n).

Definition moveObjectToGroup (objectId targetGroupId : string) (prev : Nodes)
    : Nodes :=
  let next := prev in
  match Obj.get next objectId with
  | Some obj =>
      if negb (NodeKind_eqb (kind obj) Object) then prev else
      match Obj.get next targetGroupId with
      | Some targetGroup =>
          if negb (NodeKind_eqb (kind targetGroup) ClassGroup) then prev else
          match parentId obj with
          | Some oldGroupId =>
              if negb (truthy oldGroupId) then prev else
              let next :=
                match Obj.get next oldGroupId with
                | Some oldGroup =>
                    if NodeKind_eqb (kind oldGroup) ClassGroup
                    then Obj.set next oldGroupId
                           (with_children oldGroup
                              (filter (notId objectId) (children oldGroup)))
                    else next
                | None => next
                end in
              let next :=
                Obj.set next targetGroupId
                  (with_children targetGroup (children targetGroup ++ [objectId])) in
              Obj.set next objectId
                (with_parent_class obj (Some targetGroupId) (ifcClass targetGroup))
          | None => prev
          end
      | None => prev
      end
  | None => prev
  end.

(** The pattern shared by [moveBuildingToSite] and [moveStoreyToBuilding],
    for stating their properties once. *)
Definition relocate (childKind parentKind : NodeKind)
    (childId targetId : string) (prev : Nodes) : result Nodes :=
  match Obj.get prev childId with
  | Some c =>
      if negb (NodeKind_eqb (kind c) childKind) then Ok prev else
      match Obj.get prev targetId with
      | Some t =>
          if negb (NodeKind_eqb (kind t) parentKind) then Ok prev else
          if sameId (parentId c) targetId then Ok prev else
          bind (detachFromParent childId (parentId c) prev) (fun next =>
          bind (attachToParent childId targetId next) (fun next =>
          Ok (Obj.set next childId (with_parentId c (Some targetId)))))
      | None => Ok prev
      end
  | None => Ok prev
  end.

(** The old parent id of [childId], when it is found only as a name of
    [Object.prototype]. *)
Definition parentInherited (childId : string) (prev : Nodes) : bool :=
  match Obj.get prev childId with
  | Some c =>
      match parentId c with
      | Some old => truthy old && inheritedAt prev old
      | None => false
      end
  | None => false
  end.

(** When a building or storey move goes through. *)
Definition canRelocate (childKind parentKind : NodeKind)
    (childId targetId : string) (prev : Nodes) : bool :=
  match Obj.get prev childId, Obj.get prev targetId with
  | Some c, Some t =>
      NodeKind_eqb (kind c) childKind && NodeKind_eqb (kind t) parentKind
      && negb (sameId (parentId c) targetId)
  | _, _ => false
  end.

(** What a building or storey move does when it goes through: the node
    gets the new [parentId], the target gets it as last child, the old
    parent (when it exists and is not the node itself) loses it, nothing
    else changes. *)
Definition relocated (childId targetId : string) (prev next : Nodes) : Prop :=
  exists c t,
    Obj.get prev childId = Some c /\ Obj.get prev targetId = Some t /\
    Obj.get next childId = Some (with_parentId c (Some targetId)) /\
    Obj.get next targetId = Some (with_children t (children t ++ [childId])) /\
    (forall old o, parentId c = Some old -> truthy old = true ->
       old <> childId -> Obj.get prev old = Some o ->
       Obj.get next old
       = Some (with_children o (filter (notId childId) (children o)))) /\
    (forall k, k <> childId -> k <> targetId -> parentId c <> Some k ->
       Obj.get next k = Obj.get prev k) /\
    Obj.keys next = Obj.keys prev.

(** When an object move goes through. *)
Definition canMoveObject (objectId targetGroupId : string) (prev : Nodes)
    : bool :=
  match Obj.get prev objectId, Obj.get prev targetGroupId with
  | Some obj, Some g =>
      NodeKind_eqb (kind obj) Object && NodeKind_eqb (kind g) ClassGroup
      && match parentId obj with Some old => truthy old | None => false end
  | _, _ => false
  end.

(** What an object move does when it goes through.  The old parent loses
    the object only if it is a ClassGroup other than the target. *)
Definition objectMoved (objectId targetGroupId : string) (prev next : Nodes)
    : Prop :=
  exists obj g old,
    Obj.get prev objectId = Some obj /\ Obj.get prev targetGroupId = Some g /\
    parentId obj = Some old /\
    Obj.get next objectId
    = Some (with_parent_class obj (Some targetGroupId) (ifcClass g)) /\
    Obj.get next targetGroupId
    = Some (with_children g (children g ++ [objectId])) /\
    (forall o, old <> targetGroupId -> Obj.get prev old = Some o ->
       kind o = ClassGroup ->
       Obj.get next old
       = Some (with_children o (filter (notId objectId) (children o)))) /\
    (forall o, old <> objectId -> Obj.get prev old = Some o ->
       kind o <> ClassGroup -> Obj.get next old = Some o) /\
    (forall k, k <> objectId -> k <> targetGroupId -> k <> old ->
       Obj.get next k = Obj.get prev k) /\
    Obj.keys next = Obj.keys prev.

(** Two sites, one building in the first. *)
Definition twoSites : Nodes :=
  [ ("root", plainNode "root" Root "Workspace" None ["project"]);
    ("project", plainNode "project" Project "IfcProject" (Some "root")
                  ["site_1"; "site_2"]);
    ("site_1", plainNode "site_1" Site "Site A" (Some "project") ["building_1"]);
    ("site_2", plainNode "site_2" Site "Site B" (Some "project") []);
    ("building_1", plainNode "building_1" Building "Building A" (Some "site_1")
                     []) ].

(** No node of kind Project, but a Site stored under the key ["project"]. *)
Definition fallbackOnly : Nodes :=
  [ ("project", plainNode "project" Site "Not a project" None []) ].

(** No node of kind Project; the node under the key ["project"] is a Storey
    with one object. *)
Definition sampleObject : TreeNode :=
  mkNode "o" Object "V-1" (Some "g") [] (Some "IfcValve") (Some "V-1") None
         None None.

Definition projectIsStorey : Nodes :=
  [ ("project", plainNode "project" Storey "Storey 0" None ["g"]);
    ("g", mkNode "g" ClassGroup "IfcValve" (Some "project") ["o"]
            (Some "IfcValve") None None None None);
    ("o", sampleObject) ].

(** A tree with an object under a reached storey and another under a
    detached storey. *)
Definition detachedObject : TreeNode :=
  mkNode "o2" Object "V-2" (Some "g2") [] (Some "IfcValve") None None None None.

Definition exportTree : Nodes :=
  [ ("root", plainNode "root" Root "Workspace" None ["p"]);
    ("p", plainNode "p" Project "P" (Some "root") ["s"]);
    ("s", plainNode "s" Site "S" (Some "p") ["b"]);
    ("b", plainNode "b" Building "B" (Some "s") ["st"]);
    ("st", plainNode "st" Storey "St" (Some "b") ["g"]);
    ("g", mkNode "g" ClassGroup "IfcValve" (Some "st") ["o"]
            (Some "IfcValve") None None None None);
    ("o", sampleObject);
    ("st2", plainNode "st2" Storey "Detached" None ["g2"]);
    ("g2", mkNode "g2" ClassGroup "IfcValve" (Some "st2") ["o2"]
             (Some "IfcValve") None None None None);
    ("o2", detachedObject) ].

Definition sampleRandom (k : nat) : list Z :=
  map (fun i => Z.of_nat (k * 16 + i)) (seq 0 16).

Definition missingProjectMessage : string :=
  "No Project node found (kind=Project or id='project').".

(** A building whose [parentId] is a name of [Object.prototype], and a
    site. *)
Definition inheritedParent : Nodes :=
  [ ("s", plainNode "s" Site "Site A" None []);
    ("b", plainNode "b" Building "Building A" (Some "constructor") []) ].

(** A storey in a building, and no site. *)
Definition noSite : Nodes :=
  [ ("b", plainNode "b" Building "Building A" None ["st"]);
    ("st", plainNode "st" Storey "Storey 0" (Some "b") []) ].

(** An Object without a parent next to a class group. *)
Definition orphanTree : Nodes :=
  [ ("g", mkNode "g" ClassGroup "IfcValve" None [] (Some "IfcValve") None None
            None None);
    ("o", mkNode "o" Object "V-1" None [] (Some "IfcPump") None None None None) ].

(** ** The identifier codec (exportIfc2x3.ts)

    Strings are sequences of code units below 256. *)

Definition base64Chars : string :=
  "0123456789ABCDEFGHIJKLMNOPQRSTUVWXYZabcdefghijklmnopqrstuvwxyz_$".

(** [chars[n] ?? "0"] *)
Definition toBase64Chars (n : Z) : string :=
  if (n <? 0)%Z then "0" else
  match String.get (Z.to_nat n) base64Chars with
  | Some c => String c ""
  | None => "0"
  end.

(** [uuid.replace(/-/g, "")] *)
Fixpoint removeDashes (s : string) : string :=
  match s with
  | "" => ""
  | String c r => if Ascii.eqb c "-" then removeDashes r
                  else String c (removeDashes r)
  end.

(** [s.slice(a, b)] for [0 <= a <= b] *)
Definition slice (s : string) (a b : nat) : string := substring a (b - a) s.

(** The white space that [parseInt] skips, among code units below 256. *)
Definition isStrWhiteSpace (c : ascii) : bool :=
  let n := nat_of_ascii c in
  Nat.eqb n 9 || Nat.eqb n 10 || Nat.eqb n 11 || Nat.eqb n 12
  || Nat.eqb n 13 || Nat.eqb n 32 || Nat.eqb n 160.

Fixpoint skipWhiteSpace (s : string) : string :=
  match s with
  | String c r => if isStrWhiteSpace c then skipWhiteSpace r else s
  | "" => ""
  end.

Definition hexVal (c : ascii) : option Z :=
  let n := nat_of_ascii c in
  if Nat.leb 48 n && Nat.leb n 57 then Some (Z.of_nat (n - 48))
  else if Nat.leb 65 n && Nat.leb n 70 then Some (Z.of_nat (n - 55))
  else if Nat.leb 97 n && Nat.leb n 102 then Some (Z.of_nat (n - 87))
  else None.

(** The value of the longest prefix of hex digits; [None] if it is empty. *)
Fixpoint hexPrefix (s : string) (acc : option Z) : option Z :=
  match s with
  | String c r =>
      match hexVal c with
      | Some d =>
          hexPrefix r (Some (16 * match acc with Some a => a | None => 0 end + d)%Z)
      | None => acc
      end
  | "" => acc
  end.

(** [parseInt(s, 16)]; [None] is NaN. *)
Definition parseInt16 (s : string) : option Z :=
  let s := skipWhiteSpace s in
  let '(sign, s) :=
    match s with
    | String c r =>
        if Ascii.eqb c "-" then ((-1)%Z, r)
        else if Ascii.eqb c "+" then (1%Z, r)
        else (1%Z, s)
    | "" => (1%Z, s)
    end in
  let s :=
    match s with
    | String c0 (String c1 r) =>
        if Ascii.eqb c0 "0" && (Ascii.eqb c1 "x" || Ascii.eqb c1 "X") then r else s
    | _ => s
    end in
  match hexPrefix s None with
  | Some v => Some (sign * v)%Z
  | None => None
  end.

(** Storing a number into a [Uint8Array]: NaN is stored as 0. *)
Definition toUint8 (v : option Z) : Z :=
  match v with Some z => (z mod 256)%Z | None => 0%Z end.

Definition ifcGuidFromUuid (uuid : string) : result string :=
  let hex := removeDashes uuid in
  if negb (Nat.eqb (String.length hex) 32)
  then Throw "UUID must be 32 hex chars"
  else
    let bytes :=
      map (fun i => toUint8 (parseInt16 (slice hex (i * 2) (i * 2 + 2))))
          (seq 0 16) in
    let num := fold_left (fun num b => (Z.shiftl num 8 + b)%Z) bytes 0%Z in
    let mask := 63%Z in
    Ok (fold_left
          (fun result i =>
             let shift := Z.of_nat ((21 - i) * 6) in
             let v := Z.land (Z.shiftr num shift) mask in
             (result ++ toBase64Chars v)%string)
          (seq 0 22) "").

Definition inAlphabet (c : ascii) : Prop :=
  exists n, String.get n base64Chars = Some c.

Fixpoint allChars (P : ascii -> Prop) (s : string) : Prop :=
  match s with
  | "" => True
  | String c r => P c /\ allChars P r
  end.

Definition nonHexUuid : string := "zzzzzzzz-zzzz-zzzz-zzzz-zzzzzzzzzzzz".

(** ** The pattern and tag engine (App.tsx)

    Counters, widths and counts are JavaScript numbers ([number]), printed
    by [numberToString]; [numToString] prints an integer.  Case mapping
    covers the letters a-z and A-Z, white space the code units below 256
    that [\s] and [trim] accept. *)

Definition numToString (n : Z) : string := NilZero.string_of_int (Z.to_int n).

Fixpoint zeros (n : nat) : string :=
  match n with 0 => "" | S k => String "0" (zeros k) end.

(** *** JavaScript numbers

    A number is an IEEE 754 binary64 value: [spec_float] with precision 53
    and exponents up to 1024, in canonical form (the form every operation
    returns). *)

Definition number : Type := spec_float.

Definition prec : Z := 53.
Definition emax : Z := 1024.

(** The number with the value of an integer, rounded to nearest, ties to
    even. *)
Definition ofZ (z : Z) : number := binary_normalize prec emax z 0 false.

(** [x + y] *)
Definition numAdd (x y : number) : number := SFadd prec emax x y.

(** [x < y] *)
Definition numLt (x y : number) : bool := SFltb x y.

(** [Number.isFinite(x)] *)
Definition isFinite (x : number) : bool :=
  match x with
  | S754_zero _ | S754_finite _ _ _ => true
  | _ => false
  end.

(** [x || y] on numbers: [0], [-0] and [NaN] are falsy. *)
Definition numOr (x y : number) : number :=
  match x with
  | S754_zero _ | S754_nan => y
  | _ => x
  end.

(** [Math.max(x, y)] *)
Definition mathMax (x y : number) : number :=
  match x, y with
  | S754_nan, _ | _, S754_nan => S754_nan
  | S754_zero sx, S754_zero sy => S754_zero (sx && sy)
  | _, _ => if SFltb x y then y else x
  end.

(** [Math.floor(x)] *)
Definition mathFloor (x : number) : number :=
  match x with
  | S754_finite s m e =>
      if (0 <=? e)%Z then x
      else
        let q := Z.shiftr (Zpos m) (- e) in
        if s then
          let c := if (Z.shiftl q (- e) =? Zpos m)%Z then q else (q + 1)%Z in
          binary_normalize prec emax (- c) 0 true
        else binary_normalize prec emax q 0 false
  | _ => x
  end.

(** The integer part of a finite number. *)
Definition truncate (x : number) : Z :=
  match x with
  | S754_finite s m e =>
      let a := if (0 <=? e)%Z then Z.shiftl (Zpos m) e
               else Z.shiftr (Zpos m) (- e) in
      if s then (- a)%Z else a
  | _ => 0%Z
  end.

(** [ToLength(x)] *)
Definition toLength (x : number) : Z :=
  match x with
  | S754_infinity false => (2 ^ 53 - 1)%Z
  | _ => Z.min (2 ^ 53 - 1) (Z.max 0 (truncate x))
  end.

(** **** [Number::toString]

    For a positive finite number [m * 2^e], step 5 of the algorithm asks
    for integers [n], [k], [s] with [10^(k-1) <= s < 10^k] such that
    [s * 10^(n-k)] rounds to the number and [k] is as small as possible;
    among these the digits closest to the number are taken, the even ones
    on a tie.  The values that round to [m * 2^e] are those between the
    midpoints to its two neighbours, the midpoints included when [m] is
    even.  Everything is counted in units of [2^(e-2)], as fractions over
    the denominator [den]: the number is [4 m], the upper midpoint
    [4 m + 2], the lower one [4 m - 2], or [4 m - 1] when the number is a
    power of two above the subnormal range (the neighbour below is then at
    half the distance). *)

Record Interval := mkInterval {
  iv_value : Z; iv_low : Z; iv_high : Z; iv_den : Z; iv_inclusive : bool
}.

Definition roundingInterval (m : positive) (e : Z) : Interval :=
  let up := if (2 <=? e)%Z then (2 ^ (e - 2))%Z else 1%Z in
  let den := if (2 <=? e)%Z then 1%Z else (2 ^ (2 - e))%Z in
  let closer := (Zpos m =? 2 ^ 52)%Z && (-1074 <? e)%Z in
  mkInterval (4 * Zpos m * up)
             ((4 * Zpos m - (if closer then 1 else 2)) * up)
             ((4 * Zpos m + 2) * up)
             den (Z.even (Zpos m)).

(** The least [n] with [value < 10^n], counting down from [n] while
    [value < 10^(n-1)]; [a / b] is [value / 10^(n-1)]. *)
Fixpoint magnitude (fuel : nat) (a b : Z) (n : Z) : Z :=
  match fuel with
  | 0 => n
  | S f => if (a <? b)%Z then magnitude f (10 * a)%Z b (n - 1)%Z else n
  end.

(** The multiple [s * 10^(n-k)] closest to the value, if one of them lies
    in the interval. *)
Definition digitsAt (iv : Interval) (n : Z) (k : Z) : option Z :=
  let p := (n - k)%Z in
  let up := if (0 <=? p)%Z then 1%Z else (10 ^ (- p))%Z in
  let q := if (0 <=? p)%Z then (iv_den iv * 10 ^ p)%Z else iv_den iv in
  let v := (iv_value iv * up)%Z in
  let lo := (iv_low iv * up)%Z in
  let hi := (iv_high iv * up)%Z in
  let s1 := (v / q)%Z in
  let s2 := if (v mod q =? 0)%Z then s1 else (s1 + 1)%Z in
  let inside s :=
    if iv_inclusive iv then (lo <=? s * q)%Z && (s * q <=? hi)%Z
    else (lo <? s * q)%Z && (s * q <? hi)%Z in
  match inside s1, inside s2 with
  | true, true =>
      let d1 := (v - s1 * q)%Z in
      let d2 := (s2 * q - v)%Z in
      if (d1 <? d2)%Z then Some s1
      else if (d2 <? d1)%Z then Some s2
      else if Z.even s1 then Some s1 else Some s2
  | true, false => Some s1
  | false, true => Some s2
  | false, false => None
  end.

(** The least [k] from [k] on for which there are such digits ([None]
    when [fuel] values of [k] have none; 17 digits tell any two numbers
    apart). *)
Fixpoint shortest (fuel : nat) (iv : Interval) (n : Z) (k : Z)
    : option (Z * Z) :=
  match fuel with
  | 0 => None
  | S f => match digitsAt iv n k with
           | Some s => Some (s, k)
           | None => shortest f iv n (k + 1)%Z
           end
  end.

(** [s] and [n] of step 5. *)
Definition decimalOf (m : positive) (e : Z) : Z * Z :=
  let iv := roundingInterval m e in
  let n := magnitude 640 (iv_value iv) (iv_den iv * 10 ^ 309)%Z 310%Z in
  match shortest 17 iv n 1%Z with
  | Some (s, k) => if (s =? 10 ^ k)%Z then (1%Z, (n + 1)%Z) else (s, n)
  | None => (0%Z, n)
  end.

(** Steps 6 to 10: the digits of [s] laid out for the exponent [n]. *)
Definition layout (s n : Z) : string :=
  let ds := numToString s in
  let k := Z.of_nat (String.length ds) in
  if (k <=? n)%Z && (n <=? 21)%Z then
    (ds ++ zeros (Z.to_nat (n - k)))%string
  else if (0 <? n)%Z && (n <=? 21)%Z then
    (substring 0 (Z.to_nat n) ds ++ "."
     ++ substring (Z.to_nat n) (Z.to_nat (k - n)) ds)%string
  else if (-6 <? n)%Z && (n <=? 0)%Z then
    ("0." ++ zeros (Z.to_nat (- n)) ++ ds)%string
  else
    let e := (n - 1)%Z in
    let sign := if (e <? 0)%Z then "-" else "+" in
    if (k =? 1)%Z then (ds ++ "e" ++ sign ++ numToString (Z.abs e))%string
    else (substring 0 1 ds ++ "." ++ substring 1 (Z.to_nat (k - 1)) ds
          ++ "e" ++ sign ++ numToString (Z.abs e))%string.

(** [String(x)] *)
Definition numberToString (x : number) : string :=
  match x with
  | S754_nan => "NaN"
  | S754_zero _ => "0"
  | S754_infinity s => if s then "-Infinity" else "Infinity"
  | S754_finite s m e =>
      let '(d, n) := decimalOf m e in
      ((if s then "-" else "") ++ layout d n)%string
  end.

(** The least integer that is not below a finite number. *)
Definition ceiling (x : number) : Z :=
  match x with
  | S754_finite s m e =>
      if (0 <=? e)%Z then truncate x
      else
        let q := Z.shiftr (Zpos m) (- e) in
        if s then (- q)%Z
        else if (Z.shiftl q (- e) =? Zpos m)%Z then q else (q + 1)%Z
  | _ => 0%Z
  end.

(** The number of turns of [for (let i = 0; i < count; i++)], if it ends:
    [i] counts up to [2^53] and stays there ([2^53 + 1] rounds to [2^53]),
    so the loop does not end for a larger [count]. *)
Definition loopTurns (count : number) : option nat :=
  match count with
  | S754_nan => Some 0
  | _ => if SFleb count (ofZ (2 ^ 53)) then Some (Z.to_nat (ceiling count))
         else None
  end.

Definition upperChar (c : ascii) : ascii :=
  let n := nat_of_ascii c in
  if Nat.leb 97 n && Nat.leb n 122 then ascii_of_nat (n - 32) else c.

Definition lowerChar (c : ascii) : ascii :=
  let n := nat_of_ascii c in
  if Nat.leb 65 n && Nat.leb n 90 then ascii_of_nat (n + 32) else c.

Fixpoint mapString (f : ascii -> ascii) (s : string) : string :=
  match s with
  | "" => ""
  | String c r => String (f c) (mapString f r)
  end.

Definition toUpperCase : string -> string := mapString upperChar.
Definition toLowerCase : string -> string := mapString lowerChar.

(** [s.includes(sub)] *)
Fixpoint includes (sub s : string) : bool :=
  String.prefix sub s
  || match s with String _ r => includes sub r | "" => false end.

(** [s.replace(/\s+/g, "")] *)
Fixpoint removeWhiteSpace (s : string) : string :=
  match s with
  | "" => ""
  | String c r => if isStrWhiteSpace c then removeWhiteSpace r
                  else String c (removeWhiteSpace r)
  end.

Fixpoint trimEnd (s : string) : string :=
  match s with
  | "" => ""
  | String c r =>
      let r' := trimEnd r in
      if (r' =? "") && isStrWhiteSpace c then "" else String c r'
  end.

Definition trim (s : string) : string := trimEnd (skipWhiteSpace s).

(** The replacement text of [String.prototype.replace] for a pattern
    without capture groups: [$$], [$&], [$`] and [$'] are expanded, any
    other [$] stands for itself. *)
Fixpoint getSubstitution (matched before after repl : string) : string :=
  match repl with
  | "" => ""
  | String d rest =>
      if Ascii.eqb d "$" then
        match rest with
        | String c r =>
            if Ascii.eqb c "$" then
              String "$" (getSubstitution matched before after r)
            else if Ascii.eqb c "&" then
              (matched ++ getSubstitution matched before after r)%string
            else if Ascii.eqb c "`" then
              (before ++ getSubstitution matched before after r)%string
            else if Ascii.eqb c "'" then
              (after ++ getSubstitution matched before after r)%string
            else String "$" (getSubstitution matched before after rest)
        | "" => "$"
        end
      else String d (getSubstitution matched before after rest)
  end.

(** [s.replace(re, repl)] for a global regular expression [re] given by
    [matcher]: the length of the match of [re] at the head of a string, if
    there is one.  [skip] counts the characters of the current match still
    to be passed over, [before] is the text already passed. *)
Fixpoint replaceFrom (matcher : string -> option nat) (repl : string)
    (s : string) (skip : nat) (before : string) : string :=
  match s with
  | "" => ""
  | String c r =>
      match skip with
      | S k => replaceFrom matcher repl r k (before ++ String c "")%string
      | 0 =>
          match matcher s with
          | Some (S len) =>
              (getSubstitution (substring 0 (S len) s) before
                 (substring (S len) (String.length s - S len) s) repl
               ++ replaceFrom matcher repl r len (before ++ String c ""))%string
          | _ => String c (replaceFrom matcher repl r 0 (before ++ String c "")%string)
          end
      end
  end.

Definition replaceAll (matcher : string -> option nat) (repl s : string)
    : string :=
  replaceFrom matcher repl s 0 "".

(** A regular expression that is a literal text, such as [/\{CLASS\}/]. *)
Definition literal (pat s : string) : option nat :=
  if String.prefix pat s then Some (String.length pat) else None.

Definition isDigit (c : ascii) : bool :=
  let n := nat_of_ascii c in Nat.leb 48 n && Nat.leb n 57.

(** The digits at the head of a string. *)
Fixpoint takeDigits (s : string) : string :=
  match s with
  | String c r => if isDigit c then String c (takeDigits r) else ""
  | "" => ""
  end.

(** [/\{N(?::(\d+))?\}/] at the head of a string: the length of the match
    and the digits of the group, if it took part. *)
Definition matchNToken (s : string) : option (nat * option string) :=
  if String.prefix "{N}" s then Some (3, None)
  else if String.prefix "{N:" s then
    let ds := takeDigits (substring 3 (String.length s - 3) s) in
    let n := String.length ds in
    if negb (Nat.eqb n 0)
       && String.prefix "}" (substring (3 + n) (String.length s - (3 + n)) s)
    then Some (3 + n + 1, Some ds)
    else None
  else None.

Definition nToken (s : string) : option nat :=
  match matchNToken s with Some (len, _) => Some len | None => None end.

(** The value of a string of digits; [Number(ds)] is the nearest number,
    [ofZ (digitsValue ds 0)]. *)
Fixpoint digitsValue (ds : string) (acc : Z) : Z :=
  match ds with
  | String c r => digitsValue r (10 * acc + Z.of_nat (nat_of_ascii c - 48))%Z
  | "" => acc
  end.

(** [pattern.match(/\{N(?::(\d+))?\}/)]: the first match. *)
Fixpoint firstNToken (s : string) : option (option string) :=
  match matchNToken s with
  | Some (_, g) => Some g
  | None => match s with String _ r => firstNToken r | "" => None end
  end.

Definition parseNWidth (pattern : string) : number :=
  let w := match firstNToken pattern with
           | Some (Some ds) => if truthy ds then ofZ (digitsValue ds 0)
                               else ofZ 0
           | _ => ofZ 0
           end in
  if isFinite w then w else ofZ 0.

(** [s.padStart(w, "0")] *)
Definition padStart (s : string) (w : nat) : string :=
  (zeros (w - String.length s) ++ s)%string.

Definition pad (num width : number) : string :=
  let w := mathMax (ofZ 1) width in
  padStart (numberToString num) (Z.to_nat (toLength w)).

Record TokenMap := mkTokenMap {
  CLASS : string; SITE : string; BLDG : string; STRY : string; CUSTOM : string
}.

Definition applyPattern (pattern : string) (tokenMap : TokenMap)
    (nValue : number) : string :=
  let out := pattern in
  let out := replaceAll (literal "{CLASS}") (CLASS tokenMap) out in
  let out := replaceAll (literal "{SITE}") (SITE tokenMap) out in
  let out := replaceAll (literal "{BLDG}") (BLDG tokenMap) out in
  let out := replaceAll (literal "{STRY}") (STRY tokenMap) out in
  let out := replaceAll (literal "{CUSTOM}") (CUSTOM tokenMap) out in
  let width := parseNWidth pattern in
  let nStr := if numLt (ofZ 0) width then pad nValue width
              else numberToString nValue in
  replaceAll nToken nStr out.

(** [c.replace(/^Ifc/i, "")] *)
Definition stripIfc (c : string) : string :=
  if toLowerCase (substring 0 3 c) =? "ifc"
  then substring 3 (String.length c - 3) c else c.

Definition normalizeClassShort (ifcClass : option string) : string :=
  let c := stripIfc (match ifcClass with
                     | Some c => c
                     | None => "IfcBuildingElementProxy"
                     end) in
  if includes "pump" (toLowerCase c) then "PUMP"
  else if includes "valve" (toLowerCase c) then "VALVE"
  else if includes "tank" (toLowerCase c) then "TANK"
  else if includes "pipe" (toLowerCase c) then "PIPE"
  else if includes "proxy" (toLowerCase c) then "PROXY"
  else toUpperCase c.

(** [{ ...n, tag }] *)
Definition with_tag (n : TreeNode) (t : option string) : TreeNode :=
  mkNode (id n) (kind n) (name n) (parentId n) (children n) (ifcClass n) t
         (psets n) (docs n) (ifc n).

(** [existingTagsSet]: a [Set<string>], used for membership only. *)
Definition existingTagsSet (nodes : Nodes) : list string :=
  fold_left
    (fun s n =>
       match tag n with
       | Some t => if NodeKind_eqb (kind n) Object && truthy t then s ++ [t]
                   else s
       | None => s
       end)
    (Obj.values nodes) [].

(** What [nodes[k]] gives to code that reads [name], [parentId] and
    [ifcClass]: a node, or the value inherited under a name of
    [Object.prototype]. *)
Inductive Found :=
| FoundNode (n : TreeNode)
| FoundInherited (k : string).

Definition lookup (nodes : Nodes) (k : string) : option Found :=
  match Obj.get nodes k with
  | Some n => Some (FoundNode n)
  | None => if memb prototypeNames k then Some (FoundInherited k) else None
  end.

(** The [name] of an inherited value: a function has its own name, the
    constructor is [Object], and the prototype object has none. *)
Definition inheritedName (k : string) : option string :=
  if k =? "constructor" then Some "Object"
  else if k =? "__proto__" then None
  else Some k.

(** [x?.parentId ? nodes[x.parentId] : undefined] *)
Definition parentOf (nodes : Nodes) (x : option Found) : option Found :=
  match x with
  | Some (FoundNode n) =>
      match parentId n with
      | Some p => if truthy p then lookup nodes p else None
      | None => None
      end
  | _ => None
  end.

(** [x?.name ?? dflt] *)
Definition nameOr (x : option Found) (dflt : string) : string :=
  match x with
  | Some (FoundNode n) => name n
  | Some (FoundInherited k) =>
      match inheritedName k with Some s => s | None => dflt end
  | None => dflt
  end.

Definition buildTokenMapForObject (nodes : Nodes) (tagCustom : string)
    (oid : string) : TokenMap :=
  let obj := lookup nodes oid in
  let group := parentOf nodes obj in
  let storey := parentOf nodes group in
  let building := parentOf nodes storey in
  let site := parentOf nodes building in
  let cls := normalizeClassShort
               (match obj with
                | Some (FoundNode o) => ifcClass o
                | _ => None
                end) in
  mkTokenMap cls
    (removeWhiteSpace (nameOr site "SITE"))
    (removeWhiteSpace (nameOr building "BLDG"))
    (removeWhiteSpace (nameOr storey "STRY"))
    (removeWhiteSpace tagCustom).

Inductive CounterMode := GlobalMode | PerClassMode.

Record TagCounters := mkCounters {
  globalCounter : number;
  classCounters : Obj.t number
}.

Definition nextNumberFor (mode : CounterMode) (start step : number)
    (cls : string) (st : TagCounters) : number * TagCounters :=
  match mode with
  | GlobalMode =>
      let n := globalCounter st in
      (n, mkCounters (numAdd (globalCounter st) step) (classCounters st))
  | PerClassMode =>
      let cur := match Obj.get (classCounters st) cls with
                 | Some c => c
                 | None => start
                 end in
      (cur, mkCounters (globalCounter st)
              (Obj.set (classCounters st) cls (numAdd cur step)))
  end.

(** The loop [while (used.has(candidate)) { ... }] of [bulkApplyTags], run
    for at most [fuel] turns; [None] when the condition still holds after
    [fuel] turns.  The source has no such limit. *)
Fixpoint bulkRetry (fuel : nat) (mode : CounterMode) (start step : number)
    (pattern : string) (tokenMap : TokenMap) (cls : string)
    (used : list string) (st : TagCounters) (candidate : string)
    : option (TagCounters * string) :=
  if memb used candidate then
    match fuel with
    | 0 => None
    | S f =>
        let '(num, st') := nextNumberFor mode start step cls st in
        bulkRetry f mode start step pattern tokenMap cls used st'
                  (applyPattern pattern tokenMap num)
    end
  else Some (st, candidate).

Section BulkApplyTags.
Variables (fuel : nat) (tagCounterMode : CounterMode) (tagCustom : string)
          (tagSkipExisting : bool) (nodes : Nodes).
Variables (pattern : string) (start step : number).

(** One call of the [ids.forEach] callback. *)
Definition bulkApplyTagsItem
    (acc : option (TagCounters * list string * Nodes)) (oid : string)
    : option (TagCounters * list string * Nodes) :=
  match acc with
  | None => None
  | Some (st, used, next) =>
      match Obj.get next oid with
      | Some n =>
          if negb (NodeKind_eqb (kind n) Object) then acc else
          let tokenMap := buildTokenMapForObject nodes tagCustom oid in
          let cls := CLASS tokenMap in
          let '(num, st) := nextNumberFor tagCounterMode start step cls st in
          let candidate := applyPattern pattern tokenMap num in
          if tagSkipExisting then
            match bulkRetry fuel tagCounterMode start step pattern tokenMap cls
                            used st candidate with
            | Some (st, candidate) =>
                Some (st, used ++ [candidate],
                      Obj.set next oid (with_tag n (Some candidate)))
            | None => None
            end
          else Some (st, used, Obj.set next oid (with_tag n (Some candidate)))
      | None => acc
      end
  end.
End BulkApplyTags.

(** [bulkApplyTags] as a function of the component state it reads and the
    snapshot [prev] handed to its updater; the result is the next
    snapshot. *)
Definition bulkApplyTags (fuel : nat) (selectedObjectIds : list string)
    (tagPattern : string) (tagStart tagStep : number) (tagSkipExisting : bool)
    (tagCounterMode : CounterMode) (tagCustom : string) (nodes prev : Nodes)
    : option Nodes :=
  let ids := selectedObjectIds in
  if Nat.eqb (length ids) 0 then Some prev else
  let pattern := trim tagPattern in
  if negb (truthy pattern) then Some prev else
  let start := if isFinite tagStart then tagStart else ofZ 1 in
  let step := if isFinite tagStep then tagStep else ofZ 1 in
  let used := if tagSkipExisting then existingTagsSet nodes else [] in
  match fold_left
          (bulkApplyTagsItem fuel tagCounterMode tagCustom tagSkipExisting nodes
                             pattern start step)
          ids (Some (mkCounters start [], used, prev)) with
  | Some (_, _, next) => Some next
  | None => None
  end.

(** The loop [while (tagSkipExisting && used.has(candidate)) { ... }] of the
    batch branch of [createObject], with the same convention for [fuel]. *)
Fixpoint batchRetry (fuel : nat) (step : number) (pattern : string)
    (tokenMap : TokenMap) (tagSkipExisting : bool) (used : list string)
    (nCounter : number) (candidate : string) : option (number * string) :=
  if tagSkipExisting && memb used candidate then
    match fuel with
    | 0 => None
    | S f =>
        let nCounter := numAdd nCounter step in
        batchRetry f step pattern tokenMap tagSkipExisting used nCounter
                   (applyPattern pattern tokenMap nCounter)
    end
  else Some (nCounter, candidate).

(** The batch branch of [createObject]: the updater passed to [setNodes].
    [uid i] is the id that the [i]-th call of [uid("obj")] returns (random
    in the source); [sid], [bid], [stid] and [gid] are the resolved site,
    building, storey and class group.  The result is [None] when a retry
    loop is still running after [fuel] turns, or when the loop over [i]
    does not end. *)
Section CreateObject.
Variable uid : nat -> string.
Variables (fuel : nat) (ifcClass gid sid bid stid : string).
Variables (batchCount : number) (batchNamePattern : string)
          (batchGenerateTags : bool) (batchTagPattern : string)
          (batchTagStart batchTagStep : number) (tagSkipExisting : bool)
          (tagCustom : string) (nodes : Nodes).

Definition replN (pattern : string) (n : number) : string :=
  replaceAll (literal "{N}") (numberToString n) pattern.

Record BatchState := mkBatch {
  bs_next : Nodes;
  bs_nCounter : number;
  bs_used : list string;
  bs_createdIds : list string
}.

(** One turn of [for (let i = 0; i < count; i++)]. *)
Definition createObjectItem (step : number) (prev : Nodes)
    (acc : option BatchState) (i : nat) : option BatchState :=
  match acc with
  | None => None
  | Some (mkBatch next nCounter used createdIds) =>
      let id := uid i in
      let i1 := ofZ (Z.of_nat (i + 1)) in
      let name :=
        let t := trim (replN batchNamePattern i1) in
        if truthy t then t else ("Object " ++ numberToString i1)%string in
      let tagged :=
        if batchGenerateTags then
          let tokenMap :=
            mkTokenMap (normalizeClassShort (Some ifcClass))
              (removeWhiteSpace (nameOr (lookup prev sid) "SITE"))
              (removeWhiteSpace (nameOr (lookup prev bid) "BLDG"))
              (removeWhiteSpace (nameOr (lookup prev stid) "STRY"))
              (removeWhiteSpace tagCustom) in
          let candidate := applyPattern batchTagPattern tokenMap nCounter in
          match batchRetry fuel step batchTagPattern tokenMap
                           tagSkipExisting used nCounter candidate with
          | Some (nCounter, candidate) =>
              Some (Some candidate, numAdd nCounter step,
                    used ++ [candidate])
          | None => None
          end
        else Some (None, nCounter, used) in
      match tagged with
      | Some (tag, nCounter, used) =>
          let node :=
            mkNode id Object name (Some gid) [] (Some ifcClass) tag
                   (Some [mkPset "Pset_AssetCustom" []]) None None in
          Some (mkBatch (Obj.set next id node) nCounter used (createdIds ++ [id]))
      | None => None
      end
  end.

Definition createObjectBatch (prev : Nodes) : option Nodes :=
  let count := mathMax (ofZ 1) (mathFloor (numOr batchCount (ofZ 1))) in
  let baseStart := if isFinite batchTagStart then batchTagStart else ofZ 1 in
  let step := if isFinite batchTagStep then batchTagStep else ofZ 1 in
  let used := if tagSkipExisting then existingTagsSet nodes else [] in
  let next := prev in
  let group := Obj.get next gid in
  match loopTurns count with
  | Some turns =>
      match fold_left (createObjectItem step prev) (seq 0 turns)
                      (Some (mkBatch next baseStart used [])) with
      | Some (mkBatch next _ _ createdIds) =>
          match group with
          | Some g =>
              if NodeKind_eqb (kind g) ClassGroup
              then Some (Obj.set next gid
                           (with_children g (children g ++ createdIds)))
              else Some next
          | None => Some next
          end
      | None => None
      end
  | None => None
  end.
End CreateObject.

(** The counter after [j] turns of [nCounter += step]. *)
Fixpoint advance (step : number) (j : nat) (n : number) : number :=
  match j with
  | 0 => n
  | S j' => advance step j' (numAdd n step)
  end.

(** The labels tried by a retry loop. *)
Definition candidateAt (pattern : string) (tokenMap : TokenMap)
    (n step : number) (j : nat) : string :=
  applyPattern pattern tokenMap (advance step j n).

(** The number that [nextNumberFor] hands out next. *)
Definition peekNumber (mode : CounterMode) (start : number) (cls : string)
    (st : TagCounters) : number :=
  fst (nextNumberFor mode start (ofZ 0) cls st).

(** A selection of one tagged object, for the tag engine. *)
Definition taggedTree : Nodes :=
  [ ("root", plainNode "root" Root "Workspace" None []);
    ("o1", mkNode "o1" Object "Pump 1" None [] (Some "IfcPump") (Some "TAG")
             None None None) ].

Definition sampleTokens : TokenMap := mkTokenMap "PUMP" "SiteA" "B1" "S0" "X".

Definition sampleUid (i : nat) : string :=
  ("obj_" ++ numToString (Z.of_nat i))%string.

(** ** The exporter (exportIfc2x3.ts)

    A line [#id=TEXT;] of the document is kept as its number and its
    record: the name of the template and the values interpolated into it,
    in the order of the template.  Rendering a record to text ([s],
    [ifcValue], the header and footer) and the download of the text in the
    browser are not part of the model. *)

(** [uuidv4]: [rnd] are the 16 values that [getRandomValues] stored. *)
Definition hexDigit (d : Z) : ascii :=
  match String.get (Z.to_nat d) "0123456789abcdef" with
  | Some c => c
  | None => "0"%char
  end.

(** [b.toString(16).padStart(2, "0")] for a byte [b] *)
Definition byteHex (b : Z) : string :=
  String (hexDigit (b / 16)) (String (hexDigit (b mod 16)) "").

Fixpoint setNth {A} (l : list A) (i : nat) (v : A) : list A :=
  match l, i with
  | [], _ => []
  | _ :: l', 0 => v :: l'
  | x :: l', S i' => x :: setNth l' i' v
  end.

Definition uuidv4 (rnd : list Z) : string :=
  let buf := map (fun i => toUint8 (Some (nth i rnd 0%Z))) (seq 0 16) in
  let buf := setNth buf 6 (Z.lor (Z.land (nth 6 buf 0) 15) 64)%Z in
  let buf := setNth buf 8 (Z.lor (Z.land (nth 8 buf 0) 63) 128)%Z in
  let hex := String.concat "" (map byteHex buf) in
  (slice hex 0 8 ++ "-" ++ slice hex 8 12 ++ "-" ++ slice hex 12 16 ++ "-"
   ++ slice hex 16 20 ++ "-" ++ slice hex 20 (String.length hex))%string.

Inductive Entity :=
| IFCOWNERHISTORY (nowEpoch : Z)
| IFCCARTESIANPOINT
| IFCAXIS2PLACEMENT3D (point : nat)
  (** [relativeTo]: [None] is [$]; [Some r] is [#r], where [r] is what
      [nodeToIfcId.get] returned *)
| IFCLOCALPLACEMENT (relativeTo : option (option nat)) (axis : nat)
| IFCGEOMETRICREPRESENTATIONCONTEXT (axis : nat)
| IFCSIUNIT
| IFCUNITASSIGNMENT (unit : nat)
| IFCPROJECT (guid : string) (ownerHistory : nat) (name : string)
             (context units : nat)
| IFCSITE (guid : string) (ownerHistory : nat) (name : string) (placement : nat)
| IFCBUILDING (guid : string) (ownerHistory : nat) (name : string)
              (placement : nat)
| IFCBUILDINGSTOREY (guid : string) (ownerHistory : nat) (name : string)
                    (placement : nat)
| IFCRELAGGREGATES (guid : string) (ownerHistory : nat) (parent : nat)
                   (childrenIfc : list nat)
  (** [emitElement]: the record named [entity] for the node [obj] *)
| IFCELEMENT (entity : string) (guid : string) (ownerHistory : nat)
             (obj : TreeNode) (placementRef : nat)
| IFCPROPERTYSINGLEVALUE (key value : string)
| IFCPROPERTYSET (guid : string) (ownerHistory : nat) (name : string)
                 (propIds : list nat)
| IFCRELDEFINESBYPROPERTIES (guid : string) (ownerHistory : nat)
                            (element pset : nat)
| IFCRELCONTAINEDINSPATIALSTRUCTURE (guid : string) (ownerHistory : nat)
                                    (elements : list nat) (storey : nat).

Definition Line := (nat * Entity)%type.

(** The state of an export: the [IfcWriter], the map [nodeToIfcId], and
    how many uuids have been drawn. *)
Record ExportState := mkExport {
  nextId : nat;
  lines : list Line;
  nodeToIfcId : Obj.t nat;
  guidCalls : nat
}.

Definition W (A : Type) := ExportState -> result (A * ExportState).

Definition ret {A} (a : A) : W A := fun w => Ok (a, w).

Definition bindW {A B} (m : W A) (f : A -> W B) : W B :=
  fun w => match m w with
           | Ok (a, w') => f a w'
           | Throw msg => Throw msg
           end.

Notation "x <- m ;; k" := (bindW m (fun x => k))
  (at level 61, m at next level, right associativity).
Notation "m ;;; k" := (bindW m (fun _ => k))
  (at level 61, right associativity).

Fixpoint mapW {A B} (f : A -> W B) (l : list A) : W (list B) :=
  match l with
  | [] => ret []
  | x :: l' => y <- f x ;; ys <- mapW f l' ;; ret (y :: ys)
  end.

Fixpoint forW {A} (f : A -> W unit) (l : list A) : W unit :=
  match l with
  | [] => ret tt
  | x :: l' => f x ;;; forW f l'
  end.

(** [w.add(text)] *)
Definition add (e : Entity) : W nat :=
  fun w => Ok (nextId w,
               mkExport (S (nextId w)) (lines w ++ [(nextId w, e)])
                        (nodeToIfcId w) (guidCalls w)).

(** [nodeToIfcId.set(k, v)] and [nodeToIfcId.get(k)] *)
Definition setIfcId (k : string) (v : nat) : W unit :=
  fun w => Ok (tt, mkExport (nextId w) (lines w)
                            (Obj.set (nodeToIfcId w) k v) (guidCalls w)).

Definition getIfcId (k : string) : W (option nat) :=
  fun w => Ok (Obj.get (nodeToIfcId w) k, w).

Definition IFC2X3_SAFE_ENTITIES : list string :=
  [ "IFCBUILDINGELEMENTPROXY"; "IFCVALVE"; "IFCPUMP"; "IFCTANK";
    "IFCPIPESEGMENT"; "IFCPIPEFITTING"; "IFCFLOWMETER"; "IFCACTUATOR";
    "IFCSENSOR"; "IFCCABLECARRIERSEGMENT" ].

Definition normalizeEntityName (ifcClass : option string) : string :=
  let raw := trim (match ifcClass with Some c => c | None => "" end) in
  if negb (truthy raw) then "IFCBUILDINGELEMENTPROXY" else
  let ent := toUpperCase raw in
  if negb (String.prefix "IFC" ent) then "IFCBUILDINGELEMENTPROXY" else
  if memb IFC2X3_SAFE_ENTITIES ent then ent else "IFCBUILDINGELEMENTPROXY".

(** [ids.map((id) => nodes[id]).filter(Boolean).filter((n) => n.kind === k)] *)
Definition childrenOfKind (nodes : Nodes) (k : NodeKind) (ids : list string)
    : list TreeNode :=
  filter (fun n => NodeKind_eqb (kind n) k)
    (flat_map (fun i => match Obj.get nodes i with
                        | Some n => [n]
                        | None => []
                        end) ids).

Definition getObjectsUnderStorey (nodes : Nodes) (storeyNode : TreeNode)
    : list TreeNode :=
  flat_map
    (fun cgId =>
       match Obj.get nodes cgId with
       | Some cg =>
           if NodeKind_eqb (kind cg) ClassGroup
           then childrenOfKind nodes Object (children cg)
           else []
       | None => []
       end)
    (children storeyNode).

(** [Object.values(nodes).find((n) => n.kind === "Project") ?? nodes["project"]] *)
Definition selectProject (nodes : Nodes) : option TreeNode :=
  match find isProject (Obj.values nodes) with
  | Some p => Some p
  | None => Obj.get nodes "project"
  end.

Section ExportFn.
(** [randomValues k]: the bytes of the [k]-th call of [getRandomValues];
    [nowEpoch]: [Math.floor(Date.now() / 1000)]. *)
Variable randomValues : nat -> list Z.
Variable nowEpoch : Z.

Definition ifcGuid : W string :=
  fun w =>
    match ifcGuidFromUuid (uuidv4 (randomValues (guidCalls w))) with
    | Ok g => Ok (g, mkExport (nextId w) (lines w) (nodeToIfcId w)
                              (S (guidCalls w)))
    | Throw msg => Throw msg
    end.

Section WithOwner.
Variable nodes : Nodes.
Variable ownerHistory : nat.

Definition nonBlankKey (e : string * string) : bool :=
  negb (Nat.eqb (String.length (trim (fst e))) 0).

Definition addPset (elementIfcId : nat) (pset : Pset) : W unit :=
  let psetName := trim (pset_name pset) in
  if negb (truthy psetName) then ret tt else
  let entries := filter nonBlankKey (props pset) in
  if Nat.eqb (length entries) 0 then ret tt else
  propIds <- mapW (fun e => add (IFCPROPERTYSINGLEVALUE (fst e) (snd e)))
                  entries ;;
  g <- ifcGuid ;;
  psetId <- add (IFCPROPERTYSET g ownerHistory psetName propIds) ;;
  g <- ifcGuid ;;
  add (IFCRELDEFINESBYPROPERTIES g ownerHistory elementIfcId psetId) ;;;
  ret tt.

Definition addPsetsForElement (elementIfcId : nat) (obj : TreeNode) : W unit :=
  let psets := match psets obj with Some l => l | None => [] end in
  if Nat.eqb (length psets) 0 then ret tt else
  forW (addPset elementIfcId) psets.

Definition createLocalPlacement (relativeTo : option nat) : W nat :=
  p <- add IFCCARTESIANPOINT ;;
  ax <- add (IFCAXIS2PLACEMENT3D p) ;;
  add (IFCLOCALPLACEMENT (Some relativeTo) ax).

Definition createSite (node : TreeNode) (parentPlacement : option nat) : W nat :=
  placement <- createLocalPlacement parentPlacement ;;
  g <- ifcGuid ;;
  siteId <- add (IFCSITE g ownerHistory (name node) placement) ;;
  setIfcId (id node) siteId ;;;
  ret siteId.

Definition createBuilding (node : TreeNode) (parentPlacement : option nat)
    : W nat :=
  placement <- createLocalPlacement parentPlacement ;;
  g <- ifcGuid ;;
  bldgId <- add (IFCBUILDING g ownerHistory (name node) placement) ;;
  setIfcId (id node) bldgId ;;;
  ret bldgId.

Definition createStorey (node : TreeNode) (parentPlacement : option nat)
    : W nat :=
  placement <- createLocalPlacement parentPlacement ;;
  g <- ifcGuid ;;
  stId <- add (IFCBUILDINGSTOREY g ownerHistory (name node) placement) ;;
  setIfcId (id node) stId ;;;
  ret stId.

Definition createRelAggregates (parentIfc : nat) (childrenIfc : list nat)
    : W unit :=
  if Nat.eqb (length childrenIfc) 0 then ret tt else
  g <- ifcGuid ;;
  add (IFCRELAGGREGATES g ownerHistory parentIfc childrenIfc) ;;;
  ret tt.

(** The body of [for (const bNode of buildingNodes)] *)
Definition exportBuilding (sNode bNode : TreeNode) : W nat :=
  parent <- getIfcId (id sNode) ;;
  ifcBldg <- createBuilding bNode parent ;;
  let storeyNodes := childrenOfKind nodes Storey (children bNode) in
  ifcStoreys <- mapW (fun stNode =>
                        parent <- getIfcId (id bNode) ;;
                        createStorey stNode parent)
                     storeyNodes ;;
  createRelAggregates ifcBldg ifcStoreys ;;;
  ret ifcBldg.

(** The body of [for (const sNode of siteNodes)] *)
Definition exportSite (worldPlacement : nat) (sNode : TreeNode) : W nat :=
  ifcSite <- createSite sNode (Some worldPlacement) ;;
  let buildingNodes := childrenOfKind nodes Building (children sNode) in
  ifcBuildings <- mapW (exportBuilding sNode) buildingNodes ;;
  createRelAggregates ifcSite ifcBuildings ;;;
  ret ifcSite.

Definition emitElement (entity : string) (obj : TreeNode) (placementRef : nat)
    : W nat :=
  g <- ifcGuid ;;
  add (IFCELEMENT entity g ownerHistory obj placementRef).

(** The body of [for (const obj of objs)] *)
Definition exportObject (ifcStorey : nat) (obj : TreeNode) : W nat :=
  placement <- createLocalPlacement (Some ifcStorey) ;;
  let entity := normalizeEntityName (ifcClass obj) in
  el <- emitElement entity obj placement ;;
  addPsetsForElement el obj ;;;
  ret el.

(** The body of [for (const stNode of storeyNodesAll)] *)
Definition exportStoreyElements (stNode : TreeNode) : W unit :=
  found <- getIfcId (id stNode) ;;
  match found with
  | Some ifcStorey =>
      if Nat.eqb ifcStorey 0 then ret tt else
      let objs := getObjectsUnderStorey nodes stNode in
      if Nat.eqb (length objs) 0 then ret tt else
      elementIfcIds <- mapW (exportObject ifcStorey) objs ;;
      g <- ifcGuid ;;
      add (IFCRELCONTAINEDINSPATIALSTRUCTURE g ownerHistory elementIfcIds
                                             ifcStorey) ;;;
      ret tt
  | None => ret tt
  end.
End WithOwner.

Definition exportBody (nodes : Nodes) (project : TreeNode) : W unit :=
  ownerHistory <- add (IFCOWNERHISTORY nowEpoch) ;;
  originPoint <- add IFCCARTESIANPOINT ;;
  axis2p3d <- add (IFCAXIS2PLACEMENT3D originPoint) ;;
  worldPlacement <- add (IFCLOCALPLACEMENT None axis2p3d) ;;
  context <- add (IFCGEOMETRICREPRESENTATIONCONTEXT axis2p3d) ;;
  lengthUnit <- add IFCSIUNIT ;;
  units <- add (IFCUNITASSIGNMENT lengthUnit) ;;
  g <- ifcGuid ;;
  ifcProject <- add (IFCPROJECT g ownerHistory (name project) context units) ;;
  setIfcId (id project) ifcProject ;;;
  (* Spatial structure *)
  let siteNodes := childrenOfKind nodes Site (children project) in
  ifcSites <- mapW (exportSite nodes ownerHistory worldPlacement) siteNodes ;;
  createRelAggregates ownerHistory ifcProject ifcSites ;;;
  (* Elements *)
  let storeyNodesAll :=
    filter (fun n => NodeKind_eqb (kind n) Storey) (Obj.values nodes) in
  forW (exportStoreyElements nodes ownerHistory) storeyNodesAll.

Definition emptyExport : ExportState := mkExport 1 [] [] 0.

(** The body of the document that [exportIfc2x3FromTree] returns, or the
    error it throws. *)
Definition exportIfc2x3FromTree (nodes : Nodes) : result (list Line) :=
  match selectProject nodes with
  | None => Throw "No Project node found (kind=Project or id='project')."
  | Some project =>
      match exportBody nodes project emptyExport with
      | Ok (_, w) => Ok (lines w)
      | Throw msg => Throw msg
      end
  end.
End ExportFn.

Definition noDash (s : string) : Prop := allChars (fun c => c <> "-"%char) s.

(** *** Vocabulary for the exporter's properties *)

Definition hasProjectKind (nodes : Nodes) : bool :=
  existsb isProject (Obj.values nodes).

Definition isElement (e : Entity) : bool :=
  match e with IFCELEMENT _ _ _ _ _ => true | _ => false end.

(** The nodes that the spatial walk visits below a project. *)
Definition siteOf (nodes : Nodes) (p s : TreeNode) : Prop :=
  In s (childrenOfKind nodes Site (children p)).
Definition buildingOf (nodes : Nodes) (s b : TreeNode) : Prop :=
  In b (childrenOfKind nodes Building (children s)).
Definition storeyOf (nodes : Nodes) (b st : TreeNode) : Prop :=
  In st (childrenOfKind nodes Storey (children b)).

(** [st] is reached as Project -> Site -> Building -> Storey. *)
Definition reachedStorey (nodes : Nodes) (project st : TreeNode) : Prop :=
  exists s b, siteOf nodes project s /\ buildingOf nodes s b /\
              storeyOf nodes b st.

(** The keys that the walk may put into [nodeToIfcId]. *)
Definition keysOfBuilding (nodes : Nodes) (b : TreeNode) (k : string) : Prop :=
  k = id b \/ exists st, storeyOf nodes b st /\ k = id st.
Definition keysOfSite (nodes : Nodes) (s : TreeNode) (k : string) : Prop :=
  k = id s \/ exists b, buildingOf nodes s b /\ keysOfBuilding nodes b k.
Definition keysOfProject (nodes : Nodes) (p : TreeNode) (k : string) : Prop :=
  k = id p \/ exists s, siteOf nodes p s /\ keysOfSite nodes s k.

(** A monadic step, started in a state that satisfies [I], runs without
    throwing, relates the states by [R] and keeps [I]. *)
Definition does {A} (I : ExportState -> Prop)
    (R : ExportState -> ExportState -> Prop) (m : W A) : Prop :=
  forall w, I w -> exists a w', m w = Ok (a, w') /\ R w w' /\ I w'.

Definition anyState (w : ExportState) : Prop := True.

(** The new lines all satisfy [P]. *)
Definition RLines (P : Entity -> Prop) (w w' : ExportState) : Prop :=
  exists new, lines w' = lines w ++ new /\ Forall (fun l => P (snd l)) new.

(** The walk: new lines are not element records, new keys of
    [nodeToIfcId] are in [K]. *)
Definition RWalk (K : string -> Prop) (w w' : ExportState) : Prop :=
  RLines (fun e => isElement e = false) w w' /\
  (forall k, Obj.has (nodeToIfcId w') k = true ->
             Obj.has (nodeToIfcId w) k = true \/ K k).

(** An element record is for an object under a Storey node registered in
    [M]. *)
Definition okElement (nodes : Nodes) (M : Obj.t nat) (e : Entity) : Prop :=
  match e with
  | IFCELEMENT _ _ _ obj _ =>
      exists st, In st (Obj.values nodes) /\ kind st = Storey /\
                 Obj.has M (id st) = true /\
                 In obj (getObjectsUnderStorey nodes st)
  | _ => True
  end.

(** The element loop, for the [nodeToIfcId] it starts with. *)
Definition RElems (nodes : Nodes) (w w' : ExportState) : Prop :=
  RLines (okElement nodes (nodeToIfcId w)) w w'.

Definition mapIs (M : Obj.t nat) (w : ExportState) : Prop :=
  nodeToIfcId w = M.

(** First [Ra], then [Rb]. *)
Definition RThen (Ra Rb : ExportState -> ExportState -> Prop)
    (w w'' : ExportState) : Prop :=
  exists w', Ra w w' /\ Rb w' w''.

(** An invariant that only looks at [nodeToIfcId]. *)
Definition keepsOnMap (I : ExportState -> Prop) : Prop :=
  forall w w', nodeToIfcId w' = nodeToIfcId w -> I w -> I w'.

(** *** Well-formed documents

    The line numbers that a record refers to ([#n] in its text).  The
    [#undefined] that an unregistered parent would give is no line; it is
    counted as a reference to line 0. *)
Definition refs (e : Entity) : list nat :=
  match e with
  | IFCOWNERHISTORY _ | IFCCARTESIANPOINT | IFCSIUNIT
  | IFCPROPERTYSINGLEVALUE _ _ => []
  | IFCAXIS2PLACEMENT3D p => [p]
  | IFCLOCALPLACEMENT None ax => [ax]
  | IFCLOCALPLACEMENT (Some None) ax => [0; ax]
  | IFCLOCALPLACEMENT (Some (Some r)) ax => [r; ax]
  | IFCGEOMETRICREPRESENTATIONCONTEXT ax => [ax]
  | IFCUNITASSIGNMENT u => [u]
  | IFCPROJECT _ o _ c u => [o; c; u]
  | IFCSITE _ o _ p | IFCBUILDING _ o _ p | IFCBUILDINGSTOREY _ o _ p => [o; p]
  | IFCRELAGGREGATES _ o p cs => o :: p :: cs
  | IFCELEMENT _ _ o _ p => [o; p]
  | IFCPROPERTYSET _ o _ ps => o :: ps
  | IFCRELDEFINESBYPROPERTIES _ o e p => [o; e; p]
  | IFCRELCONTAINEDINSPATIALSTRUCTURE _ o es s => o :: es ++ [s]
  end.

(** The GlobalId of a record that has one. *)
Definition guidOf (e : Entity) : option string :=
  match e with
  | IFCPROJECT g _ _ _ _ | IFCSITE g _ _ _ | IFCBUILDING g _ _ _
  | IFCBUILDINGSTOREY g _ _ _ | IFCRELAGGREGATES g _ _ _
  | IFCELEMENT _ g _ _ _ | IFCPROPERTYSET g _ _ _
  | IFCRELDEFINESBYPROPERTIES g _ _ _
  | IFCRELCONTAINEDINSPATIALSTRUCTURE g _ _ _ => Some g
  | _ => None
  end.

Definition goodGuid (g : string) : Prop :=
  String.length g = 22 /\ allChars inAlphabet g.

(** What holds of every line [#n=e;] that the exporter writes. *)
Definition lineOk (l : Line) : Prop :=
  (forall r, In r (refs (snd l)) -> 1 <= r < fst l) /\
  (forall g, guidOf (snd l) = Some g -> goodGuid g) /\
  match snd l with
  | IFCELEMENT entity _ _ obj _ => entity = normalizeEntityName (ifcClass obj)
  | IFCPROPERTYSET _ _ name propIds => truthy name = true /\ propIds <> []
  | _ => True
  end.

(** The invariant of the writer and of [nodeToIfcId]. *)
Definition wfExport (w : ExportState) : Prop :=
  nextId w = S (length (lines w)) /\
  map fst (lines w) = seq 1 (length (lines w)) /\
  Forall lineOk (lines w) /\
  (forall k v, Obj.get (nodeToIfcId w) k = Some v -> 1 <= v < nextId w).

(** From a state to a later one: lines are appended, keys are added. *)
Definition extends (w w' : ExportState) : Prop :=
  (exists new, lines w' = lines w ++ new) /\ nextId w <= nextId w' /\
  (forall k, Obj.has (nodeToIfcId w) k = true ->
             Obj.has (nodeToIfcId w') k = true).

Definition stable (P : ExportState -> Prop) : Prop :=
  forall w w', extends w w' -> P w -> P w'.

(** [r] is the number of a line written so far. *)
Definition validAt (r : nat) (w : ExportState) : Prop := 1 <= r < nextId w.

(** A step started in a well-formed state that satisfies [P] returns a
    value and a later well-formed state that satisfy [Q]. *)
Definition triple {A} (P : ExportState -> Prop) (m : W A)
    (Q : A -> ExportState -> Prop) : Prop :=
  forall w, wfExport w -> P w ->
  exists a w', m w = Ok (a, w') /\ wfExport w' /\ extends w w' /\ Q a w'.

(** The record of a spatial node: line [a] of the document is its record
    and carries its name. *)
Definition hasRecord (ownerHistory : nat) (k : NodeKind) (n : TreeNode)
    (a : nat) (doc : list Line) : Prop :=
  exists g p,
    match k with
    | Site => In (a, IFCSITE g ownerHistory (name n) p) doc
    | Building => In (a, IFCBUILDING g ownerHistory (name n) p) doc
    | Storey => In (a, IFCBUILDINGSTOREY g ownerHistory (name n) p) doc
    | _ => False
    end.

(** Line [child] is listed in an aggregation record of line [parent]. *)
Definition aggregated (ownerHistory parent child : nat) (doc : list Line)
    : Prop :=
  exists n g cs,
    In (n, IFCRELAGGREGATES g ownerHistory parent cs) doc /\ In child cs.

(** Line [el] is the element record of [obj]. *)
Definition elementAt (ownerHistory : nat) (obj : TreeNode) (el : nat)
    (doc : list Line) : Prop :=
  exists g p,
    In (el, IFCELEMENT (normalizeEntityName (ifcClass obj)) g ownerHistory obj p)
       doc.

(** Line [el] is listed in a containment record. *)
Definition contained (ownerHistory el : nat) (doc : list Line) : Prop :=
  exists n g els storey,
    In (n, IFCRELCONTAINEDINSPATIALSTRUCTURE g ownerHistory els storey) doc
    /\ In el els.

(** The document has an element record for [obj], listed in a containment
    record. *)
Definition exported (ownerHistory : nat) (obj : TreeNode) (doc : list Line)
    : Prop :=
  exists el, elementAt ownerHistory obj el doc /\ contained ownerHistory el doc.

(** The owner history and the parent placement are lines. *)
Definition placed (ownerHistory : nat) (pp : option nat) (w : ExportState)
    : Prop :=
  validAt ownerHistory w /\ exists v, pp = Some v /\ validAt v w.

(** The storeys of [b] are registered, have their records, and are
    aggregated under line [a], the record of [b]. *)
Definition buildingDone (ownerHistory : nat) (nodes : Nodes) (b : TreeNode)
    (a : nat) (w : ExportState) : Prop :=
  validAt a w /\ hasRecord ownerHistory Building b a (lines w) /\
  forall st, storeyOf nodes b st ->
    Obj.has (nodeToIfcId w) (id st) = true /\
    exists a', hasRecord ownerHistory Storey st a' (lines w) /\
               aggregated ownerHistory a a' (lines w).

Definition siteDone (ownerHistory : nat) (nodes : Nodes) (s : TreeNode)
    (a : nat) (w : ExportState) : Prop :=
  validAt a w /\ hasRecord ownerHistory Site s a (lines w) /\
  forall b, buildingOf nodes s b ->
    exists a', buildingDone ownerHistory nodes b a' w /\
               aggregated ownerHistory a a' (lines w).

(** Every storey reached from the project is registered. *)
Definition reachedRegistered (nodes : Nodes) (project : TreeNode)
    (w : ExportState) : Prop :=
  forall st, reachedStorey nodes project st ->
             Obj.has (nodeToIfcId w) (id st) = true.

(** What [exportBody] has written when it returns. *)
Definition bodyDone (nodes : Nodes) (project : TreeNode) (w : ExportState)
    : Prop :=
  exists ownerHistory,
    (exists a g c u,
       In (a, IFCPROJECT g ownerHistory (name project) c u) (lines w) /\
       forall s, siteOf nodes project s ->
         exists a', siteDone ownerHistory nodes s a' w /\
                    aggregated ownerHistory a a' (lines w)) /\
    forall st obj, reachedStorey nodes project st ->
      In obj (getObjectsUnderStorey nodes st) ->
      exported ownerHistory obj (lines w).

(** ** The importer (importIfc.ts)

    The [await]s of the importer run one after the other, so the walk is a
    function from draft to draft.  The attribute source [ifcManager] is a
    record of functions, so the same lookup gives the same answer each
    time it is made: [getItemProperties] gives the result of
    [safeGetItemProps] ([None] when the lookup throws or finds nothing) and
    [getPropertySets] the list that [safeGetPsets] returns. *)

#[warnings="-register-all"]
Inductive SpatialNode :=
| mkSpatial (expressID : Z) (type : string) (children : list SpatialNode).

(** Induction over a spatial tree, with the property for all children. *)
Fixpoint SpatialNode_forall_ind (P : SpatialNode -> Prop)
    (H : forall e t ch, Forall P ch -> P (mkSpatial e t ch))
    (sp : SpatialNode) : P sp :=
  match sp with
  | mkSpatial e t ch =>
      H e t ch
        ((fix all (l : list SpatialNode) : Forall P l :=
            match l with
            | [] => Forall_nil P
            | x :: l' => Forall_cons x (SpatialNode_forall_ind P H x) (all l')
            end) ch)
  end.

Record ItemProps := mkItemProps {
  GlobalId : option string;
  Name : option string;
  Tag : option string
}.

Record IfcManager := mkManager {
  getSpatialStructure : Z -> option SpatialNode;
  getItemProperties : Z -> Z -> option ItemProps;
  getPropertySets : Z -> Z -> list Pset
}.

Definition ensureNode (draft : Nodes) (i : string) (fallback : TreeNode)
    : Nodes :=
  if Obj.has draft i then draft else Obj.set draft i fallback.

Definition ensureChild (draft : Nodes) (parentId childId : string) : Nodes :=
  match Obj.get draft parentId with
  | Some p =>
      if memb (children p) childId then draft
      else Obj.set draft parentId (with_children p (children p ++ [childId]))
  | None => draft
  end.

(** [{ ...a, ...b }] on property maps *)
Definition spread (a b : Obj.t string) : Obj.t string :=
  fold_left (fun acc e => Obj.set acc (fst e) (snd e)) b a.

Section Merge.
(** [a.localeCompare(b)], which depends on the locale of the host *)
Variable localeCompare : string -> string -> Z.

Fixpoint insertPset (p : Pset) (l : list Pset) : list Pset :=
  match l with
  | [] => [p]
  | q :: l' =>
      if (localeCompare (pset_name p) (pset_name q) <=? 0)%Z
      then p :: l
      else q :: insertPset p l'
  end.

(** [l.sort((a, b) => a.name.localeCompare(b.name))], a stable sort: each
    entry goes in front of the later entries that do not compare below
    it. *)
Definition sortPsets (l : list Pset) : list Pset :=
  fold_right insertPset [] l.

Definition mergePsets (oldPsets newPsets : list Pset) : list Pset :=
  let map0 : Obj.t Pset :=
    fold_left (fun m p => Obj.set m (pset_name p) (mkPset (pset_name p) (props p)))
              oldPsets [] in
  let map1 :=
    fold_left
      (fun m p =>
         match Obj.get m (pset_name p) with
         | None => Obj.set m (pset_name p) (mkPset (pset_name p) (props p))
         | Some cur =>
             Obj.set m (pset_name p)
                     (mkPset (pset_name p) (spread (props cur) (props p)))
         end)
      newPsets map0 in
  sortPsets (Obj.values map1).

Definition orElse {A} (a b : option A) : option A :=
  match a with Some _ => a | None => b end.

Definition listOr {A} (a : option (list A)) : list A :=
  match a with Some l => l | None => [] end.

(** [upsertNode].  A field that [node] does not give ([None]) leaves the
    existing one in place under [{ ...existing, ...node }]. *)
Definition upsertNode (draft : Nodes) (node : TreeNode) : Nodes :=
  match Obj.get draft (id node) with
  | None => Obj.set draft (id node) node
  | Some existing =>
      Obj.set draft (id node)
        (mkNode (id node) (kind node)
           (if truthy (name existing) then name existing else name node)
           (orElse (parentId node) (parentId existing))
           (if Nat.eqb (length (children existing)) 0
            then children node else children existing)
           (orElse (ifcClass existing) (ifcClass node))
           (orElse (tag existing) (tag node))
           (Some (mergePsets (listOr (psets existing)) (listOr (psets node))))
           (orElse (docs node) (docs existing))
           (orElse (ifc node) (ifc existing)))
  end.
End Merge.

Definition spatialKindFromIfcType (typeUpper : string) : option NodeKind :=
  if typeUpper =? "IFCPROJECT" then Some Project
  else if typeUpper =? "IFCSITE" then Some Site
  else if typeUpper =? "IFCBUILDING" then Some Building
  else if typeUpper =? "IFCBUILDINGSTOREY" then Some Storey
  else None.

Definition ifcClassForElement (typeUpper : string) : string :=
  if typeUpper =? "IFCBUILDINGELEMENTPROXY" then "IfcBuildingElementProxy"
  else "IfcBuildingElementProxy".

Definition stableSpatialId (kind : NodeKind) (globalId : option string)
    (expressID : Z) : string :=
  let key := match globalId with
             | Some g => g
             | None => numToString expressID
             end in
  match kind with
  | Project => "ifc:project:" ++ key
  | Site => "ifc:site:" ++ key
  | Building => "ifc:building:" ++ key
  | Storey => "ifc:storey:" ++ key
  | _ => "ifc:item:" ++ key
  end%string.

(** The text of a [NodeKind] *)
Definition kindName (k : NodeKind) : string :=
  match k with
  | Root => "Root" | Project => "Project" | Site => "Site"
  | Building => "Building" | Storey => "Storey"
  | ClassGroup => "ClassGroup" | Object => "Object"
  end.

Definition PROXY : string := "IfcBuildingElementProxy".

Section ImportFn.
Variable localeCompare : string -> string -> Z.
Variable mgr : IfcManager.
Variable modelID : Z.

Definition safeGetGlobalId (expressID : Z) : option string :=
  match getItemProperties mgr modelID expressID with
  | Some props => GlobalId props
  | None => None
  end.

Definition safeGetName (expressID : Z) : option string :=
  match getItemProperties mgr modelID expressID with
  | Some props => Name props
  | None => None
  end.

Definition safeGetTag (expressID : Z) : option string :=
  match getItemProperties mgr modelID expressID with
  | Some props => Tag props
  | None => None
  end.

Definition safeGetPsets (expressID : Z) : list Pset :=
  getPropertySets mgr modelID expressID.

Definition ensureSyntheticStorey (draft : Nodes) (buildingId : string)
    : Nodes * string :=
  let synthStoreyId := ("ifc:storey:synthetic:" ++ buildingId)%string in
  if Obj.has draft synthStoreyId then (draft, synthStoreyId) else
  let draft := upsertNode localeCompare draft
                 (plainNode synthStoreyId Storey "Storey 0" (Some buildingId) []) in
  let draft := ensureChild draft buildingId synthStoreyId in
  (draft, synthStoreyId).

Definition ensureFallbackSpatialContainers (draft : Nodes) : Nodes * string :=
  let defaultProjectId := "ifc:project:default" in
  let draft :=
    if Obj.has draft defaultProjectId then draft else
    let draft := upsertNode localeCompare draft
                   (plainNode defaultProjectId Project "Imported Project"
                              (Some "root") []) in
    ensureChild draft "root" defaultProjectId in
  let synthBuildingId := ("ifc:building:synthetic:" ++ defaultProjectId)%string in
  let draft :=
    if Obj.has draft synthBuildingId then draft else
    let draft := upsertNode localeCompare draft
                   (plainNode synthBuildingId Building "Building 0"
                              (Some defaultProjectId) []) in
    ensureChild draft defaultProjectId synthBuildingId in
  ensureSyntheticStorey draft synthBuildingId.

(** The building that the leaf branch of [walk] looks for. *)
Definition enclosingBuilding (draft : Nodes) (resolvedParentId : string)
    : option string :=
  let parent := if truthy resolvedParentId
                then Obj.get draft resolvedParentId else None in
  match parent with
  | Some p =>
      if NodeKind_eqb (kind p) Building then Some (id p)
      else match parentId p with
           | Some pp =>
               if truthy pp then
                 match Obj.get draft pp with
                 | Some g => if NodeKind_eqb (kind g) Building
                             then Some pp else None
                 | None => None
                 end
               else None
           | None => None
           end
  | None => None
  end.

(** The spatial branch of [walk] up to the recursion: the new draft and
    the id of the node. *)
Definition visitSpatial (draft : Nodes) (expressID : Z) (typeUpper : string)
    (kind : NodeKind) (parentId : option string) : Nodes * string :=
  let globalId := safeGetGlobalId expressID in
  let name := match safeGetName expressID with
              | Some n => n
              | None => typeUpper
              end in
  let resolvedParentId := match parentId with Some p => p | None => "root" end in
  let myId := stableSpatialId kind globalId expressID in
  let resolvedParentId :=
    if NodeKind_eqb kind Project then "root" else resolvedParentId in
  let draft := ensureNode draft resolvedParentId
                 (plainNode resolvedParentId Root "Workspace" None []) in
  let draft :=
    upsertNode localeCompare draft
      (mkNode myId kind (if truthy name then name else kindName kind)
              (Some resolvedParentId) [] None None None None
              (Some (mkIfcRef modelID expressID globalId None (Some typeUpper)))) in
  (ensureChild draft resolvedParentId myId, myId).

(** The block [let storeyId = currentStoreyId; if (!storeyId) { ... }] of
    the leaf branch: the draft after it and the storey. *)
Definition resolveStorey (draft : Nodes) (resolvedParentId : string)
    (currentStoreyId : option string) : Nodes * string :=
  let synthesize :=
    match enclosingBuilding draft resolvedParentId with
    | Some b => if truthy b then ensureSyntheticStorey draft b
                else ensureFallbackSpatialContainers draft
    | None => ensureFallbackSpatialContainers draft
    end in
  match currentStoreyId with
  | Some s => if truthy s then (draft, s) else synthesize
  | None => synthesize
  end.

(** The leaf branch of [walk] up to the recursion: the new draft and the
    storey the object went under. *)
Definition visitLeaf (draft : Nodes) (expressID : Z) (typeUpper : string)
    (resolvedParentId : string) (currentStoreyId : option string)
    : Nodes * string :=
  let globalId := safeGetGlobalId expressID in
  let name := match safeGetName expressID with
              | Some n => n
              | None => typeUpper
              end in
  let tag := safeGetTag expressID in
  let psets := safeGetPsets expressID in
  let '(draft, storeyId) :=
    resolveStorey draft resolvedParentId currentStoreyId in
  let className := ifcClassForElement typeUpper in
  let classGroupId := (storeyId ++ "__" ++ className)%string in
  let draft :=
    if Obj.has draft classGroupId then draft else
    let draft := upsertNode localeCompare draft
                   (mkNode classGroupId ClassGroup className (Some storeyId) []
                           (Some className) None None None None) in
    ensureChild draft storeyId classGroupId in
  let objId :=
    ("ifc:obj:" ++ match globalId with
                   | Some g => g
                   | None => numToString modelID ++ ":" ++ numToString expressID
                   end)%string in
  let draft :=
    upsertNode localeCompare draft
      (mkNode objId Object (if truthy name then name else className)
              (Some classGroupId) [] (Some className)
              (match tag with
               | Some t => if truthy t then Some t else globalId
               | None => globalId
               end)
              (Some psets) None
              (Some (mkIfcRef modelID expressID globalId None (Some typeUpper)))) in
  (ensureChild draft classGroupId objId, storeyId).

Fixpoint walk (sp : SpatialNode) (parentId : option string)
    (currentStoreyId : option string) (draft : Nodes) : Nodes :=
  match sp with
  | mkSpatial expressID type children =>
      let typeUpper := toUpperCase type in
      match spatialKindFromIfcType typeUpper with
      | Some kind =>
          let '(draft, myId) :=
            visitSpatial draft expressID typeUpper kind parentId in
          let nextStoreyId :=
            if NodeKind_eqb kind Storey then Some myId else currentStoreyId in
          fold_left (fun d ch => walk ch (Some myId) nextStoreyId d)
                    children draft
      | None =>
          let resolvedParentId :=
            match parentId with Some p => p | None => "root" end in
          let '(draft, storeyId) :=
            visitLeaf draft expressID typeUpper resolvedParentId
                      currentStoreyId in
          fold_left (fun d ch => walk ch (Some resolvedParentId) (Some storeyId) d)
                    children draft
      end
  end.

Definition importWith (nodes : Nodes) : Nodes :=
  let draft := nodes in
  let draft := ensureNode draft "root" (plainNode "root" Root "Workspace" None []) in
  match getSpatialStructure mgr modelID with
  | Some spatial => walk spatial (Some "root") None draft
  | None => draft
  end.
End ImportFn.

(** [importIfcIntoCoordinator]; [viewerManager] is
    [viewer.IFC.loader.ifcManager], if there is one. *)
Definition importIfcIntoCoordinator (localeCompare : string -> string -> Z)
    (viewerManager : option IfcManager) (modelID : Z) (nodes : Nodes)
    : result Nodes :=
  match viewerManager with
  | None =>
      Throw "IfcManager not available: viewer.IFC.loader.ifcManager missing"
  | Some mgr => Ok (importWith localeCompare mgr modelID nodes)
  end.

(** *** Vocabulary for the importer's properties *)

(** The id of the object that [visitLeaf] writes. *)
Definition objectId (mgr : IfcManager) (modelID expressID : Z) : string :=
  ("ifc:obj:" ++ match safeGetGlobalId mgr modelID expressID with
                 | Some g => g
                 | None => numToString modelID ++ ":" ++ numToString expressID
                 end)%string.

(** The object node that the leaf branch hands to [upsertNode]. *)
Definition leafObject (mgr : IfcManager) (modelID expressID : Z)
    (typeUpper classGroupId : string) : TreeNode :=
  let globalId := safeGetGlobalId mgr modelID expressID in
  let name := match safeGetName mgr modelID expressID with
              | Some n => n
              | None => typeUpper
              end in
  mkNode (objectId mgr modelID expressID) Object
         (if truthy name then name else PROXY)
         (Some classGroupId) [] (Some PROXY)
         (match safeGetTag mgr modelID expressID with
          | Some t => if truthy t then Some t else globalId
          | None => globalId
          end)
         (Some (safeGetPsets mgr modelID expressID)) None
         (Some (mkIfcRef modelID expressID globalId None (Some typeUpper))).

Definition defaultProjectId : string := "ifc:project:default".
Definition synthBuildingId : string :=
  "ifc:building:synthetic:ifc:project:default".
Definition synthStoreyId : string :=
  "ifc:storey:synthetic:ifc:building:synthetic:ifc:project:default".
Definition fallbackGroupId : string :=
  "ifc:storey:synthetic:ifc:building:synthetic:ifc:project:default__IfcBuildingElementProxy".

(** The tree of Scenario E. *)
Definition scenarioE (mgr : IfcManager) (modelID expressID : Z)
    (typeUpper : string) : Nodes :=
  [ ("root", plainNode "root" Root "Workspace" None [defaultProjectId]);
    (defaultProjectId,
       plainNode defaultProjectId Project "Imported Project" (Some "root")
                 [synthBuildingId]);
    (synthBuildingId,
       plainNode synthBuildingId Building "Building 0" (Some defaultProjectId)
                 [synthStoreyId]);
    (synthStoreyId,
       plainNode synthStoreyId Storey "Storey 0" (Some synthBuildingId)
                 [fallbackGroupId]);
    (fallbackGroupId,
       mkNode fallbackGroupId ClassGroup PROXY (Some synthStoreyId)
              [objectId mgr modelID expressID] (Some PROXY) None None None None);
    (objectId mgr modelID expressID,
       leafObject mgr modelID expressID typeUpper fallbackGroupId) ].


(** An attribute source for examples: one leaf of type IFCFLOWTERMINAL. *)
Definition sampleManager : IfcManager :=
  mkManager
    (fun _ => Some (mkSpatial 42 "IfcFlowTerminal" []))
    (fun _ e => if Z.eqb e 42
                then Some (mkItemProps (Some "2O2Fr$t4X7Zf8NOew3FLOH")
                                       (Some "Tap") None)
                else None)
    (fun _ _ => [mkPset "Pset_Tap" [("Flow", "1.5")]]).


(** An attribute source in which the group id of one storey is the id of
    another storey: the storeys have the GlobalIds
    ["A__IfcBuildingElementProxy"] and ["A"], and the second holds a
    leaf. *)
Definition collidingManager : IfcManager :=
  mkManager
    (fun _ =>
       Some (mkSpatial 1 "IfcProject"
               [mkSpatial 2 "IfcBuilding"
                  [mkSpatial 3 "IfcBuildingStorey" [];
                   mkSpatial 4 "IfcBuildingStorey"
                     [mkSpatial 5 "IfcFlowTerminal" []]]]))
    (fun _ e =>
       if Z.eqb e 3
       then Some (mkItemProps (Some "A__IfcBuildingElementProxy")
                              (Some "Upper") None)
       else if Z.eqb e 4 then Some (mkItemProps (Some "A") (Some "Lower") None)
       else if Z.eqb e 5 then Some (mkItemProps (Some "T") (Some "Tap") None)
       else None)
    (fun _ _ => []).

Definition byCodeUnits (a b : string) : Z :=
  match String.compare a b with Lt => (-1)%Z | Eq => 0%Z | Gt => 1%Z end.

(** Two nodes agree on what the importer's decisions read. *)
Definition sameCore (n n' : TreeNode) : Prop :=
  kind n = kind n' /\ id n = id n' /\ parentId n = parentId n' /\
  ifcClass n = ifcClass n'.

(** The node under [k], if any, keeps its core from [d] to [d']. *)
Definition coreKept (k : string) (d d' : Nodes) : Prop :=
  forall n, Obj.get d k = Some n ->
  exists n', Obj.get d' k = Some n' /\ sameCore n n'.

(** What the walk hands to [upsertNode]: a node without class or of the
    proxy class, not under the key ["root"], with a parent. *)
Definition written (n : TreeNode) : Prop :=
  (ifcClass n = None \/ ifcClass n = Some PROXY) /\ id n <> "root" /\
  parentId n <> None.

(** [if (!draft[n.id]) { upsertNode(draft, n); ensureChild(draft, p, n.id) }] *)
Definition guardedCreate (localeCompare : string -> string -> Z)
    (draft : Nodes) (n : TreeNode) (p : string) : Nodes :=
  if Obj.has draft (id n) then draft
  else ensureChild (upsertNode localeCompare draft n) p (id n).

(** No key is lost from [d] to [d']. *)
Definition keysGrow (d d' : Nodes) : Prop :=
  forall k, Obj.has d k = true -> Obj.has d' k = true.

(** *** Two runs of the importer side by side

    [d1] is the draft of the first run and [d2] the draft of the second
    run at the same point of the walk. *)

(** What the decisions of the walk read of the node under [k]. *)
Definition coreAt (d : Nodes) (k : string)
    : option (NodeKind * string * option string) :=
  match Obj.get d k with
  | Some n => Some (kind n, id n, parentId n)
  | None => None
  end.

Definition SameKind (d1 d2 : Nodes) (k : string) : Prop :=
  exists c1 c2, coreAt d1 k = Some c1 /\ coreAt d2 k = Some c2 /\
                fst (fst c1) = fst (fst c2).

(** Both drafts have the same core under [k], and the same kind under the
    parent it names. *)
Definition Good (d1 d2 : Nodes) (k : string) : Prop :=
  exists c, coreAt d1 k = Some c /\ coreAt d2 k = Some c /\
            forall pp, snd c = Some pp -> truthy pp = true -> SameKind d1 d2 pp.

Definition isObjKey (k : string) : bool := String.prefix "ifc:obj:" k.


(** The ids that the walk gives to storeys, found or synthetic. *)
Definition isStoreyKey (k : string) : bool := String.prefix "ifc:storey:" k.


(** From the drafts [d1], [d2] to the drafts [e1], [e2]. *)
Definition Step (d1 d2 e1 e2 : Nodes) : Prop :=
  keysGrow e1 e2 /\ keysGrow d1 e1 /\ keysGrow d2 e2 /\
  (forall k, Obj.has e2 k = true -> Obj.has d2 k = true \/ Obj.has e1 k = true) /\
  (forall k, SameKind d1 d2 k -> SameKind e1 e2 k) /\
  (forall k, isObjKey k = false -> Good d1 d2 k -> Good e1 e2 k).

(** Keys are only appended. *)
Definition keysExtend (d d' : Nodes) : Prop :=
  (exists l, Obj.keys d' = Obj.keys d ++ l) /\
  (NoDup (Obj.keys d) -> NoDup (Obj.keys d')).

(** Sample snapshots.  [demoTree] is the initial tree of [App], damaged:
    the project lists itself and a missing node as children, and the site
    names a parent that does not exist. *)
Definition demoTree : Nodes :=
  [ ("root", plainNode "root" Root "Workspace" None ["project"]);
    ("project", plainNode "project" Project "IfcProject" (Some "root")
                  ["site_1"; "project"; "gone"]);
    ("site_1", plainNode "site_1" Site "Site A" (Some "nowhere") ["building_1"]);
    ("building_1", plainNode "building_1" Building "Building A" (Some "site_1")
                     ["storey_1"]);
    ("storey_1", plainNode "storey_1" Storey "Storey 0" (Some "building_1")
                   ["storey_1__IfcBuildingElementProxy"]);
    ("storey_1__IfcBuildingElementProxy",
       mkNode "storey_1__IfcBuildingElementProxy" ClassGroup
         "IfcBuildingElementProxy" (Some "storey_1") []
         (Some "IfcBuildingElementProxy") None None None None) ].

(** A snapshot whose ["root"] entry is itself of kind Project. *)
Definition rootIsProject : Nodes :=
  [ ("root", plainNode "root" Project "Workspace" None []) ].

Definition rootIsProject2 : Nodes :=
  [ ("root", plainNode "root" Project "Workspace" None []);
    ("p", plainNode "p" Project "P" None []) ].

(** A project that lists a name of [Object.prototype] and a missing id as
    children. *)
Definition protoTree : Nodes :=
  [ ("root", plainNode "root" Root "Workspace" None ["p"]);
    ("p", plainNode "p" Project "P" (Some "root") ["constructor"; "gone"]) ].

(** Trees of the spec's scenarios B and D. *)
Definition scenarioB : Nodes :=
  [ ("root", rootNode);
    ("X", plainNode "X" Site "Site X" (Some "missing") []) ].

Definition pumpGroup : Nodes :=
  [ ("g", mkNode "g" ClassGroup "IfcPump" None [] (Some "IfcPump") None None
            None None) ].

(** * Part II: properties *)

(** ** Association-list facts *)

Module ObjFacts.
Import Obj.

Section Facts.
Context {V : Type}.
Implicit Types (o : Obj.t V) (k : string) (v : V).

Lemma get_set_same o k v : get (set o k v) k = Some v.
Proof.
  induction o as [|[k' v'] o IH]; simpl.
  - now rewrite String.eqb_refl.
  - destruct (k' =? k) eqn:E; simpl; rewrite E; auto.
Qed.

Lemma get_set_other o k k' v : k <> k' -> get (set o k v) k' = get o k'.
Proof.
  intros Hne. induction o as [|[k0 v0] o IH]; simpl.
  - apply String.eqb_neq in Hne. now rewrite Hne.
  - destruct (k0 =? k) eqn:E; simpl.
    + apply String.eqb_eq in E; subst k0.
      apply String.eqb_neq in Hne. now rewrite Hne.
    + now rewrite IH.
Qed.

Lemma set_get_id o k v : get o k = Some v -> set o k v = o.
Proof.
  induction o as [|[k' v'] o IH]; simpl; [discriminate|].
  destruct (k' =? k) eqn:E.
  - now intros [= ->].
  - intros H. now rewrite IH.
Qed.

Lemma has_true o k : has o k = true <-> In k (keys o).
Proof.
  unfold has. induction o as [|[k' v'] o IH]; simpl.
  - split; [discriminate | tauto].
  - destruct (k' =? k) eqn:E.
    + apply String.eqb_eq in E. tauto.
    + apply String.eqb_neq in E. rewrite IH. tauto.
Qed.


Lemma has_keys_ext (o o' : Obj.t V) k :
  keys o = keys o' -> has o k = has o' k.
Proof.
  intros HK. destruct (has o k) eqn:E.
  - symmetry. apply has_true. rewrite <- HK. now apply has_true.
  - destruct (has o' k) eqn:E'; auto.
    apply has_true in E'. rewrite <- HK in E'. apply has_true in E'. congruence.
Qed.

Lemma get_In o k v : get o k = Some v -> In (k, v) o.
Proof.
  induction o as [|[k' v'] o IH]; simpl; [discriminate|].
  destruct (k' =? k) eqn:E.
  - apply String.eqb_eq in E. intros [= ->]. left. now subst.
  - auto.
Qed.

Lemma In_set o k v k' v' :
  In (k', v') (set o k v) -> (k', v') = (k, v) \/ In (k', v') o.
Proof.
  induction o as [|[k0 v0] o IH]; simpl.
  - intros [H|[]]; auto.
  - destruct (k0 =? k) eqn:E; simpl.
    + apply String.eqb_eq in E. subst. intros [H|H]; auto.
    + intros [H|H]; auto. destruct (IH H); auto.
Qed.

Lemma keys_set_has o k v : has o k = true -> keys (set o k v) = keys o.
Proof.
  unfold has. induction o as [|[k0 v0] o IH]; simpl; [discriminate|].
  destruct (k0 =? k) eqn:E; simpl; auto.
  intros H. now rewrite IH.
Qed.

Lemma keys_set_new o k v : has o k = false -> keys (set o k v) = keys o ++ [k].
Proof.
  unfold has. induction o as [|[k0 v0] o IH]; simpl; auto.
  destruct (k0 =? k) eqn:E; simpl; [discriminate|].
  intros H. now rewrite IH.
Qed.

Lemma set_new o k v : has o k = false -> set o k v = o ++ [(k, v)].
Proof.
  unfold has. induction o as [|[k0 v0] o IH]; simpl; auto.
  destruct (k0 =? k) eqn:E; simpl; [discriminate|].
  intros H. now rewrite IH.
Qed.

(** Writing the key of the entry that follows a prefix not holding it. *)
Lemma set_middle (l1 l2 : Obj.t V) k v v' :
  ~ In k (keys l1) ->
  set (l1 ++ (k, v) :: l2) k v' = l1 ++ (k, v') :: l2.
Proof.
  induction l1 as [|[k0 v0] l1 IH]; simpl; intros Hn.
  - now rewrite String.eqb_refl.
  - destruct (k0 =? k) eqn:E.
    + apply String.eqb_eq in E. tauto.
    + rewrite IH; auto.
Qed.

Lemma get_middle (l1 l2 : Obj.t V) k v :
  ~ In k (keys l1) -> get (l1 ++ (k, v) :: l2) k = Some v.
Proof.
  induction l1 as [|[k0 v0] l1 IH]; simpl; intros Hn.
  - now rewrite String.eqb_refl.
  - destruct (k0 =? k) eqn:E.
    + apply String.eqb_eq in E. tauto.
    + apply IH. tauto.
Qed.

Lemma In_get o k v : NoDup (keys o) -> In (k, v) o -> get o k = Some v.
Proof.
  induction o as [|[k0 v0] o IH]; simpl; [tauto|].
  intros Hnd [H|H].
  - injection H as -> ->. now rewrite String.eqb_refl.
  - inversion Hnd as [|? ? Hni Hnd']; subst.
    destruct (k0 =? k) eqn:E.
    + apply String.eqb_eq in E. subst k0. exfalso. apply Hni.
      change k with (fst (k, v)). now apply in_map.
    + auto.
Qed.
End Facts.

End ObjFacts.

Lemma distinct_NoDup l : distinct l = true <-> NoDup l.
Proof.
  induction l as [|x l IH]; simpl.
  - split; [constructor | reflexivity].
  - rewrite andb_true_iff, negb_true_iff, IH. split.
    + intros [Hx Hl]. constructor; auto. intros Hin.
      assert (existsb (String.eqb x) l = true).
      { apply existsb_exists. exists x. split; auto. apply String.eqb_refl. }
      congruence.
    + intros H. inversion H as [|? ? Hni Hnd]; subst. split; auto.
      destruct (existsb (String.eqb x) l) eqn:E; auto.
      apply existsb_exists in E. destruct E as [y [Hy Hxy]].
      apply String.eqb_eq in Hxy. subst. tauto.
Qed.

(** ** The repair pass *)

Module Repair.
Import Obj ObjFacts.

Lemma memb_In K k : memb K k = true <-> In k K.
Proof.
  unfold memb. rewrite existsb_exists. split.
  - intros [x [Hx E]]. apply String.eqb_eq in E. now subst.
  - intros H. exists k. split; auto. apply String.eqb_refl.
Qed.

Lemma has_memb {V} (o : Obj.t V) k : has o k = memb (keys o) k.
Proof.
  destruct (has o k) eqn:E; symmetry.
  - apply memb_In. now apply has_true.
  - destruct (memb (keys o) k) eqn:E'; auto.
    apply memb_In in E'. apply has_true in E'. congruence.
Qed.

Lemma memb_incl K K' k : incl K K' -> memb K k = true -> memb K' k = true.
Proof. intros HI H. apply memb_In. apply HI. now apply memb_In. Qed.

Lemma truthyAt_seen {V} (o : Obj.t V) k : truthyAt o k = seen (keys o) k.
Proof. unfold truthyAt, seen. now rewrite has_memb. Qed.

Lemma truthyAt_keys_ext {V} (o o' : Obj.t V) k :
  keys o = keys o' -> truthyAt o k = truthyAt o' k.
Proof. intros H. now rewrite !truthyAt_seen, H. Qed.

Lemma seen_incl K K' k : incl K K' -> seen K k = true -> seen K' k = true.
Proof.
  unfold seen. intros HI H. apply orb_true_iff in H. apply orb_true_iff.
  destruct H as [H|H]; [left; now apply (memb_incl K) | now right].
Qed.

Lemma seen_In K k : In k K -> seen K k = true.
Proof. intros H. unfold seen. apply memb_In in H. now rewrite H. Qed.

Lemma keys_app {V} (a b : Obj.t V) : keys (a ++ b) = keys a ++ keys b.
Proof. unfold keys. apply map_app. Qed.

Lemma keys_repairEntry K (l : Nodes) : keys (map (repairEntry K) l) = keys l.
Proof.
  unfold keys. rewrite map_map. apply map_ext. now intros [i n].
Qed.

(** One turn of the loop rewrites exactly its own entry. *)
Lemma sanitizeStep_middle (l1 l2 : Nodes) i n :
  ~ In i (keys l1) ->
  sanitizeStep (l1 ++ (i, n) :: l2) (i, n)
  = l1 ++ repairEntry (keys (l1 ++ (i, n) :: l2)) (i, n) :: l2.
Proof.
  intros Hni. unfold sanitizeStep, repairEntry.
  set (out := l1 ++ (i, n) :: l2).
  assert (Hf : filter (fun cid => truthyAt out cid && negb (cid =? i)) (children n)
             = filter (fun cid => seen (keys out) cid && negb (cid =? i)) (children n)).
  { apply filter_ext. intros c. now rewrite truthyAt_seen. }
  rewrite Hf. set (c := filter _ (children n)).
  assert (Hset : set out i (with_children n c)
                 = l1 ++ (i, with_children n c) :: l2).
  { unfold out. now apply set_middle. }
  rewrite Hset. rewrite get_middle by assumption. cbn [parentId with_children].
  assert (HK : keys (l1 ++ (i, with_children n c) :: l2) = keys out).
  { unfold out. now rewrite !keys_app. }
  destruct (parentId n) as [p|] eqn:Hp.
  - rewrite (truthyAt_keys_ext _ out p HK), truthyAt_seen.
    destruct (truthy p && negb (seen (keys out) p)).
    + rewrite set_middle by assumption. reflexivity.
    + unfold with_parentId, with_children; simpl. now rewrite Hp.
  - unfold with_parentId, with_children; simpl. now rewrite Hp.
Qed.

Lemma sanitize_loop_gen (l2 l1 : Nodes) K :
  NoDup (keys (l1 ++ l2)) -> K = keys (l1 ++ l2) ->
  fold_left sanitizeStep l2 (map (repairEntry K) l1 ++ l2)
  = map (repairEntry K) (l1 ++ l2).
Proof.
  revert l1. induction l2 as [|[i n] l2 IH]; intros l1 Hnd HK; cbn [fold_left].
  - now rewrite !app_nil_r.
  - assert (Hni : ~ In i (keys l1)).
    { rewrite keys_app in Hnd. simpl in Hnd.
      apply NoDup_remove_2 in Hnd. intros H. apply Hnd.
      apply in_or_app. now left. }
    rewrite sanitizeStep_middle by (rewrite keys_repairEntry; exact Hni).
    assert (HK' : keys (map (repairEntry K) l1 ++ (i, n) :: l2) = K).
    { rewrite keys_app, keys_repairEntry, HK, keys_app. reflexivity. }
    rewrite HK'.
    specialize (IH (l1 ++ [(i, n)])).
    rewrite <- app_assoc in IH. simpl in IH.
    rewrite map_app in IH. simpl in IH. rewrite <- app_assoc in IH. simpl in IH.
    apply IH; auto.
Qed.

(** The loop is a map over the entries. *)
Lemma sanitize_loop (s : Nodes) :
  NoDup (keys s) ->
  fold_left sanitizeStep s s = map (repairEntry (keys s)) s.
Proof.
  intros Hnd. apply (sanitize_loop_gen s [] (keys s)); auto.
Qed.

Lemma filter_all {A} (f : A -> bool) l :
  (forall x, In x l -> f x = true) -> filter f l = l.
Proof.
  induction l as [|x l IH]; simpl; intros H; auto.
  rewrite (H x) by auto. f_equal. apply IH. auto.
Qed.

Lemma clean_incl K K' k n : incl K K' -> clean K k n -> clean K' k n.
Proof.
  intros HI [Hc Hp]. split.
  - intros c Hin. destruct (Hc c Hin). split; [|assumption].
    now apply (seen_incl K).
  - intros p H1 H2. apply (seen_incl K); auto.
Qed.

Lemma clean_with_children K k n c :
  clean K k n -> (forall x, In x c -> seen K x = true /\ x <> k) ->
  clean K k (with_children n c).
Proof. intros [_ Hp] Hc. split; auto. Qed.

Lemma repairEntry_clean K k n : clean K k (snd (repairEntry K (k, n))).
Proof.
  unfold repairEntry; simpl. split; simpl.
  - intros c Hin. apply filter_In in Hin. destruct Hin as [_ Hin].
    apply andb_true_iff in Hin. destruct Hin as [H1 H2].
    apply negb_true_iff, String.eqb_neq in H2. auto.
  - intros p. destruct (parentId n) as [q|]; [|discriminate].
    destruct (truthy q && negb (seen K q)) eqn:E; [discriminate|].
    intros [= ->] Ht. rewrite Ht in E. simpl in E.
    now apply negb_false_iff in E.
Qed.

Lemma repairEntry_fixed K k n : clean K k n -> repairEntry K (k, n) = (k, n).
Proof.
  intros [Hc Hp]. unfold repairEntry. f_equal.
  rewrite filter_all.
  2:{ intros c Hin. destruct (Hc c Hin) as [H1 H2].
      apply andb_true_iff. split; [assumption|].
      now apply negb_true_iff, String.eqb_neq. }
  destruct n as [i kd nm p c ic tg ps ds rf]; unfold with_parentId, with_children; simpl in *.
  f_equal. destruct p as [q|]; auto.
  destruct (truthy q) eqn:Ht; simpl; auto.
  assert (Hm : seen K q = true) by auto.
  now rewrite Hm.
Qed.

Lemma idKeyed_In (s : Nodes) :
  idKeyed s = true <-> (forall k n, In (k, n) s -> k = id n).
Proof.
  unfold idKeyed. rewrite forallb_forall. split.
  - intros H k n Hin. apply String.eqb_eq. apply (H (k, n) Hin).
  - intros H [k n] Hin. apply String.eqb_eq. simpl. auto.
Qed.

Lemma snapshot_ok_spec (s : Nodes) :
  snapshot_ok s = true <->
  NoDup (keys s) /\ (forall k n, In (k, n) s -> k = id n).
Proof.
  unfold snapshot_ok. rewrite andb_true_iff, distinct_NoDup, idKeyed_In. tauto.
Qed.

(** The project ids that step 3 derives do not depend on any node's
    children. *)
Lemma projects_set (o : Nodes) k v v0 :
  get o k = Some v0 -> id v = id v0 -> kind v = kind v0 ->
  map id (filter isProject (values (set o k v)))
  = map id (filter isProject (values o)).
Proof.
  unfold values. induction o as [|[k' v'] o IH]; simpl; [discriminate|].
  destruct (k' =? k) eqn:E; simpl.
  - intros [= ->] Hi Hk. unfold isProject. rewrite Hk.
    destruct (NodeKind_eqb (kind v0) Project); simpl; congruence.
  - intros H Hi Hk. specialize (IH H Hi Hk).
    destruct (isProject v'); simpl; congruence.
Qed.

Lemma projects_In (o : Nodes) c :
  NoDup (keys o) -> (forall k n, In (k, n) o -> k = id n) ->
  In c (map id (filter isProject (values o))) ->
  exists n, get o c = Some n /\ isProject n = true.
Proof.
  intros Hnd Hid Hin. apply in_map_iff in Hin. destruct Hin as [n [<- Hin]].
  apply filter_In in Hin. destruct Hin as [Hin Hp].
  unfold values in Hin. apply in_map_iff in Hin.
  destruct Hin as [[k n'] [Heq Hin]]. simpl in Heq. subst n'.
  exists n. split; auto. rewrite <- (Hid k n Hin). now apply In_get.
Qed.

Lemma sanitize_Repaired (s : Nodes) :
  snapshot_ok s = true -> Repaired s (sanitizeNodes s).
Proof.
  intros Hok. apply snapshot_ok_spec in Hok. destruct Hok as [Hnd Hid].
  unfold sanitizeNodes. rewrite sanitize_loop by assumption.
  set (L := map (repairEntry (keys s)) s).
  assert (HKL : keys L = keys s) by apply keys_repairEntry.
  assert (HLin : forall k n, In (k, n) L ->
            exists n0, In (k, n0) s /\ (k, n) = repairEntry (keys s) (k, n0)).
  { intros k n Hin. apply in_map_iff in Hin. destruct Hin as [[k0 n0] [Heq Hin]].
    assert (k0 = k) by (unfold repairEntry in Heq; congruence). subst k0.
    exists n0. split; auto. }
  assert (HLid : forall k n, In (k, n) L -> k = id n).
  { intros k n Hin. destruct (HLin k n Hin) as [n0 [Hin0 Heq]].
    unfold repairEntry in Heq. injection Heq as ->. simpl. eauto. }
  assert (HLclean : forall k n, In (k, n) L -> clean (keys L) k n).
  { intros k n Hin. destruct (HLin k n Hin) as [n0 [Hin0 Heq]].
    rewrite HKL. replace n with (snd (repairEntry (keys s) (k, n0))).
    - apply repairEntry_clean.
    - now rewrite <- Heq. }
  assert (HLkind : rootNotProject s = true -> rootNotProject L = true).
  { unfold rootNotProject, isProjectAt. intros H.
    destruct (get L "root") as [r|] eqn:Hr; auto.
    apply get_In in Hr. destruct (HLin _ _ Hr) as [n0 [Hin0 Heq]].
    rewrite (In_get s "root" n0 Hnd Hin0) in H.
    unfold repairEntry in Heq. injection Heq as ->. exact H. }
  destruct (has L "root") eqn:Hhas.
  - (* root was there *)
    destruct (get L "root") as [root|] eqn:Hroot.
    2:{ unfold has in Hhas. rewrite Hroot in Hhas. discriminate. }
    assert (Hk : rootNotProject s = true -> isProject root = false).
    { intros H. apply HLkind in H. unfold rootNotProject, isProjectAt in H.
      rewrite Hroot in H. now apply negb_true_iff in H. }
    destruct (filter (isProjectAt L) (children root)) as [|c0 cs] eqn:Hv;
      cbn [length Nat.eqb].
    + apply mkRepaired; auto.
      * now rewrite HKL.
      * rewrite HKL. apply incl_refl.
    + apply mkRepaired; auto.
      * now rewrite HKL.
      * rewrite HKL. apply incl_refl.
      * right. rewrite Hv. split; [discriminate | reflexivity].
  - (* root is added *)
    rewrite get_set_same. cbn [rootNode plainNode children filter length Nat.eqb].
    assert (Hout : set L "root" rootNode = L ++ [("root", rootNode)])
      by now apply set_new.
    assert (HK2 : keys (set L "root" rootNode) = keys s ++ ["root"]).
    { rewrite keys_set_new by assumption. now rewrite HKL. }
    change (mkNode "root" Root "Workspace" None [] None None None None None)
      with rootNode.
    apply mkRepaired; auto.
    + apply get_set_same.
    + rewrite HK2. apply NoDup_app; auto.
      * constructor; [tauto | constructor].
      * intros x Hx [<-|[]]. rewrite <- HKL in Hx. apply has_true in Hx. congruence.
    + rewrite Hout. intros k n Hin. apply in_app_or in Hin.
      destruct Hin as [Hin|[[= <- <-]|[]]]; auto.
    + rewrite HK2. apply incl_appl, incl_refl.
    + rewrite Hout. intros k n Hin. apply in_app_or in Hin.
      destruct Hin as [Hin|[[= <- <-]|[]]].
      * apply (clean_incl (keys L)); auto.
        rewrite keys_app. apply incl_appl, incl_refl.
      * split; simpl; [tauto | discriminate].
Qed.

Section RepairedFacts.
Variables (s : Nodes) (out : Nodes) (root : TreeNode) (newc : list string).
Hypothesis Hget : get out "root" = Some root.
Hypothesis Hnd : NoDup (keys out).
Hypothesis Hid : forall k n, In (k, n) out -> k = id n.
Hypothesis Hclean : forall k n, In (k, n) out -> clean (keys out) k n.
Hypothesis Hkind : isProject root = false.
Hypothesis Hcases :
  filter (isProjectAt out) (children root) = [] /\
  newc = map id (filter isProject (values out))
  \/ filter (isProjectAt out) (children root) <> [] /\
     newc = filter (isProjectAt out) (children root).

Let R := set out "root" (with_children root newc).

Lemma rp_keys : keys R = keys out.
Proof. apply keys_set_has. unfold has. now rewrite Hget. Qed.

Lemma rp_get_root : get R "root" = Some (with_children root newc).
Proof. apply get_set_same. Qed.

(** Every new child of the root is a Project of [out] other than the
    root. *)
Lemma rp_newc_projects c :
  In c newc -> isProjectAt out c = true /\ c <> "root" /\ In c (keys out).
Proof.
  intros Hin.
  assert (Hp : isProjectAt out c = true).
  { destruct Hcases as [[_ ->]|[_ ->]].
    - destruct (projects_In out c Hnd Hid Hin) as [n [Hg Hp]].
      unfold isProjectAt. now rewrite Hg.
    - apply filter_In in Hin. tauto. }
  split; auto. split.
  - intros ->. unfold isProjectAt in Hp. rewrite Hget in Hp. congruence.
  - apply has_true. unfold has, isProjectAt in *.
    destruct (get out c); [reflexivity | discriminate].
Qed.

Lemma rp_isProjectAt c : c <> "root" -> isProjectAt R c = isProjectAt out c.
Proof.
  intros Hne. unfold isProjectAt, R. rewrite get_set_other; auto.
Qed.

Lemma rp_entries_clean k n : In (k, n) R -> clean (keys R) k n.
Proof.
  intros Hin. rewrite rp_keys. apply In_set in Hin.
  destruct Hin as [[= -> ->]|Hin]; auto.
  apply clean_with_children.
  - apply Hclean. now apply get_In.
  - intros x Hx. destruct (rp_newc_projects x Hx) as [_ [H1 H2]].
    split; [now apply seen_In | assumption].
Qed.

Lemma rp_entries_ids k n : In (k, n) R -> k = id n.
Proof.
  intros Hin. apply In_set in Hin.
  destruct Hin as [[= -> ->]|Hin]; auto.
  simpl. apply Hid. now apply get_In.
Qed.

Lemma rp_projects :
  map id (filter isProject (values R)) = map id (filter isProject (values out)).
Proof. apply (projects_set out "root" _ root); auto. Qed.

(** Step 3 run again writes the same children. *)
Lemma rp_step3 :
  (if Nat.eqb (length (filter (isProjectAt R) newc)) 0
   then set R "root" (with_children (with_children root newc)
                        (map id (filter isProject (values R))))
   else set R "root" (with_children (with_children root newc)
                        (filter (isProjectAt R) newc)))
  = R.
Proof.
  assert (Hf : filter (isProjectAt R) newc = newc).
  { apply filter_all. intros c Hc.
    destruct (rp_newc_projects c Hc) as [H1 [H2 _]].
    now rewrite rp_isProjectAt. }
  rewrite Hf. destruct (Nat.eqb (length newc) 0) eqn:E.
  - apply Nat.eqb_eq, length_zero_iff_nil in E.
    rewrite rp_projects.
    assert (Hp : map id (filter isProject (values out)) = []).
    { destruct Hcases as [[_ H]|[H1 H2]]; [congruence|].
      rewrite <- H2 in H1. congruence. }
    rewrite Hp. apply set_get_id. unfold R. rewrite get_set_same.
    unfold with_children; simpl. now rewrite E.
  - apply set_get_id. unfold R. rewrite get_set_same. reflexivity.
Qed.

Lemma rp_loop_fixed : map (repairEntry (keys R)) R = R.
Proof.
  transitivity (map (fun e : string * TreeNode => e) R); [|apply map_id].
  apply map_ext_in. intros [k n] Hin.
  apply repairEntry_fixed. now apply rp_entries_clean.
Qed.

Lemma rp_idempotent : sanitizeNodes R = R.
Proof.
  unfold sanitizeNodes.
  rewrite sanitize_loop by (rewrite rp_keys; exact Hnd).
  rewrite rp_loop_fixed.
  assert (Hh : has R "root" = true) by (unfold has; now rewrite rp_get_root).
  rewrite Hh, rp_get_root. cbn [children with_children].
  apply rp_step3.
Qed.
End RepairedFacts.

Lemma sanitize_ok (s : Nodes) :
  snapshot_ok s = true -> snapshot_ok (sanitizeNodes s) = true.
Proof.
  intros Hok. destruct (sanitize_Repaired s Hok)
    as [out root newc Hget Hnd Hid Hincl Hclean Hkind Hcases].
  apply snapshot_ok_spec. split.
  - rewrite keys_set_has; auto. unfold has. now rewrite Hget.
  - intros k n Hin. apply In_set in Hin.
    destruct Hin as [[= -> ->]|Hin]; auto.
    simpl. apply Hid. now apply get_In.
Qed.

(** Apart from a ["root"] entry of kind Project, repair is idempotent. *)
Lemma idempotent_unless_root_project (s : Nodes) :
  snapshot_ok s = true -> rootNotProject s = true ->
  sanitizeNodes (sanitizeNodes s) = sanitizeNodes s.
Proof.
  intros Hok Hroot.
  destruct (sanitize_Repaired s Hok)
    as [out root newc Hget Hnd Hid Hincl Hclean Hkind Hcases].
  apply rp_idempotent; auto.
Qed.

(** Apart from a ["root"] entry of kind Project, every child id that
    repair leaves is found by a lookup in the result (it is a key, or a
    name inherited from [Object.prototype]) and is not the node's own
    id. *)
Lemma children_found_unless_root_project (s : Nodes) :
  snapshot_ok s = true -> rootNotProject s = true ->
  forall k n, get (sanitizeNodes s) k = Some n ->
  forall c, In c (children n) ->
    truthyAt (sanitizeNodes s) c = true /\ c <> id n /\ c <> k.
Proof.
  intros Hok Hroot k n Hg c Hc.
  destruct (sanitize_Repaired s Hok)
    as [out root newc Hget Hnd Hid Hincl Hclean Hkind Hcases].
  specialize (Hkind Hroot).
  apply get_In in Hg.
  pose proof (rp_entries_clean out root newc Hget Hnd Hid Hclean Hkind
                Hcases k n Hg) as [Hch _].
  pose proof (rp_entries_ids out root newc Hget Hid k n Hg) as Hk.
  destruct (Hch c Hc) as [H1 H2].
  split; [now rewrite truthyAt_seen|]. split; congruence.
Qed.

(** A child id that is a name of [Object.prototype] survives repair
    although the result has no such key. *)
Lemma inherited_child_kept :
  sanitizeNodes protoTree
  = [ ("root", plainNode "root" Root "Workspace" None ["p"]);
      ("p", plainNode "p" Project "P" (Some "root") ["constructor"]) ] /\
  has (sanitizeNodes protoTree) "constructor" = false.
Proof. split; reflexivity. Qed.

End Repair.

(** C1, at the failing input.  Repair is not idempotent.  In
    [rootIsProject2] the entry under
    ["root"] is of kind Project and lists no child.  The first repair
    writes the ids of all Project nodes into its children, the root's own
    id among them; the second repair filters that self reference out in
    step 1 and writes the remaining child in step 3. *)
Theorem sanitizeNodes_not_idempotent :
  sanitizeNodes rootIsProject2
  = [ ("root", plainNode "root" Project "Workspace" None ["root"; "p"]);
      ("p", plainNode "p" Project "P" None []) ] /\
  sanitizeNodes (sanitizeNodes rootIsProject2)
  = [ ("root", plainNode "root" Project "Workspace" None ["p"]);
      ("p", plainNode "p" Project "P" None []) ] /\
  sanitizeNodes (sanitizeNodes rootIsProject2) <> sanitizeNodes rootIsProject2.
Proof.
  split; [reflexivity|]. split; [reflexivity|].
  vm_compute. intros H. discriminate H.
Qed.

(** C5, at two failing inputs.  Repair can leave a node among its own
    children, and a child that is no key of the result.
    - In [rootIsProject] the entry under ["root"] is the only Project, and
      step 3 writes its id into its own children after step 1 has filtered
      self references out.
    - In [protoTree] the project lists the child ["constructor"]; step 1
      keeps it, because [out["constructor"]] is the function that every
      object inherits, and the result has no such key. *)
Theorem sanitizeNodes_self_child :
  (sanitizeNodes rootIsProject
   = [ ("root", plainNode "root" Project "Workspace" None ["root"]) ] /\
   exists n, Obj.get (sanitizeNodes rootIsProject) "root" = Some n /\
             id n = "root" /\ In (id n) (children n)) /\
  (sanitizeNodes protoTree
   = [ ("root", plainNode "root" Root "Workspace" None ["p"]);
       ("p", plainNode "p" Project "P" (Some "root") ["constructor"]) ] /\
   exists n, Obj.get (sanitizeNodes protoTree) "p" = Some n /\
             In "constructor" (children n) /\
             Obj.has (sanitizeNodes protoTree) "constructor" = false).
Proof.
  split.
  - split; [reflexivity|]. eexists. split; [reflexivity|].
    split; [reflexivity|]. simpl. auto.
  - split; [reflexivity|]. eexists. split; [reflexivity|].
    split; [simpl; auto | reflexivity].
Qed.

(** ** Move operations *)

Module Move.
Import Obj ObjFacts.

Lemma NodeKind_eqb_eq a b : NodeKind_eqb a b = true <-> a = b.
Proof. destruct a, b; simpl; split; intros H; try reflexivity; discriminate. Qed.

Lemma moveBuildingToSite_relocate b t prev :
  moveBuildingToSite b t prev = relocate Building Site b t prev.
Proof. reflexivity. Qed.

Lemma moveStoreyToBuilding_relocate s t prev :
  moveStoreyToBuilding s t prev = relocate Storey Building s t prev.
Proof. reflexivity. Qed.

Lemma relocate_noop ck pk c t prev :
  canRelocate ck pk c t prev = false -> relocate ck pk c t prev = Ok prev.
Proof.
  unfold canRelocate, relocate.
  destruct (get prev c) as [nc|]; auto.
  destruct (NodeKind_eqb (kind nc) ck); simpl; auto.
  destruct (get prev t) as [nt|]; auto.
  destruct (NodeKind_eqb (kind nt) pk); simpl; auto.
  destruct (sameId (parentId nc) t); simpl; auto. discriminate.
Qed.

(** Detaching throws exactly when the parent id is truthy and found only
    as an inherited name. *)
Lemma detach_ok c p d :
  match p with Some old => truthy old && inheritedAt d old | None => false end
  = false ->
  exists d', detachFromParent c p d = Ok d' /\ keys d' = keys d /\
    (forall k, p <> Some k -> get d' k = get d k) /\
    (forall old o, p = Some old -> truthy old = true -> get d old = Some o ->
       get d' old = Some (with_children o (filter (notId c) (children o)))).
Proof.
  unfold detachFromParent, inheritedAt, has. destruct p as [pid|].
  2:{ intros _. exists d. repeat split; auto. discriminate. }
  destruct (truthy pid) eqn:Ht; cbn [andb].
  2:{ intros _. exists d. repeat split; auto. intros old o [= <-]. congruence. }
  destruct (get d pid) as [q|] eqn:E; cbn [negb andb].
  - intros _. eexists. split; [reflexivity|]. split; [|split].
    + apply keys_set_has. unfold has. now rewrite E.
    + intros k Hk. apply get_set_other. congruence.
    + intros old o [= <-] _ Ho. rewrite get_set_same. congruence.
  - intros H. rewrite H. exists d. repeat split; auto.
    intros old o [= <-]. congruence.
Qed.

Lemma detach_throws c old d :
  truthy old = true -> inheritedAt d old = true ->
  detachFromParent c (Some old) d = Throw TypeError.
Proof.
  unfold detachFromParent, inheritedAt, has. intros -> H.
  destruct (get d old); [discriminate|]. cbn [negb andb] in H. now rewrite H.
Qed.

Lemma attach_ok c p d t :
  get d p = Some t ->
  exists d', attachToParent c p d = Ok d' /\ keys d' = keys d /\
    (forall k, p <> k -> get d' k = get d k) /\
    get d' p = Some (with_children t (children t ++ [c])).
Proof.
  intros Hg. unfold attachToParent. rewrite Hg.
  eexists. split; [reflexivity|]. split; [|split].
  - apply keys_set_has. unfold has. now rewrite Hg.
  - intros k Hk. now apply get_set_other.
  - apply get_set_same.
Qed.

Lemma sameId_false p t : sameId p t = false <-> p <> Some t.
Proof.
  unfold sameId. destruct p as [o|].
  - rewrite String.eqb_neq. split; congruence.
  - split; [discriminate | reflexivity].
Qed.

(** A move that can go through does, unless the parent id of the node is
    found only as an inherited name. *)
Lemma relocate_moves ck pk c t prev :
  ck <> pk -> canRelocate ck pk c t prev = true ->
  parentInherited c prev = false ->
  exists next, relocate ck pk c t prev = Ok next /\ relocated c t prev next.
Proof.
  intros Hkinds. unfold canRelocate, relocate, parentInherited.
  destruct (get prev c) as [nc|] eqn:Hc; [|discriminate].
  destruct (get prev t) as [nt|] eqn:Ht; [|discriminate].
  intros H Hinh. apply andb_true_iff in H. destruct H as [H H3].
  apply andb_true_iff in H. destruct H as [H1 H2].
  rewrite H1, H2. apply negb_true_iff in H3. rewrite H3. simpl.
  apply NodeKind_eqb_eq in H1, H2. apply sameId_false in H3.
  assert (Hct : c <> t) by (intros ->; congruence).
  destruct (detach_ok c (parentId nc) prev Hinh) as [d1 [E1 [K1 [O1 S1]]]].
  rewrite E1. cbn [bind].
  assert (Ht1 : get d1 t = Some nt) by (rewrite O1; auto).
  destruct (attach_ok c t d1 nt Ht1) as [d2 [E2 [K2 [O2 S2]]]].
  rewrite E2. cbn [bind]. eexists. split; [reflexivity|].
  exists nc, nt. repeat split; auto.
  - apply get_set_same.
  - rewrite get_set_other by auto. exact S2.
  - intros old o Ho Htr Hoc Hgo.
    rewrite get_set_other by auto.
    rewrite O2 by congruence. now apply S1.
  - intros k Hk1 Hk2 Hk3.
    rewrite get_set_other by auto.
    rewrite O2 by auto. now apply O1.
  - rewrite keys_set_has.
    + now rewrite K2, K1.
    + apply has_true. rewrite K2, K1. apply has_true.
      unfold has. now rewrite Hc.
Qed.

Lemma relocate_throws ck pk c t prev :
  canRelocate ck pk c t prev = true -> parentInherited c prev = true ->
  relocate ck pk c t prev = Throw TypeError.
Proof.
  unfold canRelocate, relocate, parentInherited.
  destruct (get prev c) as [nc|] eqn:Hc; [|discriminate].
  destruct (get prev t) as [nt|] eqn:Ht; [|discriminate].
  intros H Hinh. apply andb_true_iff in H. destruct H as [H H3].
  apply andb_true_iff in H. destruct H as [H1 H2].
  rewrite H1, H2. apply negb_true_iff in H3. rewrite H3. simpl.
  destruct (parentId nc) as [old|]; [|discriminate].
  apply andb_true_iff in Hinh. destruct Hinh as [Htr Hin].
  now rewrite detach_throws.
Qed.

Lemma moveObject_noop o g prev :
  canMoveObject o g prev = false -> moveObjectToGroup o g prev = prev.
Proof.
  unfold canMoveObject, moveObjectToGroup.
  destruct (get prev o) as [no|]; auto.
  destruct (NodeKind_eqb (kind no) Object); simpl; auto.
  destruct (get prev g) as [ng|]; auto.
  destruct (NodeKind_eqb (kind ng) ClassGroup); simpl; auto.
  destruct (parentId no) as [old|]; auto.
  destruct (truthy old); simpl; auto. discriminate.
Qed.

Lemma moveObject_moves o g prev :
  canMoveObject o g prev = true ->
  objectMoved o g prev (moveObjectToGroup o g prev).
Proof.
  unfold canMoveObject, moveObjectToGroup.
  destruct (get prev o) as [no|] eqn:Ho; [|discriminate].
  destruct (get prev g) as [ng|] eqn:Hg; [|discriminate].
  intros H. apply andb_true_iff in H. destruct H as [H H3].
  apply andb_true_iff in H. destruct H as [H1 H2].
  rewrite H1, H2. simpl.
  destruct (parentId no) as [old|] eqn:Hp; [|discriminate].
  rewrite H3. simpl.
  apply NodeKind_eqb_eq in H1, H2.
  assert (Hog : o <> g) by (intros ->; congruence).
  set (next1 := match get prev old with
                | Some oldGroup =>
                    if NodeKind_eqb (kind oldGroup) ClassGroup
                    then set prev old (with_children oldGroup
                                         (filter (notId o) (children oldGroup)))
                    else prev
                | None => prev
                end).
  assert (Hk1 : keys next1 = keys prev).
  { unfold next1. destruct (get prev old) as [og|] eqn:E; auto.
    destruct (NodeKind_eqb (kind og) ClassGroup); auto.
    apply keys_set_has. unfold has. now rewrite E. }
  assert (Hother : forall k, k <> old -> get next1 k = get prev k).
  { intros k Hk. unfold next1. destruct (get prev old) as [og|]; auto.
    destruct (NodeKind_eqb (kind og) ClassGroup); auto.
    apply get_set_other. congruence. }
  exists no, ng, old. repeat split; auto.
  - apply get_set_same.
  - rewrite get_set_other by auto. apply get_set_same.
  - intros og Hne Hgo Hk.
    assert (old <> o) by (intros ->; congruence).
    rewrite !get_set_other by auto.
    unfold next1. rewrite Hgo.
    apply NodeKind_eqb_eq in Hk. rewrite Hk. apply get_set_same.
  - intros og Hne Hgo Hk.
    assert (old <> g) by (intros ->; congruence).
    rewrite !get_set_other by auto.
    unfold next1. rewrite Hgo.
    destruct (NodeKind_eqb (kind og) ClassGroup) eqn:E; auto.
    apply NodeKind_eqb_eq in E. contradiction.
  - intros k Hk1' Hk2 Hk3. rewrite !get_set_other by auto. auto.
  - assert (Hh : has (set next1 g (with_children ng (children ng ++ [o]))) o = true).
    { apply has_true. rewrite keys_set_has.
      - rewrite Hk1. apply has_true. unfold has. now rewrite Ho.
      - apply has_true. rewrite Hk1. apply has_true. unfold has. now rewrite Hg. }
    rewrite keys_set_has by exact Hh.
    rewrite keys_set_has.
    + exact Hk1.
    + apply has_true. rewrite Hk1. apply has_true. unfold has. now rewrite Hg.
Qed.

(** The three primitive moves.  Each returns the input snapshot when the
    move cannot go through: an id is missing, the moved node or the
    target has the wrong kind, the building or storey already has the
    target as parent, or the object has no parent id.  Otherwise a
    building or storey move throws when the old parent id is found only
    as an inherited name, and else the node gets the new [parentId] (an
    object also the target's class), is appended to the target's
    children, and is removed from the old parent's children (for an
    object: only when the old parent is a ClassGroup other than the
    target); every other node is unchanged. *)
Lemma primitive_moves :
  (forall ck pk c t prev, ck <> pk ->
     (canRelocate ck pk c t prev = false -> relocate ck pk c t prev = Ok prev) /\
     (canRelocate ck pk c t prev = true -> parentInherited c prev = true ->
        relocate ck pk c t prev = Throw TypeError) /\
     (canRelocate ck pk c t prev = true -> parentInherited c prev = false ->
        exists next, relocate ck pk c t prev = Ok next /\
                     relocated c t prev next)) /\
  (forall o g prev,
     (canMoveObject o g prev = false -> moveObjectToGroup o g prev = prev) /\
     (canMoveObject o g prev = true ->
        objectMoved o g prev (moveObjectToGroup o g prev))).
Proof.
  split.
  - intros ck pk c t prev Hk. split; [apply relocate_noop|]. split.
    + apply relocate_throws.
    + now apply relocate_moves.
  - intros o g prev. split; [apply moveObject_noop | apply moveObject_moves].
Qed.

(** An object without a parent id is not moved although both ids exist
    and the target is a ClassGroup. *)
Lemma orphan_not_moved :
  canMoveObject "o" "g" orphanTree = false /\
  moveObjectToGroup "o" "g" orphanTree = orphanTree.
Proof. split; reflexivity. Qed.

(** [moveStoreyToSite] onto a site id that is missing: [ensureBuilding]
    finds no building and queues an updater that reads
    [next[siteId].children], which throws. *)
Lemma moveStoreyToSite_missing_site bid :
  bid <> "nowhere" ->
  Obj.has noSite "nowhere" = false /\
  moveStoreyToSite bid noSite "st" "nowhere" noSite = Throw TypeError.
Proof.
  intros Hne. split; [reflexivity|].
  unfold moveStoreyToSite, ensureBuilding.
  change (getBuildingsOfSite noSite "nowhere") with (@Ok (list string) []).
  cbn [bind]. unfold addBuildingTo.
  rewrite get_set_other by exact Hne. reflexivity.
Qed.

End Move.

(** C7, at two failing inputs.  A move can throw instead of moving or of
    returning its input.
    - In [noSite] the target id ["nowhere"] is missing, so the move is to
      return the input snapshot; [moveStoreyToSite] does not look the
      target up: [ensureBuilding] finds no building and queues an updater
      that reads [next[siteId].children] of the missing site, which throws
      a TypeError ([bid] is the id that [uid("building")] returned).
    - In [inheritedParent] both ids exist, the node is a Building and the
      target a Site, so the move is due; the [parentId] of the building is
      ["constructor"], which [draft[parentId]] finds as the inherited
      [Object] function, and [p.children.filter] throws a TypeError. *)
Theorem move_operations_throw :
  (forall bid, bid <> "nowhere" ->
     Obj.has noSite "nowhere" = false /\
     moveStoreyToSite bid noSite "st" "nowhere" noSite = Throw TypeError) /\
  (exists b s, Obj.get inheritedParent "b" = Some b /\
               Obj.get inheritedParent "s" = Some s /\
               kind b = Building /\ kind s = Site /\
               parentId b = Some "constructor" /\
               Obj.has inheritedParent "constructor" = false) /\
  canRelocate Building Site "b" "s" inheritedParent = true /\
  moveBuildingToSite "b" "s" inheritedParent = Throw TypeError.
Proof.
  split.
  - intros bid Hne. apply Move.moveStoreyToSite_missing_site. exact Hne.
  - split; [do 2 eexists; repeat split; reflexivity|].
    split; reflexivity.
Qed.

Lemma move_operations_throw_witness :
  moveStoreyToSite "building_1" noSite "st" "nowhere" noSite = Throw TypeError.
Proof.
  apply (proj1 move_operations_throw "building_1"). discriminate.
Defined.

(** ** The identifier codec *)

Module Guid.

Lemma toBase64Chars_char n :
  exists c, toBase64Chars n = String c "" /\ inAlphabet c.
Proof.
  unfold toBase64Chars. destruct (n <? 0)%Z.
  - exists "0"%char. split; auto. now exists 0.
  - destruct (String.get (Z.to_nat n) base64Chars) as [c|] eqn:E.
    + exists c. split; auto. now exists (Z.to_nat n).
    + exists "0"%char. split; auto. now exists 0.
Qed.

Lemma length_append (a b : string) :
  String.length (a ++ b)%string = String.length a + String.length b.
Proof. induction a; simpl; auto. Qed.

Lemma allChars_append P (a b : string) :
  allChars P a -> allChars P b -> allChars P (a ++ b)%string.
Proof. induction a; simpl; intros; tauto. Qed.

(** Appending one alphabet character per turn. *)
Lemma digits_loop (f : nat -> Z) (l : list nat) (acc : string) :
  allChars inAlphabet acc ->
  let r := fold_left (fun result i => (result ++ toBase64Chars (f i))%string) l acc in
  String.length r = String.length acc + length l /\ allChars inAlphabet r.
Proof.
  revert acc. induction l as [|i l IH]; intros acc Hacc; simpl.
  - split; [lia | assumption].
  - destruct (toBase64Chars_char (f i)) as [c [Hc Hin]].
    destruct (IH (acc ++ toBase64Chars (f i))%string) as [H1 H2].
    + apply allChars_append; auto. rewrite Hc. simpl. auto.
    + split; auto. rewrite H1, length_append, Hc. simpl. lia.
Qed.

(** Whatever the 32 characters are, the result has 22 characters of the
    alphabet. *)
Lemma ifcGuidFromUuid_shape (uuid : string) :
  String.length (removeDashes uuid) = 32 ->
  exists g, ifcGuidFromUuid uuid = Ok g /\ String.length g = 22 /\
            allChars inAlphabet g.
Proof.
  intros H. unfold ifcGuidFromUuid. rewrite H. cbn [Nat.eqb negb].
  eexists. split; [reflexivity|].
  match goal with
  | |- context [fold_left ?F (seq 0 22) ""] =>
      match F with
      | (fun result i => (result ++ toBase64Chars (@?f i))%string) =>
          pose proof (digits_loop f (seq 0 22) "" I) as [H1 H2]
      end
  end.
  split; [exact H1 | exact H2].
Qed.

(** Only the length is checked. *)
Lemma ifcGuidFromUuid_throws (uuid : string) :
  String.length (removeDashes uuid) <> 32 ->
  ifcGuidFromUuid uuid = Throw "UUID must be 32 hex chars".
Proof.
  intros H. unfold ifcGuidFromUuid.
  apply Nat.eqb_neq in H. now rewrite H.
Qed.

(** *** [uuidv4] always has 32 characters besides its separators *)

Lemma removeDashes_app (a b : string) :
  removeDashes (a ++ b)%string = (removeDashes a ++ removeDashes b)%string.
Proof.
  induction a as [|c a IH]; simpl; auto.
  destruct (Ascii.eqb c "-"); simpl; now rewrite IH.
Qed.

Lemma removeDashes_noDash (s : string) : noDash s -> removeDashes s = s.
Proof.
  unfold noDash. induction s as [|c s IH]; simpl; auto.
  intros [Hc Hs]. apply Ascii.eqb_neq in Hc. rewrite Hc. now rewrite IH.
Qed.

Lemma noDash_substring (s : string) : forall a n,
  noDash s -> noDash (substring a n s).
Proof.
  unfold noDash. induction s as [|c s IH]; intros a n H.
  - destruct a, n; exact I.
  - destruct H as [Hc Hs]. destruct a as [|a]; simpl.
    + destruct n as [|n]; simpl; auto.
    + auto.
Qed.

Lemma length_substring (s : string) : forall a n,
  a + n <= String.length s -> String.length (substring a n s) = n.
Proof.
  induction s as [|c s IH]; intros a n H; simpl in H.
  - assert (a = 0) by lia. assert (n = 0) by lia. now subst.
  - destruct a as [|a]; simpl.
    + destruct n as [|n]; simpl; auto. rewrite IH; auto. lia.
    + apply IH. lia.
Qed.

Lemma hexDigit_noDash d : hexDigit d <> "-"%char.
Proof.
  unfold hexDigit.
  destruct (String.get (Z.to_nat d) "0123456789abcdef") as [c|] eqn:E;
    [|discriminate].
  revert E. generalize (Z.to_nat d) as n. intros n.
  do 16 (destruct n as [|n]; [intros [= <-]; discriminate|]).
  discriminate.
Qed.

Lemma concat_byteHex (l : list Z) :
  String.length (String.concat "" (map byteHex l)) = 2 * length l
  /\ noDash (String.concat "" (map byteHex l)).
Proof.
  induction l as [|b l [IH1 IH2]].
  - split; [reflexivity | exact I].
  - cbn [map String.concat length].
    destruct (map byteHex l) as [|h t] eqn:E.
    + destruct l; [|discriminate]. split; [reflexivity|].
      simpl. repeat split; apply hexDigit_noDash.
    + cbn [byteHex append] in *. split.
      * cbn [String.length]. rewrite IH1. lia.
      * simpl. repeat split; try apply hexDigit_noDash. exact IH2.
Qed.

Lemma length_setNth {A} (l : list A) : forall i v, length (setNth l i v) = length l.
Proof.
  induction l as [|x l IH]; intros [|i] v; simpl; auto.
Qed.

Lemma uuidv4_length (rnd : list Z) :
  String.length (removeDashes (uuidv4 rnd)) = 32.
Proof.
  unfold uuidv4.
  match goal with
  | |- context [String.concat "" (map byteHex ?b)] =>
      destruct (concat_byteHex b) as [HL HD];
      assert (Hb : length b = 16)
        by (rewrite !length_setNth, length_map, length_seq; reflexivity);
      rewrite Hb in HL; change (2 * 16) with 32 in HL;
      generalize dependent (String.concat "" (map byteHex b))
  end.
  intros hex HL HD. rewrite HL. unfold slice.
  rewrite !removeDashes_app.
  rewrite !(removeDashes_noDash (substring _ _ hex))
    by (apply noDash_substring; exact HD).
  change (removeDashes "-") with "".
  rewrite !length_append, !length_substring by (rewrite HL; simpl; lia).
  reflexivity.
Qed.

Lemma ifcGuid_uuidv4 (rnd : list Z) :
  exists g, ifcGuidFromUuid (uuidv4 rnd) = Ok g /\ String.length g = 22.
Proof.
  destruct (ifcGuidFromUuid_shape (uuidv4 rnd) (uuidv4_length rnd))
    as [g [H1 [H2 _]]].
  eauto.
Qed.

End Guid.

(** C3, at the failing input.  [nonHexUuid] has 32 characters after the
    separators are removed, none of them a hex digit; [ifcGuidFromUuid]
    does not throw on it but returns a value (every pair is read as NaN and
    stored as the byte 0). *)
Theorem ifcGuidFromUuid_accepts_non_hex :
  String.length (removeDashes nonHexUuid) = 32 /\
  allChars (fun c => hexVal c = None) (removeDashes nonHexUuid) /\
  ifcGuidFromUuid nonHexUuid = Ok "0000000000000000000000".
Proof.
  split; [reflexivity|]. split; [|reflexivity].
  simpl. repeat split.
Qed.

(** ** The tag engine's retry loops *)

Module Tags.

Lemma candidateAt_zero p tm n step : candidateAt p tm n step 0 = applyPattern p tm n.
Proof. reflexivity. Qed.

Lemma candidateAt_shift p tm n step i :
  candidateAt p tm (numAdd n step) step i = candidateAt p tm n step (S i).
Proof. reflexivity. Qed.

Lemma next_fst mode start step cls st :
  fst (nextNumberFor mode start step cls st) = peekNumber mode start cls st.
Proof. unfold peekNumber. now destruct mode. Qed.

Lemma next_peek mode start step cls st :
  peekNumber mode start cls (snd (nextNumberFor mode start step cls st))
  = numAdd (peekNumber mode start cls st) step.
Proof.
  unfold peekNumber. destruct mode; cbn [nextNumberFor fst snd globalCounter classCounters]; auto.
  now rewrite ObjFacts.get_set_same.
Qed.

(** Adding 1 to [2^53] gives [2^53] again: a counter that has reached it
    stays there. *)
Lemma advance_stalls j : advance (ofZ 1) j (ofZ (2 ^ 53)) = ofZ (2 ^ 53).
Proof.
  induction j as [|j IH]; [reflexivity|].
  cbn [advance].
  replace (numAdd (ofZ (2 ^ 53)) (ofZ 1)) with (ofZ (2 ^ 53))
    by (vm_compute; reflexivity).
  exact IH.
Qed.

Section Loops.
Variables (step : number) (pattern : string) (tokenMap : TokenMap)
          (used : list string).

(** *** [createObject] *)

Lemma batchRetry_free fuel skip n c :
  skip && memb used c = false ->
  batchRetry fuel step pattern tokenMap skip used n c = Some (n, c).
Proof. intros H. destruct fuel; cbn [batchRetry]; now rewrite H. Qed.

Lemma batchRetry_finds j : forall fuel n,
  (forall i, i < j -> memb used (candidateAt pattern tokenMap n step i) = true) ->
  memb used (candidateAt pattern tokenMap n step j) = false ->
  j <= fuel ->
  batchRetry fuel step pattern tokenMap true used n (applyPattern pattern tokenMap n)
  = Some (advance step j n, candidateAt pattern tokenMap n step j).
Proof.
  induction j as [|j IH]; intros fuel n Hused Hfree Hfuel.
  - rewrite candidateAt_zero in Hfree.
    rewrite batchRetry_free by (now rewrite Hfree).
    reflexivity.
  - destruct fuel as [|fuel]; [lia|]. cbn [batchRetry andb].
    pose proof (Hused 0 (Nat.lt_0_succ j)) as H0.
    rewrite candidateAt_zero in H0. rewrite H0.
    rewrite (IH fuel (numAdd n step)).
    + reflexivity.
    + intros i Hi. rewrite candidateAt_shift. apply Hused. lia.
    + now rewrite candidateAt_shift.
    + lia.
Qed.

Lemma batchRetry_runs_out fuel : forall n,
  (forall i, i <= fuel -> memb used (candidateAt pattern tokenMap n step i) = true) ->
  batchRetry fuel step pattern tokenMap true used n (applyPattern pattern tokenMap n)
  = None.
Proof.
  induction fuel as [|fuel IH]; intros n Hused; cbn [batchRetry andb].
  - pose proof (Hused 0 (Nat.le_refl 0)) as H0.
    rewrite candidateAt_zero in H0. now rewrite H0.
  - pose proof (Hused 0 (Nat.le_0_l _)) as H0.
    rewrite candidateAt_zero in H0. rewrite H0.
    apply IH. intros i Hi. rewrite candidateAt_shift. apply Hused. lia.
Qed.

(** Without a counter token every label tried is the pattern itself. *)
Lemma batchRetry_TAG fuel : forall n,
  batchRetry fuel step "TAG" tokenMap true ["TAG"] n "TAG" = None.
Proof.
  induction fuel as [|fuel IH]; intros n; cbn [batchRetry];
    change (true && memb ["TAG"] "TAG") with true; cbv iota;
    [reflexivity|].
  change (applyPattern "TAG" tokenMap (numAdd n step)) with "TAG". apply IH.
Qed.

(** *** [bulkApplyTags] *)

Variables (mode : CounterMode) (start : number) (cls : string).

Lemma bulkRetry_TAG fuel : forall st,
  bulkRetry fuel mode start step "TAG" tokenMap cls ["TAG"] st "TAG" = None.
Proof.
  induction fuel as [|fuel IH]; intros st; cbn [bulkRetry];
    change (memb ["TAG"] "TAG") with true; cbv iota; [reflexivity|].
  destruct (nextNumberFor mode start step cls st) as [num st1].
  change (applyPattern "TAG" tokenMap num) with "TAG". apply IH.
Qed.

Lemma bulkRetry_free fuel st c :
  memb used c = false ->
  bulkRetry fuel mode start step pattern tokenMap cls used st c = Some (st, c).
Proof. intros H. destruct fuel; cbn [bulkRetry]; now rewrite H. Qed.

Lemma bulkRetry_finds j : forall fuel st c,
  memb used c = true ->
  (forall i, i < j ->
     memb used (candidateAt pattern tokenMap (peekNumber mode start cls st) step i)
     = true) ->
  memb used (candidateAt pattern tokenMap (peekNumber mode start cls st) step j)
  = false ->
  S j <= fuel ->
  exists st',
    bulkRetry fuel mode start step pattern tokenMap cls used st c
    = Some (st', candidateAt pattern tokenMap (peekNumber mode start cls st) step j)
    /\ peekNumber mode start cls st'
       = advance step (S j) (peekNumber mode start cls st).
Proof.
  induction j as [|j IH]; intros fuel st c Hc Hused Hfree Hfuel;
    (destruct fuel as [|fuel]; [lia|]); cbn [bulkRetry]; rewrite Hc;
    pose proof (next_fst mode start step cls st) as Hn;
    pose proof (next_peek mode start step cls st) as Hp;
    destruct (nextNumberFor mode start step cls st) as [num st1];
    cbn [fst snd] in Hn, Hp; subst num.
  - rewrite candidateAt_zero in Hfree.
    rewrite bulkRetry_free by assumption.
    exists st1. rewrite candidateAt_zero. split; auto.
  - pose proof (Hused 0 (Nat.lt_0_succ j)) as H0.
    rewrite candidateAt_zero in H0.
    destruct (IH fuel st1 _ H0) as [st' [Heq Hpk]].
    + intros i Hi. rewrite Hp, candidateAt_shift. apply Hused. lia.
    + now rewrite Hp, candidateAt_shift.
    + lia.
    + exists st'. rewrite Heq, Hpk, Hp, candidateAt_shift. split; auto.
Qed.

Lemma bulkRetry_runs_out fuel : forall st c,
  memb used c = true ->
  (forall i, i < fuel ->
     memb used (candidateAt pattern tokenMap (peekNumber mode start cls st) step i)
     = true) ->
  bulkRetry fuel mode start step pattern tokenMap cls used st c = None.
Proof.
  induction fuel as [|fuel IH]; intros st c Hc Hused; cbn [bulkRetry];
    rewrite Hc; auto.
  pose proof (next_fst mode start step cls st) as Hn.
  pose proof (next_peek mode start step cls st) as Hp.
  destruct (nextNumberFor mode start step cls st) as [num st1].
  cbn [fst snd] in Hn, Hp; subst num.
  apply IH.
  - rewrite <- candidateAt_zero with (step := step). apply Hused. lia.
  - intros i Hi. rewrite Hp, candidateAt_shift. apply Hused. lia.
Qed.

End Loops.

End Tags.

(** C4 (as amended).  The uniqueness retry loops of the batch branch of
    [createObject] and of [bulkApplyTags] have no ceiling and no
    PatternExhausted failure.  They try the labels of the counter values
    [n], [n + step], [(n + step) + step], ... in turn, [+] being the
    addition of JavaScript numbers: if the [j]-th of them is the first free
    one, the loop returns it after [j] turns, whatever [j] is; and as long
    as the labels tried are all used, the loop is still running ([None] for
    that many turns), so it never ends when none is free. *)
Theorem tag_retry_unbounded
    (step : number) (pattern : string) (tokenMap : TokenMap)
    (used : list string) :
  (forall n j fuel,
     (forall i, i < j -> memb used (candidateAt pattern tokenMap n step i) = true) ->
     memb used (candidateAt pattern tokenMap n step j) = false ->
     j <= fuel ->
     batchRetry fuel step pattern tokenMap true used n
                (applyPattern pattern tokenMap n)
     = Some (advance step j n, candidateAt pattern tokenMap n step j)) /\
  (forall n fuel,
     (forall i, i <= fuel -> memb used (candidateAt pattern tokenMap n step i) = true) ->
     batchRetry fuel step pattern tokenMap true used n
                (applyPattern pattern tokenMap n) = None) /\
  (forall mode start cls st c j fuel,
     memb used c = true ->
     (forall i, i < j ->
        memb used (candidateAt pattern tokenMap (peekNumber mode start cls st) step i)
        = true) ->
     memb used (candidateAt pattern tokenMap (peekNumber mode start cls st) step j)
     = false ->
     S j <= fuel ->
     exists st',
       bulkRetry fuel mode start step pattern tokenMap cls used st c
       = Some (st', candidateAt pattern tokenMap (peekNumber mode start cls st) step j) /\
       peekNumber mode start cls st'
       = advance step (S j) (peekNumber mode start cls st)) /\
  (forall mode start cls st c fuel,
     memb used c = true ->
     (forall i, i < fuel ->
        memb used (candidateAt pattern tokenMap (peekNumber mode start cls st) step i)
        = true) ->
     bulkRetry fuel mode start step pattern tokenMap cls used st c = None).
Proof.
  repeat split.
  - intros n j fuel. apply Tags.batchRetry_finds.
  - intros n fuel. apply Tags.batchRetry_runs_out.
  - intros mode start cls st c j fuel. apply Tags.bulkRetry_finds.
  - intros mode start cls st c fuel. apply Tags.bulkRetry_runs_out.
Qed.

Lemma tag_retry_unbounded_witness :
  batchRetry 5 (ofZ 1) "T-{N}" sampleTokens true ["T-1"; "T-2"] (ofZ 1)
             (applyPattern "T-{N}" sampleTokens (ofZ 1))
  = Some (ofZ 3, "T-3").
Proof.
  apply (proj1 (tag_retry_unbounded (ofZ 1) "T-{N}" sampleTokens ["T-1"; "T-2"])
               (ofZ 1) 2 5).
  - intros i Hi. destruct i as [|[|i]];
      [vm_compute; reflexivity | vm_compute; reflexivity | lia].
  - vm_compute; reflexivity.
  - lia.
Defined.

Lemma applyPattern_TAG tokenMap n : applyPattern "TAG" tokenMap n = "TAG".
Proof. reflexivity. Qed.

(** A counter prints in the notation of [String]: from [10^21] on with an
    exponent, and rounded to the digits that tell the number apart. *)
(** A width too large for a number is no width. *)
Lemma parseNWidth_infinite :
  parseNWidth ("{N:1" ++ zeros 400 ++ "}") = ofZ 0 /\
  parseNWidth "{N:007}" = ofZ 7 /\ parseNWidth "{N}" = ofZ 0.
Proof. repeat split; vm_compute; reflexivity. Qed.

Lemma applyPattern_large tokenMap :
  applyPattern "T-{N}" tokenMap (ofZ (10 ^ 21)) = "T-1e+21" /\
  applyPattern "T-{N}" tokenMap (ofZ (2 ^ 60)) = "T-1152921504606847000" /\
  applyPattern "T-{N:3}" tokenMap (ofZ 7) = "T-007".
Proof. repeat split; vm_compute; reflexivity. Qed.

(** With a counter token the loops can fail to end as well: at [2^53] the
    step 1 no longer changes the counter, so the label stays the same. *)
Lemma tag_retry_stalls tokenMap fuel :
  batchRetry fuel (ofZ 1) "T-{N}" tokenMap true ["T-9007199254740992"]
             (ofZ (2 ^ 53)) (applyPattern "T-{N}" tokenMap (ofZ (2 ^ 53)))
  = None.
Proof.
  apply Tags.batchRetry_runs_out. intros i _.
  unfold candidateAt. rewrite Tags.advance_stalls.
  vm_compute; reflexivity.
Qed.

(** C4 as stated fails: with the pattern ["TAG"] (no counter token) and the
    tag ["TAG"] in use, neither [bulkApplyTags] nor the batch branch of
    [createObject] has finished after any number of turns of the retry
    loop, and neither has a failure to return. *)
Lemma tag_retry_never_ends :
  (forall fuel,
     bulkApplyTags fuel ["o1"] "TAG" (ofZ 1) (ofZ 1) true PerClassMode "X"
                   taggedTree taggedTree = None) /\
  (forall fuel,
     createObjectBatch sampleUid fuel "IfcPump" "g" "s" "b" "st" (ofZ 1)
                       "Pump {N}" true "TAG" (ofZ 1) (ofZ 1) true "X"
                       taggedTree taggedTree = None).
Proof.
  split; intros fuel.
  - unfold bulkApplyTags. lazy -[bulkRetry].
    now rewrite Tags.bulkRetry_TAG.
  - unfold createObjectBatch. lazy -[batchRetry].
    now rewrite Tags.batchRetry_TAG.
Qed.

(** ** The exporter *)

Module Exporter.
Import Obj ObjFacts.

Section Does.
Context {I : ExportState -> Prop} {R : ExportState -> ExportState -> Prop}.
Hypothesis R_refl : forall w, R w w.
Hypothesis R_trans : forall a b c, R a b -> R b c -> R a c.

Lemma does_ret {A} (a : A) : does I R (ret a).
Proof. intros w Hw. exists a, w. auto. Qed.

Lemma does_bind {A B} (m : W A) (f : A -> W B) :
  does I R m -> (forall a, does I R (f a)) -> does I R (bindW m f).
Proof.
  intros Hm Hf w Hw. destruct (Hm w Hw) as [a [w1 [E1 [R1 I1]]]].
  destruct (Hf a w1 I1) as [b [w2 [E2 [R2 I2]]]].
  exists b, w2. unfold bindW. rewrite E1. split; eauto.
Qed.

Lemma does_mapW {A B} (f : A -> W B) (l : list A) :
  (forall x, In x l -> does I R (f x)) -> does I R (mapW f l).
Proof.
  induction l as [|x l IH]; intros H; cbn [mapW].
  - apply does_ret.
  - apply does_bind; [apply H; now left|]. intros y.
    apply does_bind; [apply IH; intros; apply H; now right|]. intros ys.
    apply does_ret.
Qed.

Lemma does_forW {A} (f : A -> W unit) (l : list A) :
  (forall x, In x l -> does I R (f x)) -> does I R (forW f l).
Proof.
  induction l as [|x l IH]; intros H; cbn [forW].
  - apply does_ret.
  - apply does_bind; [apply H; now left|]. intros _.
    apply IH. intros; apply H; now right.
Qed.

Lemma does_getIfcId k : does I R (getIfcId k).
Proof. intros w Hw. eexists _, w. split; [reflexivity | auto]. Qed.
End Does.

Lemma does_mono {A} I (R R' : ExportState -> ExportState -> Prop) (m : W A) :
  (forall w w', R w w' -> R' w w') -> does I R m -> does I R' m.
Proof.
  intros HR Hm w Hw. destruct (Hm w Hw) as [a [w' [E [H1 H2]]]].
  exists a, w'. auto.
Qed.

(** *** The relations are preorders *)

Lemma RLines_refl P w : RLines P w w.
Proof. exists []. split; [now rewrite app_nil_r | constructor]. Qed.

Lemma RLines_trans P a b c : RLines P a b -> RLines P b c -> RLines P a c.
Proof.
  intros [n1 [L1 F1]] [n2 [L2 F2]]. exists (n1 ++ n2). split.
  - now rewrite L2, L1, app_assoc.
  - apply Forall_app. auto.
Qed.

Lemma RWalk_refl K w : RWalk K w w.
Proof. split; [apply RLines_refl | auto]. Qed.

Lemma RWalk_trans K a b c : RWalk K a b -> RWalk K b c -> RWalk K a c.
Proof.
  intros [L1 M1] [L2 M2]. split.
  - eapply RLines_trans; eauto.
  - intros k Hk. destruct (M2 k Hk) as [H|H]; auto.
Qed.

Lemma RWalk_mono (K K' : string -> Prop) w w' :
  (forall k, K k -> K' k) -> RWalk K w w' -> RWalk K' w w'.
Proof.
  intros HK [HL HM]. split; auto.
  intros k Hk. destruct (HM k Hk); auto.
Qed.

(** *** Primitive steps *)

Section Steps.
Variable randomValues : nat -> list Z.
Variable nowEpoch : Z.
Variable nodes : Nodes.
Variable ownerHistory : nat.

Lemma keeps_anyState : keepsOnMap anyState.
Proof. intros w w' _ _. exact Logic.I. Qed.

Lemma keeps_mapIs M : keepsOnMap (mapIs M).
Proof. unfold mapIs. intros w w' H1 H2. congruence. Qed.

Lemma lines_add I P e : keepsOnMap I -> P e -> does I (RLines P) (add e).
Proof.
  intros HI He w Hw. eexists _, _. split; [reflexivity|]. split.
  - exists [(nextId w, e)]. split; auto.
  - apply (HI w); auto.
Qed.

Lemma lines_ifcGuid I P :
  keepsOnMap I -> does I (RLines P) (ifcGuid randomValues).
Proof.
  intros HI w Hw. unfold ifcGuid.
  destruct (Guid.ifcGuid_uuidv4 (randomValues (guidCalls w))) as [g [Hg _]].
  rewrite Hg. eexists _, _. split; [reflexivity|]. split.
  - exists []. split; [simpl; now rewrite app_nil_r | constructor].
  - apply (HI w); auto.
Qed.

Lemma has_set {V} (o : Obj.t V) k v k' :
  has (set o k v) k' = true -> k' = k \/ has o k' = true.
Proof.
  destruct (String.eqb_spec k k') as [->|Hne]; auto.
  unfold has. rewrite get_set_other by assumption. auto.
Qed.

(** *** The spatial walk *)

Section Walk.
Variable K : string -> Prop.

Let walks {A} (m : W A) : Prop := does anyState (RWalk K) m.

Lemma walk_ret {A} (a : A) : walks (ret a).
Proof. apply does_ret. apply RWalk_refl. Qed.

Lemma walk_bind {A B} (m : W A) (f : A -> W B) :
  walks m -> (forall a, walks (f a)) -> walks (bindW m f).
Proof. apply does_bind. apply RWalk_trans. Qed.

Lemma walk_mapW {A B} (f : A -> W B) (l : list A) :
  (forall x, In x l -> walks (f x)) -> walks (mapW f l).
Proof. apply does_mapW; [apply RWalk_refl | apply RWalk_trans]. Qed.

Lemma walk_add e : isElement e = false -> walks (add e).
Proof.
  intros He w _. eexists _, _. split; [reflexivity|]. split; [|exact Logic.I].
  split; [|auto]. exists [(nextId w, e)]. split; auto.
Qed.

Lemma walk_ifcGuid : walks (ifcGuid randomValues).
Proof.
  intros w _.
  destruct (lines_ifcGuid anyState (fun e => isElement e = false)
              keeps_anyState w Logic.I) as [g [w' [E [HL _]]]].
  exists g, w'. split; auto. split; [|exact Logic.I]. split; auto.
  unfold ifcGuid in E.
  destruct (ifcGuidFromUuid _); [|discriminate].
  injection E as _ <-. auto.
Qed.

Lemma walk_getIfcId k : walks (getIfcId k).
Proof. apply does_getIfcId. apply RWalk_refl. Qed.

Lemma walk_setIfcId k v : K k -> walks (setIfcId k v).
Proof.
  intros Hk w _. eexists _, _. split; [reflexivity|]. split; [|exact Logic.I].
  split.
  - exists []. split; [simpl; now rewrite app_nil_r | constructor].
  - simpl. intros k' H. destruct (has_set _ _ _ _ H) as [->|H']; auto.
Qed.

Lemma walk_createLocalPlacement r : walks (createLocalPlacement r).
Proof.
  unfold createLocalPlacement.
  repeat (apply walk_bind; [apply walk_add; reflexivity | intros ?]).
  apply walk_add; reflexivity.
Qed.

Lemma walk_createRelAggregates parent l :
  walks (createRelAggregates randomValues ownerHistory parent l).
Proof.
  unfold createRelAggregates. destruct (Nat.eqb (length l) 0).
  - apply walk_ret.
  - apply walk_bind; [apply walk_ifcGuid | intros g].
    apply walk_bind; [apply walk_add; reflexivity | intros _].
    apply walk_ret.
Qed.

Lemma walk_createSite n r :
  K (id n) -> walks (createSite randomValues ownerHistory n r).
Proof.
  intros Hk. unfold createSite.
  apply walk_bind; [apply walk_createLocalPlacement | intros p].
  apply walk_bind; [apply walk_ifcGuid | intros g].
  apply walk_bind; [apply walk_add; reflexivity | intros i].
  apply walk_bind; [now apply walk_setIfcId | intros _].
  apply walk_ret.
Qed.

Lemma walk_createBuilding n r :
  K (id n) -> walks (createBuilding randomValues ownerHistory n r).
Proof.
  intros Hk. unfold createBuilding.
  apply walk_bind; [apply walk_createLocalPlacement | intros p].
  apply walk_bind; [apply walk_ifcGuid | intros g].
  apply walk_bind; [apply walk_add; reflexivity | intros i].
  apply walk_bind; [now apply walk_setIfcId | intros _].
  apply walk_ret.
Qed.

Lemma walk_createStorey n r :
  K (id n) -> walks (createStorey randomValues ownerHistory n r).
Proof.
  intros Hk. unfold createStorey.
  apply walk_bind; [apply walk_createLocalPlacement | intros p].
  apply walk_bind; [apply walk_ifcGuid | intros g].
  apply walk_bind; [apply walk_add; reflexivity | intros i].
  apply walk_bind; [now apply walk_setIfcId | intros _].
  apply walk_ret.
Qed.

Lemma walk_exportBuilding s b :
  (forall k, keysOfBuilding nodes b k -> K k) ->
  walks (exportBuilding randomValues nodes ownerHistory s b).
Proof.
  intros HK. unfold exportBuilding.
  apply walk_bind; [apply walk_getIfcId | intros parent].
  apply walk_bind; [apply walk_createBuilding, HK; now left | intros ifcBldg].
  apply walk_bind.
  - apply walk_mapW. intros st Hst.
    apply walk_bind; [apply walk_getIfcId | intros p].
    apply walk_createStorey, HK. right. now exists st.
  - intros ifcStoreys.
    apply walk_bind; [apply walk_createRelAggregates | intros _].
    apply walk_ret.
Qed.

Lemma walk_exportSite wp s :
  (forall k, keysOfSite nodes s k -> K k) ->
  walks (exportSite randomValues nodes ownerHistory wp s).
Proof.
  intros HK. unfold exportSite.
  apply walk_bind; [apply walk_createSite, HK; now left | intros ifcSite].
  apply walk_bind.
  - apply walk_mapW. intros b Hb. apply walk_exportBuilding.
    intros k Hk. apply HK. right. now exists b.
  - intros ifcBuildings.
    apply walk_bind; [apply walk_createRelAggregates | intros _].
    apply walk_ret.
Qed.
End Walk.

(** *** The element loop, for a fixed [nodeToIfcId] *)

Section Elements.
Variable M : Obj.t nat.

Let emits {A} (m : W A) : Prop :=
  does (mapIs M) (RLines (okElement nodes M)) m.

Lemma el_ret {A} (a : A) : emits (ret a).
Proof. apply does_ret. apply RLines_refl. Qed.

Lemma el_bind {A B} (m : W A) (f : A -> W B) :
  emits m -> (forall a, emits (f a)) -> emits (bindW m f).
Proof. apply does_bind. apply RLines_trans. Qed.

Lemma el_mapW {A B} (f : A -> W B) (l : list A) :
  (forall x, In x l -> emits (f x)) -> emits (mapW f l).
Proof. apply does_mapW; [apply RLines_refl | apply RLines_trans]. Qed.

Lemma el_forW {A} (f : A -> W unit) (l : list A) :
  (forall x, In x l -> emits (f x)) -> emits (forW f l).
Proof. apply does_forW; [apply RLines_refl | apply RLines_trans]. Qed.

Lemma el_add e : okElement nodes M e -> emits (add e).
Proof. apply lines_add, keeps_mapIs. Qed.

Lemma el_ifcGuid : emits (ifcGuid randomValues).
Proof. apply lines_ifcGuid, keeps_mapIs. Qed.

(** Reading [nodeToIfcId] gives the entry of [M]. *)
Lemma el_getIfcId_bind {B} k (f : option nat -> W B) :
  emits (f (get M k)) -> emits (bindW (getIfcId k) f).
Proof.
  intros Hf w Hw. unfold bindW, getIfcId.
  unfold mapIs in Hw. rewrite Hw. now apply Hf.
Qed.

Lemma el_createLocalPlacement r : emits (createLocalPlacement r).
Proof.
  unfold createLocalPlacement.
  repeat (apply el_bind; [apply el_add; exact Logic.I | intros ?]).
  apply el_add; exact Logic.I.
Qed.

Lemma el_addPset el pset : emits (addPset randomValues ownerHistory el pset).
Proof.
  unfold addPset. destruct (negb (truthy (trim (pset_name pset)))); [apply el_ret|].
  destruct (Nat.eqb (length (filter nonBlankKey (props pset))) 0); [apply el_ret|].
  apply el_bind.
  - apply el_mapW. intros e _. apply el_add. exact Logic.I.
  - intros propIds.
    apply el_bind; [apply el_ifcGuid | intros g].
    apply el_bind; [apply el_add; exact Logic.I | intros psetId].
    apply el_bind; [apply el_ifcGuid | intros g'].
    apply el_bind; [apply el_add; exact Logic.I | intros _].
    apply el_ret.
Qed.

Lemma el_addPsetsForElement el obj :
  emits (addPsetsForElement randomValues ownerHistory el obj).
Proof.
  unfold addPsetsForElement.
  destruct (Nat.eqb (length match psets obj with Some l => l | None => [] end) 0);
    [apply el_ret|].
  apply el_forW. intros p _. apply el_addPset.
Qed.

Lemma el_exportObject st ifcStorey obj :
  In st (values nodes) -> kind st = Storey -> has M (id st) = true ->
  In obj (getObjectsUnderStorey nodes st) ->
  emits (exportObject randomValues ownerHistory ifcStorey obj).
Proof.
  intros H1 H2 H3 H4. unfold exportObject, emitElement.
  apply el_bind; [apply el_createLocalPlacement | intros placement].
  apply el_bind.
  - apply el_bind; [apply el_ifcGuid | intros g].
    apply el_add. simpl. exists st. auto.
  - intros el. apply el_bind; [apply el_addPsetsForElement | intros _].
    apply el_ret.
Qed.

Lemma el_exportStoreyElements st :
  In st (values nodes) -> kind st = Storey ->
  emits (exportStoreyElements randomValues nodes ownerHistory st).
Proof.
  intros H1 H2. unfold exportStoreyElements.
  apply el_getIfcId_bind.
  destruct (get M (id st)) as [ifcStorey|] eqn:Hg; [|apply el_ret].
  destruct (Nat.eqb ifcStorey 0); [apply el_ret|].
  destruct (Nat.eqb (length (getObjectsUnderStorey nodes st)) 0); [apply el_ret|].
  apply el_bind.
  - apply el_mapW. intros obj Hobj. apply (el_exportObject st); auto.
    unfold has. now rewrite Hg.
  - intros ids.
    apply el_bind; [apply el_ifcGuid | intros g].
    apply el_bind; [apply el_add; exact Logic.I | intros _].
    apply el_ret.
Qed.

Lemma el_loop :
  emits (forW (exportStoreyElements randomValues nodes ownerHistory)
              (filter (fun n => NodeKind_eqb (kind n) Storey) (values nodes))).
Proof.
  apply el_forW. intros st Hst. apply filter_In in Hst. destruct Hst as [H1 H2].
  apply el_exportStoreyElements; auto.
  destruct (kind st); simpl in H2; try discriminate. reflexivity.
Qed.
End Elements.

(** The element loop from any state. *)
Lemma elements_loop :
  does anyState (RElems nodes)
       (forW (exportStoreyElements randomValues nodes ownerHistory)
             (filter (fun n => NodeKind_eqb (kind n) Storey) (values nodes))).
Proof.
  intros w _.
  destruct (el_loop (nodeToIfcId w) w eq_refl) as [a [w' [E [HR _]]]].
  exists a, w'. split; auto. split; [exact HR | exact Logic.I].
Qed.

End Steps.

(** *** The whole export *)

Section Whole.
Variable randomValues : nat -> list Z.
Variable nowEpoch : Z.
Variable nodes : Nodes.

Lemma then_bind {A B} (Ra Rb : ExportState -> ExportState -> Prop)
    (m : W A) (f : A -> W B) :
  (forall a b c, Ra a b -> Ra b c -> Ra a c) ->
  does anyState Ra m -> (forall a, does anyState (RThen Ra Rb) (f a)) ->
  does anyState (RThen Ra Rb) (bindW m f).
Proof.
  intros Htr Hm Hf w _. destruct (Hm w Logic.I) as [a [w1 [E1 [R1 _]]]].
  destruct (Hf a w1 Logic.I) as [b [w3 [E2 [[w2 [R2 R3]] _]]]].
  exists b, w3. unfold bindW. rewrite E1. split; auto.
  split; [|exact Logic.I]. exists w2. split; eauto.
Qed.

Lemma then_last {A} (Ra Rb : ExportState -> ExportState -> Prop) (m : W A) :
  (forall w, Ra w w) -> does anyState Rb m -> does anyState (RThen Ra Rb) m.
Proof.
  intros Hrefl Hm w _. destruct (Hm w Logic.I) as [a [w1 [E1 [R1 _]]]].
  exists a, w1. split; auto. split; [|exact Logic.I]. exists w. auto.
Qed.

Lemma exportBody_does project :
  does anyState (RThen (RWalk (keysOfProject nodes project)) (RElems nodes))
       (exportBody randomValues nowEpoch nodes project).
Proof.
  unfold exportBody.
  set (K := keysOfProject nodes project).
  repeat (apply then_bind;
          [apply RWalk_trans | apply walk_add; reflexivity | intros ?]).
  apply then_bind; [apply RWalk_trans | apply walk_ifcGuid | intros g].
  apply then_bind; [apply RWalk_trans | apply walk_add; reflexivity | intros p].
  apply then_bind;
    [apply RWalk_trans | apply walk_setIfcId; now left | intros _].
  apply then_bind; [apply RWalk_trans | | intros ifcSites].
  - apply walk_mapW. intros s Hs. apply walk_exportSite.
    intros k Hk. right. now exists s.
  - apply then_bind;
      [apply RWalk_trans | apply walk_createRelAggregates | intros _].
    apply then_last; [apply RWalk_refl | apply elements_loop].
Qed.

End Whole.

(** *** Selecting the project, and id-keyed snapshots *)

Lemma find_none_existsb {A} (f : A -> bool) l :
  find f l = None <-> existsb f l = false.
Proof.
  induction l as [|x l IH]; simpl; [tauto|].
  destruct (f x); simpl; [split; discriminate | exact IH].
Qed.

Lemma selectProject_none nodes :
  selectProject nodes = None <->
  hasProjectKind nodes = false /\ has nodes "project" = false.
Proof.
  unfold selectProject, hasProjectKind, has.
  destruct (find isProject (values nodes)) as [p|] eqn:E.
  - split; [discriminate|]. intros [H _].
    apply find_none_existsb in H. congruence.
  - apply find_none_existsb in E. rewrite E.
    destruct (get nodes "project"); split; try tauto; try discriminate.
    intros [_ H]. discriminate.
Qed.

Lemma In_values {V} (o : Obj.t V) v : In v (values o) <-> exists k, In (k, v) o.
Proof.
  unfold values. rewrite in_map_iff. split.
  - intros [[k v'] [E H]]. simpl in E. subst. eauto.
  - intros [k H]. exists (k, v). auto.
Qed.

Lemma selectProject_In nodes p :
  selectProject nodes = Some p -> In p (values nodes).
Proof.
  unfold selectProject.
  destruct (find isProject (values nodes)) as [q|] eqn:E.
  - intros [= <-]. apply find_some in E. tauto.
  - intros H. apply get_In in H. apply In_values. eauto.
Qed.

Lemma childrenOfKind_In nodes k ids r :
  In r (childrenOfKind nodes k ids) -> In r (values nodes) /\ kind r = k.
Proof.
  unfold childrenOfKind. intros H. apply filter_In in H. destruct H as [H1 H2].
  apply Move.NodeKind_eqb_eq in H2. split; auto.
  apply in_flat_map in H1. destruct H1 as [i [_ Hi]].
  destruct (get nodes i) as [n|] eqn:E; [|destruct Hi].
  destruct Hi as [<-|[]]. apply get_In in E. apply In_values. eauto.
Qed.

Lemma get_own_id nodes n :
  snapshot_ok nodes = true -> In n (values nodes) -> get nodes (id n) = Some n.
Proof.
  intros Hok Hin. apply Repair.snapshot_ok_spec in Hok. destruct Hok as [Hnd Hid].
  apply In_values in Hin. destruct Hin as [k Hin].
  rewrite <- (Hid k n Hin). now apply In_get.
Qed.

Lemma same_id_same_node nodes a b :
  snapshot_ok nodes = true -> In a (values nodes) -> In b (values nodes) ->
  id a = id b -> a = b.
Proof.
  intros Hok Ha Hb E.
  pose proof (get_own_id nodes a Hok Ha) as H1.
  pose proof (get_own_id nodes b Hok Hb) as H2.
  rewrite E in H1. congruence.
Qed.

(** A registered Storey node is a reached storey or the project itself. *)
Lemma registered_storey nodes project st :
  snapshot_ok nodes = true -> In project (values nodes) ->
  In st (values nodes) -> kind st = Storey ->
  keysOfProject nodes project (id st) ->
  reachedStorey nodes project st \/ st = project.
Proof.
  intros Hok Hp Hst Hk [E|[s [Hs [E|[b [Hb [E|[st' [Hst' E]]]]]]]]].
  - right. now apply (same_id_same_node nodes).
  - destruct (childrenOfKind_In _ _ _ _ Hs) as [H1 H2].
    rewrite (same_id_same_node nodes st s Hok Hst H1 E) in Hk. congruence.
  - destruct (childrenOfKind_In _ _ _ _ Hb) as [H1 H2].
    rewrite (same_id_same_node nodes st b Hok Hst H1 E) in Hk. congruence.
  - destruct (childrenOfKind_In _ _ _ _ Hst') as [H1 H2].
    rewrite (same_id_same_node nodes st st' Hok Hst H1 E).
    left. exists s, b. auto.
Qed.

End Exporter.

(** C2 (as amended).  The exporter throws its missing-project error
    exactly when the snapshot has no node of kind Project and no node
    stored under the key ["project"]; in every other case it returns a
    document. *)
Theorem export_missing_project
    (randomValues : nat -> list Z) (nowEpoch : Z) (nodes : Nodes) :
  (exportIfc2x3FromTree randomValues nowEpoch nodes = Throw missingProjectMessage
   <-> hasProjectKind nodes = false /\ Obj.has nodes "project" = false) /\
  (hasProjectKind nodes = true \/ Obj.has nodes "project" = true ->
   exists doc, exportIfc2x3FromTree randomValues nowEpoch nodes = Ok doc).
Proof.
  assert (Hok : forall p, selectProject nodes = Some p ->
            exists doc, exportIfc2x3FromTree randomValues nowEpoch nodes = Ok doc).
  { intros p Hp. unfold exportIfc2x3FromTree. rewrite Hp.
    destruct (Exporter.exportBody_does randomValues nowEpoch nodes p emptyExport I)
      as [u [w [E _]]].
    rewrite E. eauto. }
  split; [split|].
  - intros H. apply Exporter.selectProject_none.
    destruct (selectProject nodes) as [p|] eqn:Hp; auto.
    destruct (Hok p eq_refl) as [doc Hd]. congruence.
  - intros H. apply Exporter.selectProject_none in H.
    unfold exportIfc2x3FromTree. now rewrite H.
  - intros H. destruct (selectProject nodes) as [p|] eqn:Hp; eauto.
    apply Exporter.selectProject_none in Hp. destruct Hp as [H1 H2].
    destruct H; congruence.
Qed.

Lemma export_missing_project_witness :
  (hasProjectKind exportTree = true \/ Obj.has exportTree "project" = true) /\
  exists doc, exportIfc2x3FromTree sampleRandom 0 exportTree = Ok doc.
Proof.
  split; [left; reflexivity|].
  apply (proj2 (export_missing_project sampleRandom 0 exportTree)).
  left. reflexivity.
Defined.

(** C2 as stated fails: [fallbackOnly] has no node of kind Project, yet the
    exporter takes the node stored under ["project"] and returns a
    document. *)
Lemma export_without_project_kind :
  hasProjectKind fallbackOnly = false /\
  exists doc, exportIfc2x3FromTree sampleRandom 0 fallbackOnly = Ok doc.
Proof.
  split; [reflexivity|]. eexists. vm_compute. reflexivity.
Qed.

(** C10 (as amended).  On an id-keyed snapshot the exporter raises no error
    and every element record of its document is for an Object found under
    (a ClassGroup child of) a Storey node that is registered in
    [nodeToIfcId]: a Storey reached as Project -> Site -> Building ->
    Storey child of the selected project, or the selected project node
    itself when that node is a Storey.  Objects found only under other
    Storey nodes have no element record. *)
Theorem export_elements_only_registered
    (randomValues : nat -> list Z) (nowEpoch : Z) (nodes : Nodes)
    (project : TreeNode) :
  snapshot_ok nodes = true ->
  selectProject nodes = Some project ->
  exists doc,
    exportIfc2x3FromTree randomValues nowEpoch nodes = Ok doc /\
    forall n entity g owner obj placement,
      In (n, IFCELEMENT entity g owner obj placement) doc ->
      exists st,
        Obj.get nodes (id st) = Some st /\ kind st = Storey /\
        In obj (getObjectsUnderStorey nodes st) /\
        (reachedStorey nodes project st \/ st = project).
Proof.
  intros Hok Hp. unfold exportIfc2x3FromTree. rewrite Hp.
  destruct (Exporter.exportBody_does randomValues nowEpoch nodes project
              emptyExport I)
    as [u [w2 [E [[w1 [[[new1 [L1 F1]] HM] [new2 [L2 F2]]]] _]]]].
  rewrite E. exists (lines w2). split; [reflexivity|].
  intros n entity g owner obj placement Hin.
  rewrite L2, L1 in Hin. simpl in Hin. apply in_app_or in Hin.
  destruct Hin as [Hin|Hin].
  - rewrite Forall_forall in F1. apply F1 in Hin. discriminate.
  - rewrite Forall_forall in F2. apply F2 in Hin. simpl in Hin.
    destruct Hin as [st [H1 [H2 [H3 H4]]]].
    exists st. split; [now apply Exporter.get_own_id|]. split; auto. split; auto.
    apply Exporter.registered_storey; auto.
    + now apply Exporter.selectProject_In.
    + destruct (HM (id st) H3) as [H|H]; [discriminate | exact H].
Qed.

Lemma export_elements_only_registered_witness :
  snapshot_ok exportTree = true /\
  exists project doc,
    selectProject exportTree = Some project /\
    exportIfc2x3FromTree sampleRandom 0 exportTree = Ok doc /\
    forall n entity g owner obj placement,
      In (n, IFCELEMENT entity g owner obj placement) doc ->
      exists st,
        Obj.get exportTree (id st) = Some st /\ kind st = Storey /\
        In obj (getObjectsUnderStorey exportTree st) /\
        (reachedStorey exportTree project st \/ st = project).
Proof.
  split; [reflexivity|].
  eexists. 
  destruct (export_elements_only_registered sampleRandom 0 exportTree _
              eq_refl eq_refl) as [doc [H1 H2]].
  exists doc. split; [reflexivity|]. split; [exact H1 | exact H2].
Defined.

(** C10 as stated fails: in [projectIsStorey] the selected project is the
    Storey stored under ["project"]; no Storey is reached through a Site
    and a Building, yet the document has an element record for the object
    under that node. *)
Lemma export_element_of_unreached_storey :
  snapshot_ok projectIsStorey = true /\
  exists project doc n g placement,
    selectProject projectIsStorey = Some project /\
    exportIfc2x3FromTree sampleRandom 0 projectIsStorey = Ok doc /\
    In (n, IFCELEMENT "IFCVALVE" g 1 sampleObject placement) doc /\
    forall st, ~ reachedStorey projectIsStorey project st.
Proof.
  split; [reflexivity|].
  eexists _, _, 12, _, 11.
  split; [reflexivity|]. split; [vm_compute; reflexivity|]. split.
  - simpl. do 11 right. left. reflexivity.
  - intros st [s [b [Hs _]]]. exact Hs.
Qed.

(** ** The exporter writes a well-formed document *)

Module ExportWf.
Import Obj ObjFacts.

Lemma extends_refl w : extends w w.
Proof.
  split; [exists []; now rewrite app_nil_r|]. split; auto.
Qed.

Lemma extends_trans a b c : extends a b -> extends b c -> extends a c.
Proof.
  intros [[n1 L1] [N1 K1]] [[n2 L2] [N2 K2]]. split; [|split].
  - exists (n1 ++ n2). now rewrite L2, L1, app_assoc.
  - lia.
  - auto.
Qed.

Lemma stable_validAt r : stable (validAt r).
Proof. intros w w' [_ [H _]] [H1 H2]. unfold validAt in *. lia. Qed.

Lemma stable_and P Q : stable P -> stable Q -> stable (fun w => P w /\ Q w).
Proof. intros HP HQ w w' E [H1 H2]. split; eauto. Qed.

Lemma stable_const (P : Prop) : stable (fun _ => P).
Proof. intros w w' _ H. exact H. Qed.

Lemma stable_has k : stable (fun w => has (nodeToIfcId w) k = true).
Proof. intros w w' [_ [_ H]]. apply H. Qed.

Lemma stable_line l : stable (fun w => In l (lines w)).
Proof.
  intros w w' [[new E] _] H. rewrite E. apply in_or_app. now left.
Qed.

Lemma stable_forall {A} (P : A -> ExportState -> Prop) :
  (forall a, stable (P a)) -> stable (fun w => forall a, P a w).
Proof. intros H w w' E Hw a. exact (H a w w' E (Hw a)). Qed.

Lemma stable_impl (C : Prop) P : stable P -> stable (fun w => C -> P w).
Proof. intros H w w' E Hw c. exact (H w w' E (Hw c)). Qed.

Lemma stable_ex {A} (P : A -> ExportState -> Prop) :
  (forall a, stable (P a)) -> stable (fun w => exists a, P a w).
Proof. intros H w w' E [a Ha]. exists a. exact (H a w w' E Ha). Qed.

Lemma stable_Forall {A} (P : A -> ExportState -> Prop) (l : list A) :
  (forall a, stable (P a)) -> stable (fun w => Forall (fun a => P a w) l).
Proof.
  intros H w w' E Hw. rewrite Forall_forall in *.
  intros a Ha. exact (H a w w' E (Hw a Ha)).
Qed.

Lemma stable_Forall2 {A B} (Q : A -> B -> ExportState -> Prop) l ys :
  (forall x y, stable (Q x y)) ->
  stable (fun w => Forall2 (fun x y => Q x y w) l ys).
Proof.
  intros H w w' E Hw. induction Hw; constructor; auto.
  exact (H _ _ w w' E H0).
Qed.

Create HintDb stab.
#[local] Hint Resolve stable_validAt stable_and stable_const stable_has
  stable_line stable_forall stable_impl stable_ex stable_Forall
  stable_Forall2 : stab.

Lemma triple_ret {A} (P : ExportState -> Prop) (a : A)
    (Q : A -> ExportState -> Prop) :
  (forall w, wfExport w -> P w -> Q a w) -> triple P (ret a) Q.
Proof.
  intros H w Hw Pw. exists a, w. split; [reflexivity|].
  split; [assumption|]. split; [apply extends_refl | auto].
Qed.

Lemma triple_bind {A B} P (m : W A) Q (f : A -> W B) Q' :
  stable P -> triple P m Q ->
  (forall a, triple (fun w => P w /\ Q a w) (f a) Q') ->
  triple P (bindW m f) Q'.
Proof.
  intros SP Hm Hf w Hw Pw.
  destruct (Hm w Hw Pw) as [a [w1 [E1 [W1 [X1 Q1]]]]].
  destruct (Hf a w1 W1 (conj (SP w w1 X1 Pw) Q1)) as [b [w2 [E2 [W2 [X2 Q2]]]]].
  exists b, w2. unfold bindW. rewrite E1. split; [exact E2|].
  split; [exact W2|]. split; [eapply extends_trans; eauto | exact Q2].
Qed.

Lemma triple_pre {A} (P P' : ExportState -> Prop) (m : W A) Q :
  (forall w, wfExport w -> P w -> P' w) -> triple P' m Q -> triple P m Q.
Proof. intros H Hm w Hw Pw. apply Hm; auto. Qed.

Lemma triple_post {A} (P : ExportState -> Prop) (m : W A)
    (Q Q' : A -> ExportState -> Prop) :
  (forall a w, wfExport w -> Q a w -> Q' a w) -> triple P m Q -> triple P m Q'.
Proof.
  intros H Hm w Hw Pw. destruct (Hm w Hw Pw) as [a [w' [E [W' [X Qa]]]]].
  exists a, w'. auto.
Qed.

(** The precondition is still there afterwards. *)
Lemma triple_frame {A} (P : ExportState -> Prop) (m : W A) Q :
  stable P -> triple P m Q -> triple P m (fun a w => P w /\ Q a w).
Proof.
  intros SP Hm w Hw Pw. destruct (Hm w Hw Pw) as [a [w' [E [W' [X Qa]]]]].
  exists a, w'. split; [exact E|]. split; [exact W'|]. split; [exact X|].
  split; [exact (SP w w' X Pw) | exact Qa].
Qed.

Lemma triple_mapW {A B} P (f : A -> W B) (Q : A -> B -> ExportState -> Prop)
    (l : list A) :
  stable P -> (forall x y, stable (Q x y)) ->
  (forall x, In x l -> triple P (f x) (Q x)) ->
  triple P (mapW f l) (fun ys w => Forall2 (fun x y => Q x y w) l ys).
Proof.
  intros SP SQ. induction l as [|x l IH]; intros H; cbn [mapW].
  - apply triple_ret. constructor.
  - eapply triple_bind; [assumption | apply H; now left | intros y].
    eapply triple_bind; [auto with stab| |intros ys].
    + eapply triple_pre; [|apply IH; intros; apply H; now right].
      intros w _ [Pw _]. exact Pw.
    + apply triple_ret. intros w _ [[_ Qy] Hys]. constructor; auto.
Qed.

Lemma triple_forW {A} P (f : A -> W unit) (Q : A -> ExportState -> Prop)
    (l : list A) :
  stable P -> (forall x, stable (Q x)) ->
  (forall x, In x l -> triple P (f x) (fun _ => Q x)) ->
  triple P (forW f l) (fun _ w => Forall (fun x => Q x w) l).
Proof.
  intros SP SQ. induction l as [|x l IH]; intros H; cbn [forW].
  - apply triple_ret. constructor.
  - eapply triple_bind; [assumption | apply H; now left | intros u].
    eapply triple_post;
      [|apply triple_frame;
        [auto with stab
        |eapply triple_pre; [|apply IH; intros; apply H; now right]]].
    + intros _ w _ [[_ Qx] Hl]. constructor; auto.
    + intros w _ [Pw _]. exact Pw.
Qed.

(** *** The writer *)

Lemma wf_add w e :
  wfExport w -> lineOk (nextId w, e) ->
  wfExport (mkExport (S (nextId w)) (lines w ++ [(nextId w, e)])
                     (nodeToIfcId w) (guidCalls w)).
Proof.
  intros [H1 [H2 [H3 H4]]] He. unfold wfExport.
  cbn [nextId lines nodeToIfcId].
  rewrite length_app, map_app, seq_app. cbn [length map fst seq Nat.add].
  split; [lia|]. split; [apply f_equal2; [exact H2 | now rewrite H1]|]. split.
  - apply Forall_app. split; auto.
  - intros k v Hk. specialize (H4 k v Hk). lia.
Qed.

Lemma triple_add e :
  triple (fun w => lineOk (nextId w, e)) (add e)
         (fun a w => validAt a w /\ In (a, e) (lines w)).
Proof.
  intros w Hw He. eexists _, _. split; [reflexivity|].
  split; [now apply wf_add|]. split; [|split].
  - split; [now eexists|]. simpl. split; [lia | auto].
  - destruct Hw as [H1 _]. unfold validAt. simpl. lia.
  - simpl. apply in_or_app. right. now left.
Qed.

(** Solves the side conditions of a step: the facts about the state are
    in the precondition. *)
Ltac facts :=
  let w := fresh "w" in let Hwf := fresh "Hwf" in let HP := fresh "HP" in
  intros w Hwf HP; cbv beta in HP; decompose [and ex] HP; clear HP; subst.

Ltac line_ok :=
  facts; unfold lineOk, validAt in *; cbn [fst snd refs guidOf];
  split; [ let r := fresh "r" in let Hr := fresh "Hr" in
           intros r Hr; simpl in Hr; intuition (subst; auto)
         | split; [ let g := fresh "g" in intros g [= <-]; auto
                  | first [exact Logic.I | reflexivity | idtac] ] ].

Ltac step L :=
  eapply triple_bind;
  [ auto 12 with stab | eapply triple_pre; [|apply L] | intros ? ].

Ltac last_step L :=
  eapply triple_post; [|eapply triple_pre; [|apply L]].

Section Steps.
Variable randomValues : nat -> list Z.
Variable nowEpoch : Z.
Variable nodes : Nodes.

Lemma triple_ifcGuid :
  triple (fun _ => True) (ifcGuid randomValues) (fun g _ => goodGuid g).
Proof.
  intros w Hw _. unfold ifcGuid.
  destruct (Guid.ifcGuidFromUuid_shape (uuidv4 (randomValues (guidCalls w)))
              (Guid.uuidv4_length _)) as [g [E G]].
  rewrite E. eexists _, _. split; [reflexivity|]. split; [|split].
  - exact Hw.
  - split; [exists []; simpl; now rewrite app_nil_r|]. auto.
  - exact G.
Qed.

Lemma triple_setIfcId k v :
  triple (validAt v) (setIfcId k v)
         (fun _ w => has (nodeToIfcId w) k = true).
Proof.
  intros w Hw Hv. eexists _, _. split; [reflexivity|]. split; [|split].
  - destruct Hw as [H1 [H2 [H3 H4]]].
    split; [exact H1|]. split; [exact H2|]. split; [exact H3|].
    cbn [nextId nodeToIfcId]. intros k0 v0 H.
    destruct (String.eqb_spec k k0) as [->|Hne].
    + rewrite get_set_same in H. injection H as <-. apply Hv.
    + rewrite get_set_other in H by assumption. exact (H4 k0 v0 H).
  - split; [exists []; simpl; now rewrite app_nil_r|].
    split; [simpl; lia|].
    simpl. intros k' Hk'. unfold has in *.
    destruct (String.eqb_spec k k') as [->|Hne].
    + now rewrite get_set_same.
    + now rewrite get_set_other.
  - simpl. unfold has. now rewrite get_set_same.
Qed.

(** What [nodeToIfcId.get] returns is the number of a line. *)
Lemma triple_getIfcId k :
  triple (fun _ => True) (getIfcId k)
         (fun r w => match r with Some v => validAt v w | None => True end).
Proof.
  intros w Hw _. eexists _, _. split; [reflexivity|].
  split; [assumption|]. split; [apply extends_refl|].
  destruct (get (nodeToIfcId w) k) as [v|] eqn:E; auto.
  destruct Hw as [_ [_ [_ H4]]]. exact (H4 k v E).
Qed.

Lemma triple_getIfcId_has k :
  triple (fun w => has (nodeToIfcId w) k = true) (getIfcId k)
         (fun r w => exists v, r = Some v /\ validAt v w).
Proof.
  intros w Hw Hk. eexists _, _. split; [reflexivity|].
  split; [assumption|]. split; [apply extends_refl|].
  unfold has in Hk.
  destruct (get (nodeToIfcId w) k) as [v|] eqn:E; [|discriminate].
  exists v. split; auto. destruct Hw as [_ [_ [_ H4]]]. exact (H4 k v E).
Qed.

Variable ownerHistory : nat.

Lemma triple_createLocalPlacement (pp : option nat) :
  triple (fun w => exists v, pp = Some v /\ validAt v w)
         (createLocalPlacement pp) (fun a w => validAt a w).
Proof.
  unfold createLocalPlacement.
  step triple_add; [line_ok|].
  step triple_add; [line_ok|].
  last_step triple_add; [|line_ok].
  cbv beta. intros ? ? _ [H _]. exact H.
Qed.

Lemma stable_hasRecord k n a :
  stable (fun w => hasRecord ownerHistory k n a (lines w)).
Proof. unfold hasRecord. destruct k; auto 10 with stab. Qed.

Lemma stable_placed pp : stable (placed ownerHistory pp).
Proof. unfold placed. auto with stab. Qed.
Hint Resolve stable_hasRecord stable_placed : stab.

Lemma triple_createSite node pp :
  triple (placed ownerHistory pp)
         (createSite randomValues ownerHistory node pp)
         (fun a w => validAt a w /\ has (nodeToIfcId w) (id node) = true /\
                     hasRecord ownerHistory Site node a (lines w)).
Proof.
  unfold createSite, placed.
  step triple_createLocalPlacement; [facts; eauto|].
  step triple_ifcGuid; [facts; auto|].
  step triple_add; [line_ok|].
  step triple_setIfcId; [facts; auto|].
  apply triple_ret. facts. unfold hasRecord. eauto 10.
Qed.

Lemma triple_createBuilding node pp :
  triple (placed ownerHistory pp)
         (createBuilding randomValues ownerHistory node pp)
         (fun a w => validAt a w /\ has (nodeToIfcId w) (id node) = true /\
                     hasRecord ownerHistory Building node a (lines w)).
Proof.
  unfold createBuilding, placed.
  step triple_createLocalPlacement; [facts; eauto|].
  step triple_ifcGuid; [facts; auto|].
  step triple_add; [line_ok|].
  step triple_setIfcId; [facts; auto|].
  apply triple_ret. facts. unfold hasRecord. eauto 10.
Qed.

Lemma triple_createStorey node pp :
  triple (placed ownerHistory pp)
         (createStorey randomValues ownerHistory node pp)
         (fun a w => validAt a w /\ has (nodeToIfcId w) (id node) = true /\
                     hasRecord ownerHistory Storey node a (lines w)).
Proof.
  unfold createStorey, placed.
  step triple_createLocalPlacement; [facts; eauto|].
  step triple_ifcGuid; [facts; auto|].
  step triple_add; [line_ok|].
  step triple_setIfcId; [facts; auto|].
  apply triple_ret. facts. unfold hasRecord. eauto 10.
Qed.

Lemma stable_aggregated p c :
  stable (fun w => aggregated ownerHistory p c (lines w)).
Proof. unfold aggregated. auto 10 with stab. Qed.
Hint Resolve stable_aggregated : stab.

Lemma stable_buildingDone b a : stable (buildingDone ownerHistory nodes b a).
Proof. unfold buildingDone. auto 12 with stab. Qed.
Hint Resolve stable_buildingDone : stab.

Lemma stable_siteDone s a : stable (siteDone ownerHistory nodes s a).
Proof. unfold siteDone. auto 12 with stab. Qed.

Lemma stable_elementAt obj el :
  stable (fun w => elementAt ownerHistory obj el (lines w)).
Proof. unfold elementAt. auto 10 with stab. Qed.

Lemma stable_contained el :
  stable (fun w => contained ownerHistory el (lines w)).
Proof. unfold contained. auto 10 with stab. Qed.

Lemma stable_exported obj :
  stable (fun w => exported ownerHistory obj (lines w)).
Proof. unfold exported. auto 10 using stable_elementAt, stable_contained with stab. Qed.

Lemma stable_reachedRegistered project :
  stable (reachedRegistered nodes project).
Proof. unfold reachedRegistered. auto 10 with stab. Qed.
Hint Resolve stable_siteDone stable_elementAt stable_contained
  stable_exported stable_reachedRegistered : stab.

Lemma Forall2_In_l {A B} (R : A -> B -> Prop) l ys x :
  Forall2 R l ys -> In x l -> exists y, In y ys /\ R x y.
Proof.
  induction 1 as [|a b l ys Hab H IH]; intros Hin; [destruct Hin|].
  destruct Hin as [<-|Hin].
  - exists b. split; [now left | assumption].
  - destruct (IH Hin) as [y [H1 H2]]. exists y. split; [now right | assumption].
Qed.

Lemma Forall2_Forall_r {A B} (R : A -> B -> Prop) (P : B -> Prop) l ys :
  Forall2 R l ys -> (forall x y, R x y -> P y) -> Forall P ys.
Proof. induction 1; intros HP; constructor; eauto. Qed.

Lemma triple_createRelAggregates parent cs :
  triple (fun w => validAt ownerHistory w /\ validAt parent w /\
                   Forall (fun c => validAt c w) cs)
         (createRelAggregates randomValues ownerHistory parent cs)
         (fun _ w => forall c, In c cs -> aggregated ownerHistory parent c (lines w)).
Proof.
  unfold createRelAggregates. destruct cs as [|c0 cs]; cbn [length Nat.eqb].
  - apply triple_ret. intros w _ _ c [].
  - step triple_ifcGuid; [facts; auto|].
    step triple_add.
    { facts. unfold lineOk, validAt in *. cbn [fst snd refs guidOf].
      split; [|split; [intros g [= <-]; auto | exact Logic.I]].
      intros r [<-|[<-|Hr]]; auto.
      match goal with
      | HF : Forall _ _ |- _ => rewrite Forall_forall in HF; now apply HF
      end. }
    apply triple_ret. facts. intros c Hc. unfold aggregated. eauto 10.
Qed.

Lemma triple_exportBuilding sNode bNode :
  triple (fun w => validAt ownerHistory w /\
                   has (nodeToIfcId w) (id sNode) = true)
         (exportBuilding randomValues nodes ownerHistory sNode bNode)
         (buildingDone ownerHistory nodes bNode).
Proof.
  unfold exportBuilding.
  step triple_getIfcId_has; [facts; auto|].
  step triple_createBuilding; [facts; unfold placed; eauto|].
  eapply triple_bind; [auto 12 with stab| |intros ifcStoreys].
  - apply (triple_mapW _ _
             (fun st y w => validAt y w /\ has (nodeToIfcId w) (id st) = true /\
                            hasRecord ownerHistory Storey st y (lines w))).
    + auto 12 with stab.
    + auto 12 with stab.
    + intros st _.
      step triple_getIfcId_has; [facts; auto|].
      last_step triple_createStorey; [|facts; unfold placed; eauto].
      auto.
  - step triple_createRelAggregates.
    { facts. split; [assumption|]. split; [assumption|].
      eapply Forall2_Forall_r; [eassumption|]. cbv beta. tauto. }
    apply triple_ret. facts. unfold buildingDone.
    match goal with HF : Forall2 _ _ _ |- _ => rename HF into HF2 end.
    split; [assumption|]. split; [assumption|].
    intros st Hst.
    destruct (Forall2_In_l _ _ _ st HF2 Hst) as [y [Hy [_ [Hh Hr]]]].
    split; [exact Hh|]. exists y. split; [exact Hr | auto].
Qed.

Lemma triple_exportSite wp sNode :
  triple (fun w => validAt ownerHistory w /\ validAt wp w)
         (exportSite randomValues nodes ownerHistory wp sNode)
         (siteDone ownerHistory nodes sNode).
Proof.
  unfold exportSite.
  step triple_createSite; [facts; unfold placed; eauto|].
  eapply triple_bind; [auto 12 with stab| |intros ifcBuildings].
  - apply (triple_mapW _ _ (buildingDone ownerHistory nodes));
      [auto 12 with stab | auto 12 with stab|].
    intros b _. eapply triple_pre; [|apply triple_exportBuilding].
    facts. auto.
  - step triple_createRelAggregates.
    { facts. split; [assumption|]. split; [assumption|].
      eapply Forall2_Forall_r; [eassumption|]. cbv beta.
      unfold buildingDone. tauto. }
    apply triple_ret. facts. unfold siteDone.
    match goal with HF : Forall2 _ _ _ |- _ => rename HF into HF2 end.
    split; [assumption|]. split; [assumption|].
    intros b Hb.
    destruct (Forall2_In_l _ _ _ b HF2 Hb) as [y [Hy Hd]].
    exists y. split; [exact Hd | auto].
Qed.

(** *** Elements and property sets *)

Lemma triple_addPset el pset :
  triple (fun w => validAt ownerHistory w /\ validAt el w)
         (addPset randomValues ownerHistory el pset) (fun _ _ => True).
Proof.
  unfold addPset.
  destruct (truthy (trim (pset_name pset))) eqn:Hname; cbn [negb];
    [|apply triple_ret; auto].
  destruct (filter nonBlankKey (props pset)) as [|e0 entries] eqn:He;
    cbn [length Nat.eqb]; [apply triple_ret; auto|].
  eapply triple_bind; [auto 12 with stab| |intros propIds].
  - apply (triple_mapW _ _ (fun _ y w => validAt y w));
      [auto 12 with stab | auto 12 with stab|].
    intros e _. last_step triple_add; [|line_ok].
    cbv beta. intros ? ? _ [H _]. exact H.
  - step triple_ifcGuid; [facts; auto|].
    step triple_add.
    { facts. unfold lineOk, validAt in *. cbn [fst snd refs guidOf].
      match goal with HF : Forall2 _ _ _ |- _ => rename HF into HF2 end.
      split; [|split; [intros g [= <-]; auto|]].
      - intros r [<-|Hr]; auto.
        assert (HA : Forall (fun y => 1 <= y < nextId w) propIds)
          by (eapply Forall2_Forall_r; [exact HF2 | auto]).
        rewrite Forall_forall in HA. now apply HA.
      - split; [exact Hname|]. inversion HF2. discriminate. }
    step triple_ifcGuid; [facts; auto|].
    step triple_add; [line_ok|].
    apply triple_ret. auto.
Qed.

Lemma triple_addPsetsForElement el obj :
  triple (fun w => validAt ownerHistory w /\ validAt el w)
         (addPsetsForElement randomValues ownerHistory el obj)
         (fun _ _ => True).
Proof.
  unfold addPsetsForElement.
  destruct (Nat.eqb _ 0); [apply triple_ret; auto|].
  eapply triple_post;
    [|apply (triple_forW _ _ (fun _ _ => True));
      [auto with stab | auto with stab|]].
  - auto.
  - intros p _. apply triple_addPset.
Qed.

Lemma triple_emitElement obj placement :
  triple (fun w => validAt ownerHistory w /\ validAt placement w)
         (emitElement randomValues ownerHistory
                      (normalizeEntityName (ifcClass obj)) obj placement)
         (fun el w => validAt el w /\ elementAt ownerHistory obj el (lines w)).
Proof.
  unfold emitElement.
  step triple_ifcGuid; [facts; auto|].
  last_step triple_add; [|line_ok].
  cbv beta. intros ? ? _ [H1 H2]. split; [exact H1|].
  unfold elementAt. eauto.
Qed.

Lemma triple_exportObject ifcStorey obj :
  triple (fun w => validAt ownerHistory w /\ validAt ifcStorey w)
         (exportObject randomValues ownerHistory ifcStorey obj)
         (fun el w => validAt el w /\ elementAt ownerHistory obj el (lines w)).
Proof.
  unfold exportObject.
  step triple_createLocalPlacement; [facts; eauto|].
  step triple_emitElement; [facts; auto|].
  step triple_addPsetsForElement; [facts; auto|].
  apply triple_ret. facts. auto.
Qed.

Lemma triple_containElements ifcStorey objs :
  triple (fun w => validAt ownerHistory w /\ validAt ifcStorey w)
         (elementIfcIds <- mapW (exportObject randomValues ownerHistory ifcStorey)
                                objs ;;
          g <- ifcGuid randomValues ;;
          add (IFCRELCONTAINEDINSPATIALSTRUCTURE g ownerHistory elementIfcIds
                                                 ifcStorey) ;;;
          ret tt)
         (fun _ w => forall obj, In obj objs ->
                     exported ownerHistory obj (lines w)).
Proof.
  eapply triple_bind; [auto 12 with stab| |intros ids].
  - apply (triple_mapW _ _
             (fun obj el w => validAt el w /\ elementAt ownerHistory obj el (lines w)));
      [auto 12 with stab | auto 12 with stab|].
    intros obj _. apply triple_exportObject.
  - step triple_ifcGuid; [facts; auto|].
    step triple_add.
    { facts. unfold lineOk, validAt in *. cbn [fst snd refs guidOf].
      match goal with HF : Forall2 _ _ _ |- _ => rename HF into HF2 end.
      split; [|split; [intros g [= <-]; auto | exact Logic.I]].
      intros r [<-|Hr]; auto. apply in_app_or in Hr.
      destruct Hr as [Hr|[<-|[]]]; auto.
      assert (HA : Forall (fun y => 1 <= y < nextId w) ids)
        by (eapply Forall2_Forall_r; [exact HF2 | cbv beta; tauto]).
      rewrite Forall_forall in HA. now apply HA. }
    apply triple_ret. facts. intros obj Hobj.
    match goal with HF : Forall2 _ _ _ |- _ => rename HF into HF2 end.
    destruct (Forall2_In_l _ _ _ obj HF2 Hobj) as [el [Hel [_ He]]].
    exists el. split; [exact He|]. unfold contained. eauto 10.
Qed.

Lemma triple_exportStoreyElements project st :
  triple (fun w => validAt ownerHistory w /\ reachedRegistered nodes project w)
         (exportStoreyElements randomValues nodes ownerHistory st)
         (fun _ w => reachedStorey nodes project st ->
                     forall obj, In obj (getObjectsUnderStorey nodes st) ->
                     exported ownerHistory obj (lines w)).
Proof.
  intros w Hw [Ho Hreg].
  unfold exportStoreyElements. unfold bindW at 1. unfold getIfcId.
  destruct (get (nodeToIfcId w) (id st)) as [ifcStorey|] eqn:Hg.
  2:{ exists tt, w. split; [reflexivity|]. split; [assumption|].
      split; [apply extends_refl|]. intros Hr.
      specialize (Hreg st Hr). unfold has in Hreg. now rewrite Hg in Hreg. }
  assert (Hv : validAt ifcStorey w)
    by (destruct Hw as [_ [_ [_ H4]]]; exact (H4 _ _ Hg)).
  destruct (Nat.eqb_spec ifcStorey 0) as [->|_];
    [destruct Hv as [Hv _]; lia|].
  destruct (Nat.eqb (length (getObjectsUnderStorey nodes st)) 0) eqn:Hlen.
  { exists tt, w. split; [reflexivity|]. split; [assumption|].
    split; [apply extends_refl|]. intros _ obj Hobj.
    destruct (getObjectsUnderStorey nodes st); [destruct Hobj | discriminate]. }
  destruct (triple_containElements ifcStorey (getObjectsUnderStorey nodes st)
              w Hw (conj Ho Hv)) as [u [w' [E [W' [X Q]]]]].
  exists u, w'. split; [exact E|]. split; [exact W'|]. split; [exact X|].
  intros _. exact Q.
Qed.

End Steps.

(** *** The whole body *)

Lemma wf_emptyExport : wfExport emptyExport.
Proof.
  split; [reflexivity|]. split; [reflexivity|]. split; [constructor|].
  intros k v H. discriminate.
Qed.

Lemma reached_is_storey nodes project st :
  reachedStorey nodes project st ->
  In st (filter (fun n => NodeKind_eqb (kind n) Storey) (values nodes)).
Proof.
  intros [s [b [_ [_ H]]]]. apply Exporter.childrenOfKind_In in H.
  destruct H as [H1 H2]. apply filter_In. split; [exact H1|].
  now rewrite H2.
Qed.

Lemma exportBody_triple randomValues nowEpoch nodes project :
  triple (fun _ => True) (exportBody randomValues nowEpoch nodes project)
         (fun _ w => bodyDone nodes project w).
Proof.
  unfold exportBody.
  eapply triple_bind;
    [auto with stab | eapply triple_pre; [|apply triple_add]
    | intros ownerHistory]; [line_ok|].
  eapply triple_bind;
    [auto 12 with stab | eapply triple_pre; [|apply triple_add]
    | intros originPoint]; [line_ok|].
  eapply triple_bind;
    [auto 12 with stab | eapply triple_pre; [|apply triple_add]
    | intros axis2p3d]; [line_ok|].
  eapply triple_bind;
    [auto 12 with stab | eapply triple_pre; [|apply triple_add]
    | intros worldPlacement]; [line_ok|].
  eapply triple_bind;
    [auto 12 with stab | eapply triple_pre; [|apply triple_add]
    | intros context]; [line_ok|].
  eapply triple_bind;
    [auto 12 with stab | eapply triple_pre; [|apply triple_add]
    | intros lengthUnit]; [line_ok|].
  eapply triple_bind;
    [auto 12 with stab | eapply triple_pre; [|apply triple_add]
    | intros units]; [line_ok|].
  eapply triple_bind;
    [auto 12 with stab | eapply triple_pre; [|apply triple_ifcGuid]
    | intros g]; [facts; auto|].
  eapply triple_bind;
    [auto 12 with stab | eapply triple_pre; [|apply triple_add]
    | intros ifcProject]; [line_ok|].
  eapply triple_bind;
    [auto 12 with stab | eapply triple_pre; [|apply triple_setIfcId]
    | intros ?]; [facts; auto|].
  eapply triple_bind; [auto 12 with stab| |intros ifcSites].
  { eapply triple_pre;
      [|apply (triple_mapW
                 (fun w => validAt ownerHistory w /\ validAt worldPlacement w)
                 _ (siteDone ownerHistory nodes))].
    - facts. auto.
    - auto with stab.
    - intros x y. apply stable_siteDone.
    - intros s _. apply triple_exportSite. }
  eapply triple_bind;
    [auto 14 using stable_siteDone with stab
    | eapply triple_pre; [|apply triple_createRelAggregates] | intros ?].
  { facts. split; [assumption|]. split; [assumption|].
    eapply Forall2_Forall_r; [eassumption|]. cbv beta.
    unfold siteDone. tauto. }
  eapply triple_post;
    [|apply triple_frame;
      [auto 14 using stable_siteDone, stable_aggregated with stab
      |eapply triple_pre;
        [|apply (triple_forW
                   (fun w => validAt ownerHistory w /\
                             reachedRegistered nodes project w)
                   _
                   (fun st w =>
                      reachedStorey nodes project st ->
                      forall obj, In obj (getObjectsUnderStorey nodes st) ->
                      exported ownerHistory obj (lines w)))]]].
  - cbv beta. intros _ w Hwf HP. decompose [and ex] HP. clear HP.
    match goal with HF : Forall2 _ _ _ |- _ => rename HF into HF2 end.
    match goal with HF : Forall _ _ |- _ => rename HF into HF1 end.
    exists ownerHistory. split.
    + exists ifcProject, g, context, units. split; [assumption|].
      intros s Hs. destruct (Forall2_In_l _ _ _ s HF2 Hs) as [y [Hy Hd]].
      exists y. split; [exact Hd | auto].
    + intros st obj Hr Hobj. rewrite Forall_forall in HF1.
      exact (HF1 st (reached_is_storey _ _ _ Hr) Hr obj Hobj).
  - facts. split; [assumption|].
    match goal with HF : Forall2 _ _ _ |- _ => rename HF into HF2 end.
    intros st [s [b [Hs [Hb Hst]]]].
    destruct (Forall2_In_l _ _ _ s HF2 Hs) as [y [_ [_ [_ Hd]]]].
    destruct (Hd b Hb) as [a' [[_ [_ Hbd]] _]].
    exact (proj1 (Hbd st Hst)).
  - auto using stable_reachedRegistered with stab.
  - intros st. auto 12 using stable_exported with stab.
  - intros st _. apply triple_exportStoreyElements.
Qed.

(** The document of a successful export is the list of lines of a
    well-formed final state. *)
Lemma export_run randomValues nowEpoch nodes doc :
  exportIfc2x3FromTree randomValues nowEpoch nodes = Ok doc ->
  exists project w,
    selectProject nodes = Some project /\ lines w = doc /\ wfExport w /\
    bodyDone nodes project w.
Proof.
  unfold exportIfc2x3FromTree.
  destruct (selectProject nodes) as [project|]; [|discriminate].
  destruct (exportBody_triple randomValues nowEpoch nodes project emptyExport
              wf_emptyExport Logic.I) as [u [w [E [Hwf [_ Hdone]]]]].
  rewrite E. intros [= <-]. exists project, w. auto.
Qed.

Lemma normalizeEntityName_safe c :
  In (normalizeEntityName c) IFC2X3_SAFE_ENTITIES.
Proof.
  unfold normalizeEntityName.
  destruct (negb (truthy _)); [now left|].
  destruct (negb (String.prefix _ _)); [now left|].
  destruct (memb IFC2X3_SAFE_ENTITIES _) eqn:E; [|now left].
  now apply Repair.memb_In.
Qed.

End ExportWf.

(** The lines of an exported document are numbered 1, 2, 3, ... and every
    reference [#r] in line [n] is to an earlier line: [1 <= r < n]. *)
Theorem export_references_resolve
    (randomValues : nat -> list Z) (nowEpoch : Z) (nodes : Nodes)
    (doc : list Line) :
  exportIfc2x3FromTree randomValues nowEpoch nodes = Ok doc ->
  map fst doc = seq 1 (length doc) /\
  forall n e, In (n, e) doc -> forall r, In r (refs e) -> 1 <= r < n.
Proof.
  intros H. destruct (ExportWf.export_run _ _ _ _ H)
    as [project [w [_ [<- [[_ [Hn [Hl _]]] _]]]]].
  split; [exact Hn|]. intros n e Hin.
  rewrite Forall_forall in Hl. exact (proj1 (Hl _ Hin)).
Qed.

Lemma export_references_resolve_witness :
  exists doc,
    exportIfc2x3FromTree sampleRandom 0 exportTree = Ok doc /\
    map fst doc = seq 1 (length doc) /\
    forall n e, In (n, e) doc -> forall r, In r (refs e) -> 1 <= r < n.
Proof.
  eexists. split; [vm_compute; reflexivity|].
  apply (export_references_resolve sampleRandom 0 exportTree).
  vm_compute. reflexivity.
Defined.

(** Every GlobalId in an exported document has 22 characters, all of the
    64-symbol alphabet. *)
Theorem export_guids_wellformed
    (randomValues : nat -> list Z) (nowEpoch : Z) (nodes : Nodes)
    (doc : list Line) :
  exportIfc2x3FromTree randomValues nowEpoch nodes = Ok doc ->
  forall n e g, In (n, e) doc -> guidOf e = Some g ->
    String.length g = 22 /\ allChars inAlphabet g.
Proof.
  intros H. destruct (ExportWf.export_run _ _ _ _ H)
    as [project [w [_ [<- [[_ [_ [Hl _]]] _]]]]].
  intros n e g Hin Hg. rewrite Forall_forall in Hl.
  exact (proj1 (proj2 (Hl _ Hin)) g Hg).
Qed.

Lemma export_guids_wellformed_witness :
  exists doc,
    exportIfc2x3FromTree sampleRandom 0 exportTree = Ok doc /\
    forall n e g, In (n, e) doc -> guidOf e = Some g ->
      String.length g = 22 /\ allChars inAlphabet g.
Proof.
  eexists. split; [vm_compute; reflexivity|].
  apply (export_guids_wellformed sampleRandom 0 exportTree).
  vm_compute. reflexivity.
Defined.

(** The entity name of every element record is [normalizeEntityName] of
    the object's class, and is one of the ten allow-listed names. *)
Theorem export_element_entities
    (randomValues : nat -> list Z) (nowEpoch : Z) (nodes : Nodes)
    (doc : list Line) :
  exportIfc2x3FromTree randomValues nowEpoch nodes = Ok doc ->
  forall n entity g owner obj placement,
    In (n, IFCELEMENT entity g owner obj placement) doc ->
    entity = normalizeEntityName (ifcClass obj) /\
    In entity IFC2X3_SAFE_ENTITIES.
Proof.
  intros H. destruct (ExportWf.export_run _ _ _ _ H)
    as [project [w [_ [<- [[_ [_ [Hl _]]] _]]]]].
  intros n entity g owner obj placement Hin. rewrite Forall_forall in Hl.
  pose proof (proj2 (proj2 (Hl _ Hin))) as He. simpl in He. subst entity.
  split; [reflexivity | apply ExportWf.normalizeEntityName_safe].
Qed.

Lemma export_element_entities_witness :
  exists doc,
    exportIfc2x3FromTree sampleRandom 0 exportTree = Ok doc /\
    forall n entity g owner obj placement,
      In (n, IFCELEMENT entity g owner obj placement) doc ->
      entity = normalizeEntityName (ifcClass obj) /\
      In entity IFC2X3_SAFE_ENTITIES.
Proof.
  eexists. split; [vm_compute; reflexivity|].
  apply (export_element_entities sampleRandom 0 exportTree).
  vm_compute. reflexivity.
Defined.



(** Every object found under a storey that is reached from the selected
    project has an element record, and that record is listed in a
    containment record. *)
Theorem export_elements_complete
    (randomValues : nat -> list Z) (nowEpoch : Z) (nodes : Nodes)
    (project : TreeNode) (doc : list Line) :
  selectProject nodes = Some project ->
  exportIfc2x3FromTree randomValues nowEpoch nodes = Ok doc ->
  exists ownerHistory,
    forall st obj, reachedStorey nodes project st ->
      In obj (getObjectsUnderStorey nodes st) ->
      exported ownerHistory obj doc.
Proof.
  intros Hp H. destruct (ExportWf.export_run _ _ _ _ H)
    as [project' [w [Hp' [<- [_ [owner [_ Hel]]]]]]].
  assert (project' = project) by congruence. subst project'.
  exists owner. exact Hel.
Qed.

Lemma export_elements_complete_witness :
  exists project doc ownerHistory,
    selectProject exportTree = Some project /\
    exportIfc2x3FromTree sampleRandom 0 exportTree = Ok doc /\
    forall st obj, reachedStorey exportTree project st ->
      In obj (getObjectsUnderStorey exportTree st) ->
      exported ownerHistory obj doc.
Proof.
  eexists. eexists.
  assert (E : exportIfc2x3FromTree sampleRandom 0 exportTree = Ok ?[doc])
    by (vm_compute; reflexivity).
  destruct (export_elements_complete sampleRandom 0 exportTree _ _ eq_refl E)
    as [owner H].
  exists owner. split; [reflexivity|]. split; [exact E | exact H].
Defined.

(** The spatial structure is written in full: the project has its record,
    every Site child of the project has a record listed in an aggregation
    under the project, every Building child of such a site has a record
    aggregated under the site, and every Storey child of such a building
    has a record aggregated under the building.  Each record carries the
    name of its node. *)
Theorem export_spatial_records
    (randomValues : nat -> list Z) (nowEpoch : Z) (nodes : Nodes)
    (project : TreeNode) (doc : list Line) :
  selectProject nodes = Some project ->
  exportIfc2x3FromTree randomValues nowEpoch nodes = Ok doc ->
  exists ownerHistory a,
    (exists g c u, In (a, IFCPROJECT g ownerHistory (name project) c u) doc) /\
    forall s, siteOf nodes project s ->
      exists a1, hasRecord ownerHistory Site s a1 doc /\
                 aggregated ownerHistory a a1 doc /\
      forall b, buildingOf nodes s b ->
        exists a2, hasRecord ownerHistory Building b a2 doc /\
                   aggregated ownerHistory a1 a2 doc /\
        forall st, storeyOf nodes b st ->
          exists a3, hasRecord ownerHistory Storey st a3 doc /\
                     aggregated ownerHistory a2 a3 doc.
Proof.
  intros Hp H. destruct (ExportWf.export_run _ _ _ _ H)
    as [project' [w [Hp' [<- [_ [owner [[a [g [c [u [Hproj Hs]]]]] _]]]]]]].
  assert (project' = project) by congruence. subst project'.
  exists owner, a. split; [eauto|].
  intros s Hsite. destruct (Hs s Hsite) as [a1 [[_ [Hr Hb]] Hagg]].
  exists a1. split; [exact Hr|]. split; [exact Hagg|].
  intros b Hbld. destruct (Hb b Hbld) as [a2 [[_ [Hr2 Hst]] Hagg2]].
  exists a2. split; [exact Hr2|]. split; [exact Hagg2|].
  intros st Hstorey. destruct (Hst st Hstorey) as [_ [a3 [Hr3 Hagg3]]].
  exists a3. auto.
Qed.

Lemma export_spatial_records_witness :
  exists project doc ownerHistory a,
    selectProject exportTree = Some project /\
    exportIfc2x3FromTree sampleRandom 0 exportTree = Ok doc /\
    (exists g c u, In (a, IFCPROJECT g ownerHistory (name project) c u) doc) /\
    forall s, siteOf exportTree project s ->
      exists a1, hasRecord ownerHistory Site s a1 doc /\
                 aggregated ownerHistory a a1 doc /\
      forall b, buildingOf exportTree s b ->
        exists a2, hasRecord ownerHistory Building b a2 doc /\
                   aggregated ownerHistory a1 a2 doc /\
        forall st, storeyOf exportTree b st ->
          exists a3, hasRecord ownerHistory Storey st a3 doc /\
                     aggregated ownerHistory a2 a3 doc.
Proof.
  eexists. eexists.
  assert (E : exportIfc2x3FromTree sampleRandom 0 exportTree = Ok ?[doc])
    by (vm_compute; reflexivity).
  destruct (export_spatial_records sampleRandom 0 exportTree _ _ eq_refl E)
    as [owner [a [H1 H2]]].
  exists owner, a. split; [reflexivity|]. split; [exact E|].
  split; [exact H1 | exact H2].
Defined.

(** ** The importer *)

Module Importer.
Import Obj ObjFacts.

Lemma ifcClassForElement_proxy t : ifcClassForElement t = PROXY.
Proof. unfold ifcClassForElement. now destruct (t =? _). Qed.

(** *** The three writers *)

Section Writers.
Variable localeCompare : string -> string -> Z.

Lemma sameCore_refl n : sameCore n n.
Proof. repeat split. Qed.

Lemma sameCore_trans a b c : sameCore a b -> sameCore b c -> sameCore a c.
Proof.
  intros [A1 [A2 [A3 A4]]] [B1 [B2 [B3 B4]]]. repeat split; congruence.
Qed.

Lemma get_upsert_other d n k : k <> id n -> get (upsertNode localeCompare d n) k = get d k.
Proof.
  intros Hne. unfold upsertNode.
  destruct (get d (id n)); apply get_set_other; congruence.
Qed.

Lemma get_upsert_same d n :
  exists m, get (upsertNode localeCompare d n) (id n) = Some m /\
            kind m = kind n /\ id m = id n /\
            (forall p, parentId n = Some p -> parentId m = Some p) /\
            (get d (id n) = None /\ m = n \/
             exists e, get d (id n) = Some e /\
                       ifcClass m = orElse (ifcClass e) (ifcClass n)).
Proof.
  unfold upsertNode. destruct (get d (id n)) as [e|] eqn:E.
  - eexists. split; [apply get_set_same|]. simpl.
    split; [reflexivity|]. split; [reflexivity|]. split.
    + intros p Hp. now rewrite Hp.
    + right. exists e. split; reflexivity.
  - exists n. split; [apply get_set_same|].
    split; [reflexivity|]. split; [reflexivity|]. split; [auto|].
    left. split; reflexivity.
Qed.

Lemma has_upsert d n k :
  has (upsertNode localeCompare d n) k = true <-> k = id n \/ has d k = true.
Proof.
  destruct (String.eqb_spec k (id n)) as [->|Hne].
  - split; auto. intros _.
    destruct (get_upsert_same d n) as [m [Hm _]]. unfold has. now rewrite Hm.
  - unfold has. rewrite get_upsert_other by assumption. tauto.
Qed.

Lemma get_ensureChild d p c k :
  get (ensureChild d p c) k = get d k \/
  exists n, get d k = Some n /\ k = p /\
            get (ensureChild d p c) k
            = Some (with_children n (children n ++ [c])).
Proof.
  unfold ensureChild. destruct (get d p) as [n|] eqn:E; auto.
  destruct (memb (children n) c); auto.
  destruct (String.eqb_spec p k) as [->|Hne].
  - right. exists n. rewrite get_set_same. auto.
  - left. now apply get_set_other.
Qed.

Lemma has_ensureChild d p c k : has (ensureChild d p c) k = has d k.
Proof.
  unfold has. destruct (get_ensureChild d p c k) as [->|[n [H1 [_ H2]]]]; auto.
  now rewrite H1, H2.
Qed.

Lemma core_ensureChild d p c k n :
  get d k = Some n ->
  exists n', get (ensureChild d p c) k = Some n' /\ sameCore n n'.
Proof.
  intros H. destruct (get_ensureChild d p c k) as [E|[m [H1 [_ H2]]]].
  - exists n. split; [congruence | apply sameCore_refl].
  - rewrite H in H1. injection H1 as <-. eexists. split; [exact H2|].
    repeat split.
Qed.


Lemma get_ensureNode d i f k :
  get (ensureNode d i f) k = get d k \/
  (has d i = false /\ k = i /\ get (ensureNode d i f) k = Some f).
Proof.
  unfold ensureNode. destruct (has d i) eqn:E; auto.
  destruct (String.eqb_spec i k) as [->|Hne].
  - right. rewrite get_set_same. auto.
  - left. now apply get_set_other.
Qed.

Lemma ensureNode_has d i f : has d i = true -> ensureNode d i f = d.
Proof. intros H. unfold ensureNode. now rewrite H. Qed.

End Writers.

(** *** A property of drafts that every write keeps is kept by the walk *)

Lemma stableSpatialId_not_root k g e : stableSpatialId k g e <> "root".
Proof. destruct k; simpl; discriminate. Qed.

Lemma group_id_not_root s : (s ++ "__" ++ PROXY)%string <> "root".
Proof.
  intros H. apply (f_equal String.length) in H.
  rewrite Guid.length_append in H. simpl in H. lia.
Qed.

Section Through.
Variable localeCompare : string -> string -> Z.
Variable mgr : IfcManager.
Variable modelID : Z.
Variable T : Nodes -> Nodes -> Prop.
Hypothesis T_refl : forall d, T d d.
Hypothesis T_trans : forall a b c, T a b -> T b c -> T a c.
Hypothesis T_child : forall d p c, T d (ensureChild d p c).
Hypothesis T_upsert : forall d n, written n -> T d (upsertNode localeCompare d n).
Hypothesis T_ensure :
  forall d i, T d (ensureNode d i (plainNode i Root "Workspace" None [])).

Lemma through_guarded d n p :
  written n -> T d (guardedCreate localeCompare d n p).
Proof.
  intros Hn. unfold guardedCreate. destruct (has d (id n)); auto.
  eapply T_trans; [apply T_upsert; exact Hn | apply T_child].
Qed.

Lemma ensureSyntheticStorey_guarded d b :
  ensureSyntheticStorey localeCompare d b
  = (guardedCreate localeCompare d
       (plainNode ("ifc:storey:synthetic:" ++ b)%string Storey "Storey 0" (Some b) [])
       b,
     ("ifc:storey:synthetic:" ++ b)%string).
Proof.
  unfold ensureSyntheticStorey, guardedCreate. cbn [id plainNode].
  now destruct (has d _).
Qed.

Lemma ensureFallback_guarded d :
  ensureFallbackSpatialContainers localeCompare d
  = (guardedCreate localeCompare
       (guardedCreate localeCompare
          (guardedCreate localeCompare d
             (plainNode defaultProjectId Project "Imported Project" (Some "root") [])
             "root")
          (plainNode synthBuildingId Building "Building 0" (Some defaultProjectId) [])
          defaultProjectId)
       (plainNode synthStoreyId Storey "Storey 0" (Some synthBuildingId) [])
       synthBuildingId,
     synthStoreyId).
Proof.
  unfold ensureFallbackSpatialContainers.
  rewrite ensureSyntheticStorey_guarded. reflexivity.
Qed.

Lemma through_synthetic d b : T d (fst (ensureSyntheticStorey localeCompare d b)).
Proof.
  rewrite ensureSyntheticStorey_guarded. apply through_guarded.
  repeat split; simpl; auto; discriminate.
Qed.

Lemma through_fallback d :
  T d (fst (ensureFallbackSpatialContainers localeCompare d)).
Proof.
  rewrite ensureFallback_guarded. cbn [fst].
  eapply T_trans; [|apply through_guarded; repeat split; simpl; auto; discriminate].
  eapply T_trans; [|apply through_guarded; repeat split; simpl; auto; discriminate].
  apply through_guarded; repeat split; simpl; auto; discriminate.
Qed.

Lemma through_visitSpatial d e t k pid :
  T d (fst (visitSpatial localeCompare mgr modelID d e t k pid)).
Proof.
  unfold visitSpatial. cbn [fst].
  eapply T_trans; [apply T_ensure|].
  eapply T_trans; [apply T_upsert | apply T_child].
  repeat split; simpl; auto; try discriminate.
  apply stableSpatialId_not_root.
Qed.

Lemma through_resolveStorey d A cs :
  T d (fst (resolveStorey localeCompare d A cs)).
Proof.
  unfold resolveStorey.
  assert (Hs : T d (fst match enclosingBuilding d A with
                        | Some b =>
                            if truthy b
                            then ensureSyntheticStorey localeCompare d b
                            else ensureFallbackSpatialContainers localeCompare d
                        | None => ensureFallbackSpatialContainers localeCompare d
                        end)).
  { destruct (enclosingBuilding d A) as [b|]; [destruct (truthy b)|];
      auto using through_synthetic, through_fallback. }
  destruct cs as [s|]; auto. destruct (truthy s); auto.
Qed.

(** The leaf branch after the storey is settled. *)
Lemma visitLeaf_unfold d e t A cs :
  visitLeaf localeCompare mgr modelID d e t A cs
  = (let d1 := fst (resolveStorey localeCompare d A cs) in
     let st := snd (resolveStorey localeCompare d A cs) in
     let cg := (st ++ "__" ++ PROXY)%string in
     let d2 := guardedCreate localeCompare d1
                 (mkNode cg ClassGroup PROXY (Some st) [] (Some PROXY)
                         None None None None) st in
     (ensureChild (upsertNode localeCompare d2 (leafObject mgr modelID e t cg))
                  cg (objectId mgr modelID e),
      st)).
Proof.
  unfold visitLeaf. rewrite ifcClassForElement_proxy.
  destruct (resolveStorey localeCompare d A cs) as [d1 st]. cbn [fst snd].
  unfold guardedCreate, leafObject, objectId. cbn [id].
  now destruct (has d1 _).
Qed.

Lemma written_group st :
  written (mkNode (st ++ "__" ++ PROXY)%string ClassGroup PROXY (Some st) []
                  (Some PROXY) None None None None).
Proof.
  repeat split; simpl; auto; try discriminate. apply group_id_not_root.
Qed.

Lemma written_leafObject e t cg : written (leafObject mgr modelID e t cg).
Proof. repeat split; simpl; auto; discriminate. Qed.

Lemma through_visitLeaf d e t A cs :
  T d (fst (visitLeaf localeCompare mgr modelID d e t A cs)).
Proof.
  rewrite visitLeaf_unfold. cbn [fst].
  eapply T_trans; [apply through_resolveStorey|].
  eapply T_trans; [apply through_guarded, written_group|].
  eapply T_trans; [apply T_upsert, written_leafObject | apply T_child].
Qed.

Lemma through_fold {A} (f : Nodes -> A -> Nodes) (l : list A) :
  Forall (fun x => forall d, T d (f d x)) l ->
  forall d, T d (fold_left f l d).
Proof.
  induction 1 as [|x l Hx _ IH]; intros d; simpl; auto.
  eapply T_trans; [apply Hx | apply IH].
Qed.

Lemma through_walk sp : forall pid cs d,
  T d (walk localeCompare mgr modelID sp pid cs d).
Proof.
  induction sp as [e t ch IH] using SpatialNode_forall_ind.
  intros pid cs d. cbn [walk].
  destruct (spatialKindFromIfcType (toUpperCase t)) as [k|].
  - pose proof (through_visitSpatial d e (toUpperCase t) k pid) as H0.
    destruct (visitSpatial localeCompare mgr modelID d e (toUpperCase t) k pid)
      as [d1 myId].
    cbn [fst] in H0. eapply T_trans; [exact H0|].
    apply through_fold. eapply Forall_impl; [|exact IH].
    intros ch0 Hch d0. apply Hch.
  - pose proof (through_visitLeaf d e (toUpperCase t)
                  match pid with Some p => p | None => "root" end cs) as H0.
    destruct (visitLeaf localeCompare mgr modelID d e (toUpperCase t) _ cs)
      as [d1 st].
    cbn [fst] in H0. eapply T_trans; [exact H0|].
    apply through_fold. eapply Forall_impl; [|exact IH].
    intros ch0 Hch d0. apply Hch.
Qed.


End Through.



(** *** Instances: keys grow, the root keeps its core, classes are kept *)

Section Instances.
Variable localeCompare : string -> string -> Z.
Variable mgr : IfcManager.
Variable modelID : Z.

Lemma keysGrow_upsert d n : keysGrow d (upsertNode localeCompare d n).
Proof. intros k H. apply has_upsert. auto. Qed.

Lemma keysGrow_child d p c : keysGrow d (ensureChild d p c).
Proof. intros k H. now rewrite has_ensureChild. Qed.

Lemma keysGrow_ensure d i f : keysGrow d (ensureNode d i f).
Proof.
  intros k H. unfold has in *.
  destruct (get_ensureNode d i f k) as [->|[_ [_ ->]]]; auto.
Qed.

Lemma keysGrow_walk sp pid cs d :
  keysGrow d (walk localeCompare mgr modelID sp pid cs d).
Proof.
  apply through_walk.
  - intros d0 k H. exact H.
  - intros a b c H1 H2 k H. auto.
  - apply keysGrow_child.
  - intros d0 n _. apply keysGrow_upsert.
  - intros d0 i. apply keysGrow_ensure.
Qed.

Lemma coreKept_trans k a b c : coreKept k a b -> coreKept k b c -> coreKept k a c.
Proof.
  intros H1 H2 n Hn. destruct (H1 n Hn) as [n1 [G1 S1]].
  destruct (H2 n1 G1) as [n2 [G2 S2]]. exists n2. split; auto.
  eapply sameCore_trans; eauto.
Qed.

Lemma coreKept_root_walk sp pid cs d :
  coreKept "root" d (walk localeCompare mgr modelID sp pid cs d).
Proof.
  apply through_walk.
  - intros d0 n Hn. exists n. split; auto. apply sameCore_refl.
  - apply coreKept_trans.
  - intros d0 p c n Hn. now apply core_ensureChild.
  - intros d0 n [_ [Hid _]] m Hm. exists m.
    rewrite get_upsert_other by congruence. split; auto. apply sameCore_refl.
  - intros d0 i m Hm. exists m. split; [|apply sameCore_refl].
    destruct (get_ensureNode d0 i (plainNode i Root "Workspace" None []) "root")
      as [->|[Hh [Hi _]]]; auto.
    subst i. unfold has in Hh. rewrite Hm in Hh. discriminate.
Qed.










End Instances.

(** *** The two runs side by side *)

Section Pair.
Variable localeCompare : string -> string -> Z.
Variable mgr : IfcManager.
Variable modelID : Z.

Lemma has_coreAt d k : has d k = true <-> exists c, coreAt d k = Some c.
Proof.
  unfold has, coreAt. destruct (get d k); split; eauto; try discriminate.
  now intros [c H].
Qed.

Lemma coreAt_ensureChild d p c k : coreAt (ensureChild d p c) k = coreAt d k.
Proof.
  unfold coreAt. destruct (get_ensureChild d p c k) as [->|[n [H1 [_ H2]]]]; auto.
  now rewrite H1, H2.
Qed.

Lemma coreAt_upsert_other d n k :
  k <> id n -> coreAt (upsertNode localeCompare d n) k = coreAt d k.
Proof. intros H. unfold coreAt. now rewrite get_upsert_other. Qed.

Lemma coreAt_upsert_same d n p :
  parentId n = Some p ->
  coreAt (upsertNode localeCompare d n) (id n) = Some (kind n, id n, Some p).
Proof.
  intros Hp. unfold coreAt.
  destruct (get_upsert_same localeCompare d n) as [m [Hm [H1 [H2 [H3 _]]]]].
  rewrite Hm, H1, H2, (H3 p Hp). reflexivity.
Qed.

Lemma Good_SameKind d1 d2 k : Good d1 d2 k -> SameKind d1 d2 k.
Proof. intros [c [H1 [H2 _]]]. exists c, c. auto. Qed.

Lemma Step_refl d1 d2 : keysGrow d1 d2 -> Step d1 d2 d1 d2.
Proof. intros H. repeat split; auto; intros k Hk; auto. Qed.

Lemma Step_trans d1 d2 e1 e2 f1 f2 :
  Step d1 d2 e1 e2 -> Step e1 e2 f1 f2 -> Step d1 d2 f1 f2.
Proof.
  intros [A1 [A2 [A3 [A4 [A5 A6]]]]] [B1 [B2 [B3 [B4 [B5 B6]]]]].
  repeat split; auto.
  - intros k H. auto.
  - intros k H. auto.
  - intros k H. destruct (B4 k H) as [H'|H']; auto.
    destruct (A4 k H') as [H''|H'']; auto.
Qed.

(** A pair of steps that leave every existing core alone. *)
Lemma Step_cores d1 d2 e1 e2 :
  (forall k c, coreAt d1 k = Some c -> coreAt e1 k = Some c) ->
  (forall k c, coreAt d2 k = Some c -> coreAt e2 k = Some c) ->
  keysGrow e1 e2 ->
  (forall k, has e2 k = true -> has d2 k = true \/ has e1 k = true) ->
  Step d1 d2 e1 e2.
Proof.
  intros C1 C2 HG HN.
  assert (HS : forall k, SameKind d1 d2 k -> SameKind e1 e2 k).
  { intros k [c1 [c2 [H1 [H2 H3]]]]. exists c1, c2. auto. }
  repeat split; auto.
  - intros k H. apply has_coreAt in H. destruct H as [c H].
    apply has_coreAt. eauto.
  - intros k H. apply has_coreAt in H. destruct H as [c H].
    apply has_coreAt. eauto.
  - intros k _ [c [H1 [H2 H3]]]. exists c. auto.
Qed.

Lemma pair_child d1 d2 p c :
  keysGrow d1 d2 -> Step d1 d2 (ensureChild d1 p c) (ensureChild d2 p c).
Proof.
  intros HG. apply Step_cores.
  - intros k x. now rewrite coreAt_ensureChild.
  - intros k x. now rewrite coreAt_ensureChild.
  - intros k. rewrite !has_ensureChild. apply HG.
  - intros k. rewrite has_ensureChild. auto.
Qed.

Lemma pair_child_left d1 d2 p c :
  keysGrow d1 d2 -> Step d1 d2 (ensureChild d1 p c) d2.
Proof.
  intros HG. apply Step_cores; auto.
  - intros k x. now rewrite coreAt_ensureChild.
  - intros k. rewrite has_ensureChild. apply HG.
Qed.

Lemma pair_fresh_both d1 d2 n :
  keysGrow d1 d2 -> has d2 (id n) = false ->
  Step d1 d2 (upsertNode localeCompare d1 n) (upsertNode localeCompare d2 n).
Proof.
  intros HG H2.
  assert (H1 : has d1 (id n) = false).
  { destruct (has d1 (id n)) eqn:E; auto. apply HG in E. congruence. }
  assert (Hne : forall d k c, has d (id n) = false -> coreAt d k = Some c ->
                  k <> id n).
  { intros d k c Hh Hc ->. apply Bool.not_true_iff_false in Hh. apply Hh.
    apply has_coreAt. eauto. }
  apply Step_cores.
  - intros k c Hc. rewrite coreAt_upsert_other; eauto.
  - intros k c Hc. rewrite coreAt_upsert_other; eauto.
  - intros k Hk. apply has_upsert in Hk. apply has_upsert.
    destruct Hk; auto.
  - intros k Hk. apply has_upsert in Hk. destruct Hk as [->|Hk]; auto.
    right. apply has_upsert. auto.
Qed.

Lemma pair_fresh_left d1 d2 n :
  keysGrow d1 d2 -> has d1 (id n) = false -> has d2 (id n) = true ->
  Step d1 d2 (upsertNode localeCompare d1 n) d2.
Proof.
  intros HG H1 H2. apply Step_cores; auto.
  - intros k c Hc. rewrite coreAt_upsert_other; auto.
    intros ->. apply Bool.not_true_iff_false in H1. apply H1.
    apply has_coreAt. eauto.
  - intros k Hk. apply has_upsert in Hk. destruct Hk as [->|Hk]; auto.
Qed.

Lemma pair_guarded d1 d2 n p :
  keysGrow d1 d2 ->
  Step d1 d2 (guardedCreate localeCompare d1 n p)
             (guardedCreate localeCompare d2 n p).
Proof.
  intros HG. unfold guardedCreate.
  destruct (has d1 (id n)) eqn:E1; destruct (has d2 (id n)) eqn:E2.
  - now apply Step_refl.
  - apply HG in E1. congruence.
  - apply Step_trans with (upsertNode localeCompare d1 n) d2.
    + now apply pair_fresh_left.
    + apply pair_child_left. intros k Hk. apply has_upsert in Hk.
      destruct Hk as [->|Hk]; auto.
  - apply Step_trans with (upsertNode localeCompare d1 n)
                          (upsertNode localeCompare d2 n).
    + now apply pair_fresh_both.
    + apply pair_child. intros k Hk. apply has_upsert in Hk. apply has_upsert.
      destruct Hk; auto.
Qed.

(** The same node written in both runs, over whatever is there. *)
Lemma pair_upsert d1 d2 n p :
  keysGrow d1 d2 -> parentId n = Some p ->
  (isObjKey (id n) = false -> SameKind d1 d2 p) ->
  Step d1 d2 (upsertNode localeCompare d1 n) (upsertNode localeCompare d2 n)
  /\ (isObjKey (id n) = false ->
      Good (upsertNode localeCompare d1 n) (upsertNode localeCompare d2 n) (id n)).
Proof.
  intros HG Hp Hsk.
  set (e1 := upsertNode localeCompare d1 n).
  set (e2 := upsertNode localeCompare d2 n).
  assert (HS : forall k, SameKind d1 d2 k -> SameKind e1 e2 k).
  { intros k Hk. destruct (String.eqb_spec k (id n)) as [->|Hne].
    - exists (kind n, id n, Some p), (kind n, id n, Some p).
      unfold e1, e2. rewrite !(coreAt_upsert_same _ n p Hp). auto.
    - destruct Hk as [c1 [c2 [H1 [H2 H3]]]]. exists c1, c2.
      unfold e1, e2. rewrite !coreAt_upsert_other by assumption. auto. }
  assert (HGood : isObjKey (id n) = false -> Good e1 e2 (id n)).
  { intros Ho. exists (kind n, id n, Some p).
    unfold e1, e2. rewrite !(coreAt_upsert_same _ n p Hp).
    split; auto. split; auto. simpl. intros pp [= <-] _. apply HS. auto. }
  split; [|exact HGood].
  split; [|split; [|split; [|split; [|split]]]].
  - intros k Hk. apply has_upsert in Hk. apply has_upsert. destruct Hk; auto.
  - intros k Hk. apply has_upsert. auto.
  - intros k Hk. apply has_upsert. auto.
  - intros k Hk. apply has_upsert in Hk. destruct Hk as [->|Hk]; auto.
    right. apply has_upsert. auto.
  - exact HS.
  - intros k Ho Hk. destruct (String.eqb_spec k (id n)) as [->|Hne]; auto.
    destruct Hk as [c [H1 [H2 H3]]]. exists c.
    unfold e1, e2. rewrite !coreAt_upsert_other by assumption.
    split; auto.
Qed.

Lemma coreAt_get d k c :
  coreAt d k = Some c ->
  exists n, get d k = Some n /\ kind n = fst (fst c) /\ id n = snd (fst c) /\
            parentId n = snd c.
Proof.
  unfold coreAt. destruct (get d k) as [n|]; [|discriminate].
  intros [= <-]. exists n. auto.
Qed.

(** The building that the leaf branch finds is the same in both runs. *)
Lemma enclosing_same d1 d2 A :
  Good d1 d2 A -> enclosingBuilding d1 A = enclosingBuilding d2 A.
Proof.
  intros [c [H1 [H2 H3]]]. unfold enclosingBuilding.
  destruct (truthy A); auto.
  destruct (coreAt_get _ _ _ H1) as [n1 [G1 [K1 [I1 P1]]]].
  destruct (coreAt_get _ _ _ H2) as [n2 [G2 [K2 [I2 P2]]]].
  rewrite G1, G2, K1, K2, I1, I2, P1, P2.
  destruct (NodeKind_eqb (fst (fst c)) Building); auto.
  destruct (snd c) as [pp|] eqn:Epp; auto.
  destruct (truthy pp) eqn:Hpp; auto.
  destruct (H3 pp eq_refl Hpp) as [a [b [Ha [Hb Hab]]]].
  destruct (coreAt_get _ _ _ Ha) as [g1 [Gg1 [Kg1 _]]].
  destruct (coreAt_get _ _ _ Hb) as [g2 [Gg2 [Kg2 _]]].
  rewrite Gg1, Gg2, Kg1, Kg2, Hab. reflexivity.
Qed.

Lemma pair_synthetic d1 d2 b :
  keysGrow d1 d2 ->
  Step d1 d2 (fst (ensureSyntheticStorey localeCompare d1 b))
             (fst (ensureSyntheticStorey localeCompare d2 b)).
Proof.
  intros HG. rewrite !ensureSyntheticStorey_guarded. now apply pair_guarded.
Qed.

Lemma Step_keys d1 d2 e1 e2 : Step d1 d2 e1 e2 -> keysGrow e1 e2.
Proof. intros H. apply H. Qed.

Lemma pair_fallback d1 d2 :
  keysGrow d1 d2 ->
  Step d1 d2 (fst (ensureFallbackSpatialContainers localeCompare d1))
             (fst (ensureFallbackSpatialContainers localeCompare d2)).
Proof.
  intros HG. rewrite !ensureFallback_guarded. cbn [fst].
  pose proof (pair_guarded d1 d2
    (plainNode defaultProjectId Project "Imported Project" (Some "root") [])
    "root" HG) as S1.
  pose proof (pair_guarded _ _
    (plainNode synthBuildingId Building "Building 0" (Some defaultProjectId) [])
    defaultProjectId (Step_keys _ _ _ _ S1)) as S2.
  pose proof (pair_guarded _ _
    (plainNode synthStoreyId Storey "Storey 0" (Some synthBuildingId) [])
    synthBuildingId (Step_keys _ _ _ _ S2)) as S3.
  eapply Step_trans; [exact S1|]. eapply Step_trans; [exact S2 | exact S3].
Qed.

Lemma snd_synthetic d b :
  snd (ensureSyntheticStorey localeCompare d b)
  = ("ifc:storey:synthetic:" ++ b)%string.
Proof. now rewrite ensureSyntheticStorey_guarded. Qed.

Lemma snd_fallback d :
  snd (ensureFallbackSpatialContainers localeCompare d) = synthStoreyId.
Proof. now rewrite ensureFallback_guarded. Qed.

Lemma pair_resolveStorey d1 d2 A cs :
  keysGrow d1 d2 -> Good d1 d2 A ->
  snd (resolveStorey localeCompare d1 A cs)
  = snd (resolveStorey localeCompare d2 A cs) /\
  Step d1 d2 (fst (resolveStorey localeCompare d1 A cs))
             (fst (resolveStorey localeCompare d2 A cs)).
Proof.
  intros HG HA. unfold resolveStorey. rewrite <- (enclosing_same d1 d2 A HA).
  assert (Hs :
    snd match enclosingBuilding d1 A with
        | Some b => if truthy b then ensureSyntheticStorey localeCompare d1 b
                    else ensureFallbackSpatialContainers localeCompare d1
        | None => ensureFallbackSpatialContainers localeCompare d1
        end
    = snd match enclosingBuilding d1 A with
          | Some b => if truthy b then ensureSyntheticStorey localeCompare d2 b
                      else ensureFallbackSpatialContainers localeCompare d2
          | None => ensureFallbackSpatialContainers localeCompare d2
          end /\
    Step d1 d2
      (fst match enclosingBuilding d1 A with
           | Some b => if truthy b then ensureSyntheticStorey localeCompare d1 b
                       else ensureFallbackSpatialContainers localeCompare d1
           | None => ensureFallbackSpatialContainers localeCompare d1
           end)
      (fst match enclosingBuilding d1 A with
           | Some b => if truthy b then ensureSyntheticStorey localeCompare d2 b
                       else ensureFallbackSpatialContainers localeCompare d2
           | None => ensureFallbackSpatialContainers localeCompare d2
           end)).
  { destruct (enclosingBuilding d1 A) as [b|]; [destruct (truthy b)|].
    - rewrite !snd_synthetic. split; auto. now apply pair_synthetic.
    - rewrite !snd_fallback. split; auto. now apply pair_fallback.
    - rewrite !snd_fallback. split; auto. now apply pair_fallback. }
  destruct cs as [s|]; auto. destruct (truthy s); auto.
  split; auto. now apply Step_refl.
Qed.

Lemma isObjKey_objectId e : isObjKey (objectId mgr modelID e) = true.
Proof.
  unfold isObjKey, objectId. simpl.
  match goal with |- prefix "" ?x = true => now destruct x end.
Qed.

Lemma isObjKey_spatial k g e : isObjKey (stableSpatialId k g e) = false.
Proof. destruct k; reflexivity. Qed.

Lemma pair_visitLeaf d1 d2 e t A cs :
  keysGrow d1 d2 -> Good d1 d2 A ->
  snd (visitLeaf localeCompare mgr modelID d1 e t A cs)
  = snd (visitLeaf localeCompare mgr modelID d2 e t A cs) /\
  Step d1 d2 (fst (visitLeaf localeCompare mgr modelID d1 e t A cs))
             (fst (visitLeaf localeCompare mgr modelID d2 e t A cs)).
Proof.
  intros HG HA. rewrite !visitLeaf_unfold. cbn zeta. cbn [fst snd].
  destruct (pair_resolveStorey d1 d2 A cs HG HA) as [Hst S0].
  rewrite <- Hst.
  set (st := snd (resolveStorey localeCompare d1 A cs)) in *.
  set (cg := (st ++ "__" ++ PROXY)%string).
  split; auto.
  pose proof (pair_guarded _ _
    (mkNode cg ClassGroup PROXY (Some st) [] (Some PROXY) None None None None)
    st (Step_keys _ _ _ _ S0)) as S1.
  destruct (pair_upsert _ _ (leafObject mgr modelID e t cg) cg
              (Step_keys _ _ _ _ S1) eq_refl) as [S2 _].
  { intros H. cbn [id leafObject] in H. rewrite isObjKey_objectId in H.
    discriminate. }
  pose proof (pair_child _ _ cg (objectId mgr modelID e) (Step_keys _ _ _ _ S2))
    as S3.
  eapply Step_trans; [exact S0|]. eapply Step_trans; [exact S1|].
  eapply Step_trans; [exact S2 | exact S3].
Qed.

Lemma pair_visitSpatial d1 d2 e t k pid :
  keysGrow d1 d2 ->
  Good d1 d2 match pid with Some p => p | None => "root" end ->
  Good d1 d2 "root" ->
  snd (visitSpatial localeCompare mgr modelID d1 e t k pid)
  = snd (visitSpatial localeCompare mgr modelID d2 e t k pid) /\
  Step d1 d2 (fst (visitSpatial localeCompare mgr modelID d1 e t k pid))
             (fst (visitSpatial localeCompare mgr modelID d2 e t k pid)) /\
  Good (fst (visitSpatial localeCompare mgr modelID d1 e t k pid))
       (fst (visitSpatial localeCompare mgr modelID d2 e t k pid))
       (snd (visitSpatial localeCompare mgr modelID d1 e t k pid)).
Proof.
  intros HG HA HR. unfold visitSpatial. cbn [fst snd].
  set (A := if NodeKind_eqb k Project then "root"
            else match pid with Some p => p | None => "root" end).
  assert (HA' : Good d1 d2 A) by (unfold A; destruct (NodeKind_eqb k Project); auto).
  assert (Hh : has d1 A = true /\ has d2 A = true).
  { destruct HA' as [c [H1 [H2 _]]]. split; apply has_coreAt; eauto. }
  destruct Hh as [Hh1 Hh2].
  rewrite !ensureNode_has by assumption.
  set (n := mkNode (stableSpatialId k (safeGetGlobalId mgr modelID e) e) k _
                   (Some A) [] None None None None _).
  destruct (pair_upsert d1 d2 n A HG eq_refl) as [S1 G1].
  { intros _. now apply Good_SameKind. }
  pose proof (pair_child _ _ A (id n) (Step_keys _ _ _ _ S1)) as S2.
  split; auto. split.
  - eapply Step_trans; [exact S1 | exact S2].
  - destruct S2 as [_ [_ [_ [_ [_ S2]]]]].
    apply S2; [apply isObjKey_spatial|]. apply G1. apply isObjKey_spatial.
Qed.

(** The children of a node, walked in both runs. *)
Lemma pair_fold (f : Nodes -> SpatialNode -> Nodes) (A : string)
    (l : list SpatialNode) :
  isObjKey A = false ->
  Forall (fun ch => forall d1 d2, keysGrow d1 d2 -> Good d1 d2 A ->
                      Good d1 d2 "root" -> Step d1 d2 (f d1 ch) (f d2 ch)) l ->
  forall d1 d2, keysGrow d1 d2 -> Good d1 d2 A -> Good d1 d2 "root" ->
    Step d1 d2 (fold_left f l d1) (fold_left f l d2).
Proof.
  intros HA. induction 1 as [|ch l Hch _ IH]; intros d1 d2 HG GA GR; simpl.
  - now apply Step_refl.
  - pose proof (Hch d1 d2 HG GA GR) as S1.
    eapply Step_trans; [exact S1|].
    destruct S1 as [K1 [_ [_ [_ [_ P1]]]]].
    apply IH; auto.
Qed.

Lemma pair_walk sp : forall pid cs d1 d2,
  keysGrow d1 d2 ->
  Good d1 d2 match pid with Some p => p | None => "root" end ->
  isObjKey match pid with Some p => p | None => "root" end = false ->
  Good d1 d2 "root" ->
  Step d1 d2 (walk localeCompare mgr modelID sp pid cs d1)
             (walk localeCompare mgr modelID sp pid cs d2).
Proof.
  induction sp as [e t ch IH] using SpatialNode_forall_ind.
  intros pid cs d1 d2 HG GA OA GR. cbn [walk].
  destruct (spatialKindFromIfcType (toUpperCase t)) as [k|].
  - destruct (pair_visitSpatial d1 d2 e (toUpperCase t) k pid HG GA GR)
      as [Hid [S0 G0]].
    destruct (visitSpatial localeCompare mgr modelID d1 e (toUpperCase t) k pid)
      as [e1 myId] eqn:E1.
    destruct (visitSpatial localeCompare mgr modelID d2 e (toUpperCase t) k pid)
      as [e2 myId2] eqn:E2.
    cbn [fst snd] in *. subst myId2.
    assert (Ho : isObjKey myId = false).
    { replace myId with
        (snd (visitSpatial localeCompare mgr modelID d1 e (toUpperCase t) k pid))
        by now rewrite E1.
      unfold visitSpatial. cbn [snd]. apply isObjKey_spatial. }
    eapply Step_trans; [exact S0|].
    destruct S0 as [K0 [_ [_ [_ [_ P0]]]]].
    apply (pair_fold _ myId); auto.
    eapply Forall_impl; [|exact IH].
    intros c Hc a1 a2 HK HGa HGr. apply Hc; auto.
  - set (A := match pid with Some p => p | None => "root" end) in *.
    destruct (pair_visitLeaf d1 d2 e (toUpperCase t) A cs HG GA) as [Hst S0].
    destruct (visitLeaf localeCompare mgr modelID d1 e (toUpperCase t) A cs)
      as [e1 st] eqn:E1.
    destruct (visitLeaf localeCompare mgr modelID d2 e (toUpperCase t) A cs)
      as [e2 st2] eqn:E2.
    cbn [fst snd] in *. subst st2.
    eapply Step_trans; [exact S0|].
    destruct S0 as [K0 [_ [_ [_ [_ P0]]]]].
    apply (pair_fold _ A); auto.
    eapply Forall_impl; [|exact IH].
    intros c Hc a1 a2 HK HGa HGr. apply Hc; auto.
Qed.

(** *** Keys are only appended *)

Lemma keysExtend_refl d : keysExtend d d.
Proof. split; auto. exists []. now rewrite app_nil_r. Qed.

Lemma keysExtend_trans a b c : keysExtend a b -> keysExtend b c -> keysExtend a c.
Proof.
  intros [[l1 H1] N1] [[l2 H2] N2]. split; auto.
  exists (l1 ++ l2). now rewrite H2, H1, app_assoc.
Qed.

Lemma keysExtend_set (d : Nodes) k v : keysExtend d (set d k v).
Proof.
  unfold keysExtend. destruct (has d k) eqn:E.
  - rewrite (keys_set_has d k v E). split; auto. exists []. now rewrite app_nil_r.
  - rewrite (keys_set_new d k v E). split; [now exists [k]|].
    intros Hnd. apply NoDup_app; auto.
    + constructor; [tauto | constructor].
    + intros x Hx [<-|[]]. apply has_true in Hx. congruence.
Qed.

Lemma keysExtend_walk sp pid cs d :
  keysExtend d (walk localeCompare mgr modelID sp pid cs d).
Proof.
  apply through_walk.
  - apply keysExtend_refl.
  - apply keysExtend_trans.
  - intros d0 p c. unfold ensureChild. destruct (get d0 p); [|apply keysExtend_refl].
    destruct (memb _ c); [apply keysExtend_refl | apply keysExtend_set].
  - intros d0 n _. unfold upsertNode. destruct (get d0 (id n)); apply keysExtend_set.
  - intros d0 i. unfold ensureNode.
    destruct (has d0 i); [apply keysExtend_refl | apply keysExtend_set].
Qed.

(** *** Importing twice *)

Lemma import_twice_keys :
  let first := importWith localeCompare mgr modelID [] in
  let second := importWith localeCompare mgr modelID first in
  keys second = keys first /\ NoDup (keys second).
Proof.
  cbn zeta. unfold importWith.
  change (ensureNode [] "root" (plainNode "root" Root "Workspace" None []))
    with [("root", rootNode)].
  destruct (getSpatialStructure mgr modelID) as [sp|].
  2:{ split; [reflexivity|]. simpl. constructor; [tauto | constructor]. }
  set (D0 := [("root", rootNode)] : Nodes).
  set (F := walk localeCompare mgr modelID sp (Some "root") None D0).
  assert (HG : keysGrow D0 F) by apply keysGrow_walk.
  assert (HrF : has F "root" = true) by (apply HG; reflexivity).
  rewrite (ensureNode_has F "root" _ HrF).
  set (G := walk localeCompare mgr modelID sp (Some "root") None F).
  assert (GR : Good D0 F "root").
  { destruct (coreKept_root_walk localeCompare mgr modelID sp (Some "root") None
                D0 rootNode eq_refl) as [n' [Hn' [S1 [S2 [S3 _]]]]].
    exists (Root, "root", None). unfold coreAt. fold F in Hn'. rewrite Hn'.
    simpl in S1, S2, S3. rewrite <- S1, <- S2, <- S3.
    split; [reflexivity|]. split; [reflexivity|]. simpl. discriminate. }
  pose proof (pair_walk sp (Some "root") None D0 F HG GR eq_refl GR)
    as [_ [_ [HFG [Hnew _]]]].
  fold F G in HFG, Hnew.
  destruct (keysExtend_walk sp (Some "root") None D0) as [_ ND0].
  destruct (keysExtend_walk sp (Some "root") None F) as [[l Hl] NDF].
  fold F in ND0. fold G in Hl, NDF.
  assert (NF : NoDup (keys F)).
  { apply ND0. simpl. constructor; [tauto | constructor]. }
  assert (NG : NoDup (keys G)) by auto.
  split; auto.
  destruct l as [|x l]; [now rewrite app_nil_r in Hl|].
  exfalso. rewrite Hl in NG. apply NoDup_remove_2 in NG. apply NG.
  apply in_or_app. left. apply has_true.
  assert (HxG : has G x = true).
  { apply has_true. rewrite Hl. apply in_or_app. right. now left. }
  destruct (Hnew x HxG); auto.
Qed.

End Pair.

(** *** The leaf branch: storey, class group and object *)

Section Leaf.
Variable localeCompare : string -> string -> Z.
Variable mgr : IfcManager.
Variable modelID : Z.


Lemma prefix_app p : forall x y, String.prefix p x = true -> String.prefix p (x ++ y) = true.
Proof.
  induction p as [|a p IH]; intros x y H.
  - now destruct (x ++ y)%string.
  - destruct x as [|b x]; [discriminate|]. simpl in *.
    destruct (ascii_dec a b); [auto | discriminate].
Qed.



Lemma isStoreyKey_spatial g e : isStoreyKey (stableSpatialId Storey g e) = true.
Proof. exact (prefix_app "ifc:storey:" "ifc:storey:" _ eq_refl). Qed.










End Leaf.



End Importer.

(** C8.  Importing a single leaf element (no children) whose type tag is
    none of the four spatial tags into the empty tree, or into the tree
    that holds only the root, gives exactly: the root, the placeholder
    Project, Building and Storey under the constant ids
    ["ifc:project:default"], ["ifc:building:synthetic:ifc:project:default"]
    and ["ifc:storey:synthetic:ifc:building:synthetic:ifc:project:default"],
    one ClassGroup under the storey and one Object under the group. *)
Theorem import_single_leaf
    (localeCompare : string -> string -> Z) (mgr : IfcManager)
    (modelID expressID : Z) (type : string) :
  getSpatialStructure mgr modelID = Some (mkSpatial expressID type []) ->
  spatialKindFromIfcType (toUpperCase type) = None ->
  importIfcIntoCoordinator localeCompare (Some mgr) modelID []
  = Ok (scenarioE mgr modelID expressID (toUpperCase type)) /\
  importIfcIntoCoordinator localeCompare (Some mgr) modelID [("root", rootNode)]
  = Ok (scenarioE mgr modelID expressID (toUpperCase type)).
Proof.
  intros Hsp Hkind.
  unfold importIfcIntoCoordinator, importWith. rewrite Hsp.
  cbn [walk]. rewrite Hkind.
  unfold visitLeaf. rewrite Importer.ifcClassForElement_proxy.
  unfold scenarioE, leafObject, objectId.
  destruct (safeGetGlobalId mgr modelID expressID) as [g|];
    destruct (safeGetName mgr modelID expressID) as [n|];
    destruct (safeGetTag mgr modelID expressID) as [t|];
    split; reflexivity.
Qed.

Lemma import_single_leaf_witness :
  importIfcIntoCoordinator byCodeUnits (Some sampleManager) 0 []
  = Ok (scenarioE sampleManager 0 42 "IFCFLOWTERMINAL").
Proof.
  apply (import_single_leaf byCodeUnits sampleManager 0 42 "IfcFlowTerminal");
    reflexivity.
Defined.




(** The node under the group id need not be a ClassGroup: when a storey
    already has that id, the leaf is hung under the storey. *)
Lemma import_group_id_taken :
  exists node obj,
    Obj.get (importWith byCodeUnits collidingManager 0 [])
            "ifc:storey:A__IfcBuildingElementProxy" = Some node /\
    kind node = Storey /\ children node = ["ifc:obj:T"] /\
    Obj.get (importWith byCodeUnits collidingManager 0 []) "ifc:obj:T"
    = Some obj /\
    parentId obj = Some "ifc:storey:A__IfcBuildingElementProxy" /\
    ifcClass obj = Some "IfcBuildingElementProxy".
Proof.
  eexists. eexists. split; [vm_compute; reflexivity|].
  split; [reflexivity|]. split; [reflexivity|].
  split; [vm_compute; reflexivity|]. split; reflexivity.
Qed.

(** C6.  Importing the same spatial hierarchy with the same attribute
    source twice, starting from the empty tree, adds no node id in the
    second run: the ids after the second run are exactly the ids after the
    first run, in the same order and without duplicates. *)
Theorem import_twice_same_ids
    (localeCompare : string -> string -> Z) (mgr : IfcManager) (modelID : Z) :
  exists first second,
    importIfcIntoCoordinator localeCompare (Some mgr) modelID [] = Ok first /\
    importIfcIntoCoordinator localeCompare (Some mgr) modelID first = Ok second /\
    Obj.keys second = Obj.keys first /\ NoDup (Obj.keys second).
Proof.
  eexists _, _. split; [reflexivity|]. split; [reflexivity|].
  apply Importer.import_twice_keys.
Qed.

(** ** The scenarios of the spec, evaluated *)

Module Scenarios.

(** Scenario A: repairing the empty snapshot gives the root alone. *)
Lemma scenario_A : sanitizeNodes [] = [("root", rootNode)].
Proof. reflexivity. Qed.

(** Scenario B: a dangling [parentId] is cleared, the node is otherwise
    untouched. *)
Lemma scenario_B :
  Obj.get (sanitizeNodes scenarioB) "X"
  = Some (plainNode "X" Site "Site X" None []).
Proof. reflexivity. Qed.

(** Scenario C: the records of the valve of [exportTree]. *)
Lemma scenario_C :
  exists doc,
    exportIfc2x3FromTree sampleRandom 0
      (Obj.set exportTree "o"
         (mkNode "o" Object "V-1" (Some "g") [] (Some "IfcValve") (Some "V-1")
                 (Some [mkPset "Pset_AssetCustom" [("System", "Piping")]])
                 None None))
    = Ok doc /\
    map (fun l => match snd l with
                  | IFCELEMENT e _ _ o _ => (fst l, e, name o)
                  | _ => (fst l, "", "")
                  end)
        (filter (fun l => isElement (snd l)) doc)
    = [(27, "IFCVALVE", "V-1")] /\
    In (28, IFCPROPERTYSINGLEVALUE "System" "Piping") doc /\
    (exists g, In (29, IFCPROPERTYSET g 1 "Pset_AssetCustom" [28]) doc) /\
    (exists g, In (30, IFCRELDEFINESBYPROPERTIES g 1 27 29) doc) /\
    (exists g, In (31, IFCRELCONTAINEDINSPATIALSTRUCTURE g 1 [27] 20) doc).
Proof.
  eexists. split; [vm_compute; reflexivity|].
  split; [reflexivity|]. split; [simpl; tauto|].
  repeat split; eexists; simpl; tauto.
Qed.

(** Scenario D: three pumps, pattern [{CLASS}-{N:3}], no uniqueness check. *)
Lemma scenario_D :
  exists next,
    createObjectBatch sampleUid 0 "IfcPump" "g" "s" "b" "st" (ofZ 3)
                      "Pump {N}" true "{CLASS}-{N:3}" (ofZ 1) (ofZ 1) false "X"
                      pumpGroup pumpGroup
    = Some next /\
    map (fun n => tag n)
        (filter (fun n => NodeKind_eqb (kind n) Object) (Obj.values next))
    = [Some "PUMP-001"; Some "PUMP-002"; Some "PUMP-003"].
Proof. eexists. split; vm_compute; reflexivity. Qed.

End Scenarios.
